(** * ExScroller SDK: the PGP frame codec, line compressor, font resolver
      and program compiler of [src/sdk.js], embedded and verified.

    Numbers are JavaScript integers modelled as [Z]; a [Uint8Array] is a
    [list Z] whose stores wrap modulo 256 and whose out-of-range stores are
    dropped, as typed arrays do.  Bit operations are [Z.land], [Z.lor],
    [Z.lxor], [Z.shiftl] and [Z.shiftr]: on the values that occur here they
    agree with the 32-bit operators of the source. *)

From Stdlib Require Import String Ascii ZArith List Bool Lia QArith Qround.
Import ListNotations.
Open Scope Z_scope.

(** ** Typed arrays *)

Module U8.

(** Conversion of a number to an unsigned 8-bit element. *)
Definition wrap (v : Z) : Z := v mod 256.

(** [new Uint8Array(n)]: [n] zero bytes. *)
Definition make (n : nat) : list Z := repeat 0 n.

(** [new Uint8Array(array)]: every element is wrapped. *)
Definition of_array (l : list Z) : list Z := map wrap l.

(** [a[i] = v]: the element is wrapped; a store past the end is dropped. *)
Fixpoint store (i : nat) (v : Z) (a : list Z) : list Z :=
  match a, i with
  | [], _ => []
  | _ :: t, O => wrap v :: t
  | h :: t, S j => h :: store j v t
  end.

(** [a[i]]: [None] stands for [undefined]. *)
Definition load (i : nat) (a : list Z) : option Z := nth_error a i.

(** Element-wise copy of [src] over the front of [a]. *)
Fixpoint overwrite (src a : list Z) : list Z :=
  match src, a with
  | s :: ss, _ :: t => wrap s :: overwrite ss t
  | _, _ => a
  end.

(** [a.set(src, off)], for a source that fits (the only use in the SDK). *)
Fixpoint set_from (src : list Z) (off : nat) (a : list Z) : list Z :=
  match off, a with
  | O, _ => overwrite src a
  | S k, h :: t => h :: set_from src k t
  | S _, [] => []
  end.

(** [a.slice(b, e)] for [0 <= b]. *)
Definition slice (b e : nat) (a : list Z) : list Z :=
  firstn (e - b) (skipn b a).

(** A read-modify-write [a[i] op= ...] as data: the index and the update. *)
Definition store_op : Type := Z * (Z -> Z).

(** Perform one: outside the array the store is dropped. *)
Definition modify (op : store_op) (a : list Z) : list Z :=
  let (i, f) := op in
  if (0 <=? i) && (i <? Z.of_nat (length a))
  then store (Z.to_nat i) (f (nth (Z.to_nat i) a 0)) a
  else a.

Definition modify_all (ops : list store_op) (a : list Z) : list Z :=
  fold_left (fun a op => modify op a) ops a.

(** [a.fill(v)]. *)
Definition fill (v : Z) (a : list Z) : list Z := map (fun _ => wrap v) a.

(** The elements of a typed array are bytes. *)
Definition bytes (a : list Z) : Prop := Forall (fun v => 0 <= v < 256) a.

End U8.

(** ** Strings

    A JavaScript string is its sequence of UTF-16 code units. *)

Module Js.

Definition str : Type := list Z.

Definition is_high_surrogate (u : Z) : bool := (0xD800 <=? u) && (u <=? 0xDBFF).
Definition is_low_surrogate (u : Z) : bool := (0xDC00 <=? u) && (u <=? 0xDFFF).

Definition utf8_1 (c : Z) : list Z := [c].
Definition utf8_2 (c : Z) : list Z :=
  [Z.lor 0xC0 (Z.shiftr c 6); Z.lor 0x80 (Z.land c 0x3F)].
Definition utf8_3 (c : Z) : list Z :=
  [Z.lor 0xE0 (Z.shiftr c 12); Z.lor 0x80 (Z.land (Z.shiftr c 6) 0x3F);
   Z.lor 0x80 (Z.land c 0x3F)].
Definition utf8_4 (c : Z) : list Z :=
  [Z.lor 0xF0 (Z.shiftr c 18); Z.lor 0x80 (Z.land (Z.shiftr c 12) 0x3F);
   Z.lor 0x80 (Z.land (Z.shiftr c 6) 0x3F); Z.lor 0x80 (Z.land c 0x3F)].

(** [new TextEncoder().encode(s)] of the platform: UTF-8, with a lone
    surrogate replaced by U+FFFD. *)
Fixpoint utf8_encode (s : str) : list Z :=
  match s with
  | [] => []
  | u :: rest =>
      if u <? 0x80 then utf8_1 u ++ utf8_encode rest
      else if u <? 0x800 then utf8_2 u ++ utf8_encode rest
      else if is_high_surrogate u then
        match rest with
        | v :: rest' =>
            if is_low_surrogate v
            then utf8_4 (0x10000 + (u - 0xD800) * 0x400 + (v - 0xDC00))
                   ++ utf8_encode rest'
            else utf8_3 0xFFFD ++ utf8_encode rest
        | [] => utf8_3 0xFFFD
        end
      else if is_low_surrogate u then utf8_3 0xFFFD ++ utf8_encode rest
      else utf8_3 u ++ utf8_encode rest
  end.

(** [Math.round] on a rational: the nearest integer, halves upwards. *)
Definition round (q : Q) : Z := Qfloor (q + (1 # 2))%Q.

(** [q < r] and [q >= r] on numbers. *)
Definition ltb (q r : Q) : bool :=
  match (q ?= r)%Q with Lt => true | _ => false end.
Definition geb (q r : Q) : bool := negb (ltb q r).

End Js.

(** ** Constants and the font resolver *)

Definition WIDTH : Z := 576.
Definition BPL : nat := 72.

Module BTN.
Definition A : Z := 0x01.
Definition B : Z := 0x02.
Definition X : Z := 0x04.
Definition Y : Z := 0x08.
Definition L : Z := 0x10.
Definition R : Z := 0x20.
Definition ANY : Z := 0x3F.
End BTN.

Definition BASE_FONT_PX : list Z := [7; 16; 8].
Definition DOTS_PER_MM : Z := 8.

Record FontScale := { baseFont : Z; scale : Z }.

(** [sizeToFontScale(sizeMm, useJapanese)]; the size is a number of
    millimetres, here a rational. *)
Definition sizeToFontScale (sizeMm : Q) (useJapanese : bool) : FontScale :=
  let sizePx := (sizeMm * inject_Z DOTS_PER_MM)%Q in
  let base := if useJapanese then 2 else (if Js.geb sizePx (inject_Z 12) then 1 else 0) in
  let scale :=
    Z.max 1 (Z.min 15
      (Js.round (sizePx / inject_Z (nth (Z.to_nat base) BASE_FONT_PX 0%Z))%Q)) in
  {| baseFont := base; scale := scale |}.

(** [encodeFontByte(baseFont, scale)]. *)
Definition encodeFontByte (baseFont scale : Z) : Z :=
  if (2 <=? baseFont) || (2 <? scale)
  then Z.lor (Z.shiftl scale 2) (Z.land baseFont 0x03)
  else if baseFont =? 0 then scale - 1 else 2 + scale - 1.

(** [hasCJK(str)]: some code unit lies in one of the five ranges of the
    regular expression. *)
Definition cjk_unit (u : Z) : bool :=
  ((0x3040 <=? u) && (u <=? 0x309F)) || ((0x30A0 <=? u) && (u <=? 0x30FF))
  || ((0x4E00 <=? u) && (u <=? 0x9FFF)) || ((0x3400 <=? u) && (u <=? 0x4DBF))
  || ((0xFF65 <=? u) && (u <=? 0xFF9F)).

Definition hasCJK (s : Js.str) : bool := existsb cjk_unit s.

(** ** PGP: frame builder *)

Module PGP.

Definition SYNC : Z := 0xE0.

Module CMD.
Definition RAW_LINE : Z := 0x01.
Definition RAW_LINES : Z := 0x02.
Definition RAW_LINE_RLE : Z := 0x03.
Definition FILL_LINE : Z := 0x04.
Definition TEXT : Z := 0x05.
Definition RECT : Z := 0x06.
Definition SPRITE_DEF : Z := 0x0B.
Definition SPRITE_DRAW : Z := 0x0C.
Definition FEED : Z := 0x20.
Definition SET_SPEED : Z := 0x22.
Definition STOP : Z := 0x23.
Definition SET_HEAT : Z := 0x24.
Definition SET_MODE : Z := 0x25.
Definition POLL_INPUT : Z := 0x30.
Definition WAIT_BUTTON : Z := 0x31.
Definition SYNC : Z := 0x41.
Definition PROGRAM_START : Z := 0x50.
Definition PROGRAM_END : Z := 0x51.
Definition LABEL : Z := 0x60.
Definition JUMP : Z := 0x61.
Definition JUMP_IF_BTN : Z := 0x62.
Definition RANDOM_JUMP : Z := 0x64.
Definition SET_VAR : Z := 0x65.
Definition JUMP_IF_VAR : Z := 0x66.
Definition JUMP_IF_FADER : Z := 0x67.
Definition WAIT_FADER : Z := 0x68.
Definition SET_FEED_MODE : Z := 0x69.
End CMD.

Definition writeU16LE (value : Z) : list Z :=
  [Z.land value 0xFF; Z.land (Z.shiftr value 8) 0xFF].

Definition writeU16BE (value : Z) : list Z :=
  [Z.land (Z.shiftr value 8) 0xFF; Z.land value 0xFF].

(** One turn of the inner loop of [crc8]:
    [crc = (crc & 0x80) ? ((crc << 1) ^ 0x07) : (crc << 1)].
    The register is not masked here; it grows past eight bits. *)
Definition crc8_shift (crc : Z) : Z :=
  if Z.land crc 0x80 =? 0 then Z.shiftl crc 1
  else Z.lxor (Z.shiftl crc 1) 0x07.

(** The body of the outer loop: xor the byte in, eight turns, then
    [crc &= 0xFF]. *)
Definition crc8_step (crc b : Z) : Z :=
  Z.land (Nat.iter 8 crc8_shift (Z.lxor crc b)) 0xFF.

Definition crc8 (data : list Z) : Z := fold_left crc8_step data 0.

(** [frame(cmd, payload)], with [payload] a [Uint8Array]. *)
Definition frame (cmd : Z) (payload : list Z) : list Z :=
  let len := length payload in
  let buf := U8.make (5 + len) in
  let buf := U8.store 0 SYNC buf in
  let buf := U8.store 1 cmd buf in
  let buf := U8.store 2 (Z.land (Z.of_nat len) 0xFF) buf in
  let buf := U8.store 3 (Z.land (Z.shiftr (Z.of_nat len) 8) 0xFF) buf in
  let buf := if (0 <? len)%nat then U8.set_from payload 4 buf else buf in
  U8.store (4 + len) (crc8 (U8.slice 1 (4 + len) buf)) buf.

Definition setSpeed (pps : Z) : list Z :=
  frame CMD.SET_SPEED
    (U8.of_array [Z.land pps 0xFF; Z.land (Z.shiftr pps 8) 0xFF]).

Definition setHeat (us : Z) : list Z :=
  frame CMD.SET_HEAT
    (U8.of_array [Z.land us 0xFF; Z.land (Z.shiftr us 8) 0xFF]).

Definition rawLine (data : list Z) : list Z :=
  frame CMD.RAW_LINE (U8.of_array data).

(** The inner loop of [rleEncode], walking the bytes after position [i]:
    [while (i + count < arr.length && arr[i + count] === val && count < 255)
       count++]. *)
Fixpoint run_length (rest : list Z) (val : Z) (count : nat) : nat :=
  match rest with
  | [] => count
  | b :: rest' =>
      if (b =? val) && (count <? 255)%nat
      then run_length rest' val (S count)
      else count
  end.

(** The outer loop of [rleEncode]; every turn consumes at least one byte,
    so [length arr] turns are enough ([None]: not enough turns). *)
Fixpoint rle_loop (turns : nat) (arr : list Z) (i : nat) (rle : list Z)
  : option (list Z) :=
  if (length arr <=? i)%nat then Some rle
  else
    match turns with
    | O => None
    | S turns' =>
        let val := nth i arr 0 in
        let count := run_length (skipn (S i) arr) val 1 in
        rle_loop turns' arr (i + count) (rle ++ [Z.of_nat count; val])
    end.

(** [rleEncode(data)]; [None] is the source's [null]. *)
Definition rleEncode (data : list Z) : option (list Z) :=
  let arr := U8.of_array data in
  if negb (length arr =? 72)%nat then None
  else
    match rle_loop (length arr) arr 0 [] with
    | Some rle => Some (U8.of_array rle)
    | None => None
    end.

(** [rawLineRle(data)]. *)
Definition rawLineRle (data : list Z) : list Z :=
  match rleEncode data with
  | Some rle =>
      if (length rle <? 64)%nat then frame CMD.RAW_LINE_RLE rle
      else rawLine data
  | None => rawLine data
  end.

Definition fillLine (pattern count : Z) : list Z :=
  frame CMD.FILL_LINE
    (U8.of_array [Z.land pattern 0xFF; Z.land count 0xFF;
                  Z.land (Z.shiftr count 8) 0xFF]).

Definition text_payload (x y font : Z) (str : Js.str) : list Z :=
  let enc := Js.utf8_encode str in
  let p := U8.make (6 + length enc) in
  let p := U8.store 0 (Z.land x 0xFF) p in
  let p := U8.store 1 (Z.land (Z.shiftr x 8) 0xFF) p in
  let p := U8.store 2 (Z.land y 0xFF) p in
  let p := U8.store 3 (Z.land (Z.shiftr y 8) 0xFF) p in
  let p := U8.store 4 font p in
  let p := U8.store 5 (Z.of_nat (length enc)) p in
  U8.set_from enc 6 p.

Definition text (x y font : Z) (str : Js.str) : list Z :=
  frame CMD.TEXT (text_payload x y font str).

Definition rect_payload (x y w h fill : Z) : list Z :=
  let p := U8.make 9 in
  let p := U8.store 0 (Z.land x 0xFF) p in
  let p := U8.store 1 (Z.land (Z.shiftr x 8) 0xFF) p in
  let p := U8.store 2 (Z.land y 0xFF) p in
  let p := U8.store 3 (Z.land (Z.shiftr y 8) 0xFF) p in
  let p := U8.store 4 (Z.land w 0xFF) p in
  let p := U8.store 5 (Z.land (Z.shiftr w 8) 0xFF) p in
  let p := U8.store 6 (Z.land h 0xFF) p in
  let p := U8.store 7 (Z.land (Z.shiftr h 8) 0xFF) p in
  U8.store 8 fill p.

Definition rect (x y w h fill : Z) : list Z :=
  frame CMD.RECT (rect_payload x y w h fill).

Definition feed (lines : Z) : list Z :=
  frame CMD.FEED
    (U8.of_array [Z.land lines 0xFF; Z.land (Z.shiftr lines 8) 0xFF]).

Definition stop : list Z := frame CMD.STOP (U8.make 0).

Definition setMode (mode : Z) : list Z :=
  frame CMD.SET_MODE (U8.of_array [mode]).

Definition pollInput : list Z := frame CMD.POLL_INPUT (U8.make 0).
Definition waitButton : list Z := frame CMD.WAIT_BUTTON (U8.make 0).

Definition programStart : list Z := frame CMD.PROGRAM_START (U8.make 0).
Definition programEnd : list Z := frame CMD.PROGRAM_END (U8.make 0).

Definition spriteDef_payload (id w h : Z) (data : list Z) : list Z :=
  let p := U8.make (3 + length data) in
  let p := U8.store 0 id p in
  let p := U8.store 1 w p in
  let p := U8.store 2 h p in
  U8.set_from data 3 p.

Definition spriteDef (id w h : Z) (data : list Z) : list Z :=
  frame CMD.SPRITE_DEF (spriteDef_payload id w h data).

Definition spriteDraw_payload (id x y : Z) : list Z :=
  let p := U8.make 5 in
  let p := U8.store 0 id p in
  let p := U8.store 1 (Z.land x 0xFF) p in
  let p := U8.store 2 (Z.land (Z.shiftr x 8) 0xFF) p in
  let p := U8.store 3 (Z.land y 0xFF) p in
  U8.store 4 (Z.land (Z.shiftr y 8) 0xFF) p.

Definition spriteDraw (id x y : Z) : list Z :=
  frame CMD.SPRITE_DRAW (spriteDraw_payload id x y).

(** *** Branching commands *)

Definition label_payload (id : Z) : list Z :=
  U8.of_array [Z.land (Z.shiftr id 8) 0xFF; Z.land id 0xFF].

Definition label (id : Z) : list Z := frame CMD.LABEL (label_payload id).

Definition jump_payload (labelId : Z) : list Z :=
  U8.of_array [Z.land (Z.shiftr labelId 8) 0xFF; Z.land labelId 0xFF].

Definition jump (labelId : Z) : list Z :=
  frame CMD.JUMP (jump_payload labelId).

Definition jumpIfBtn_payload (buttonMask labelId : Z) : list Z :=
  let mask := if buttonMask =? 0 then BTN.ANY else buttonMask in
  U8.of_array [mask; Z.land (Z.shiftr labelId 8) 0xFF; Z.land labelId 0xFF].

Definition jumpIfBtn (buttonMask labelId : Z) : list Z :=
  frame CMD.JUMP_IF_BTN (jumpIfBtn_payload buttonMask labelId).

(** The loop of [randomJump], from index [i] on. *)
Fixpoint randomJump_fill (labelIds : list Z) (i : nat) (p : list Z) : list Z :=
  match labelIds with
  | [] => p
  | l :: rest =>
      let p := U8.store (1 + i * 2) (Z.land (Z.shiftr l 8) 0xFF) p in
      let p := U8.store (2 + i * 2) (Z.land l 0xFF) p in
      randomJump_fill rest (S i) p
  end.

Definition randomJump_payload (labelIds : list Z) : list Z :=
  let p := U8.make (1 + length labelIds * 2) in
  let p := U8.store 0 (Z.of_nat (length labelIds)) p in
  randomJump_fill labelIds 0 p.

Definition randomJump (labelIds : list Z) : list Z :=
  frame CMD.RANDOM_JUMP (randomJump_payload labelIds).

Definition setVar_payload (varId value : Z) : list Z :=
  let p := U8.make 3 in
  let p := U8.store 0 varId p in
  let p := U8.store 1 (Z.land (Z.shiftr value 8) 0xFF) p in
  U8.store 2 (Z.land value 0xFF) p.

Definition setVar (varId value : Z) : list Z :=
  frame CMD.SET_VAR (setVar_payload varId value).

Definition jumpIfVar_payload (varId op value labelId : Z) : list Z :=
  let p := U8.make 6 in
  let p := U8.store 0 varId p in
  let p := U8.store 1 op p in
  let p := U8.store 2 (Z.land (Z.shiftr value 8) 0xFF) p in
  let p := U8.store 3 (Z.land value 0xFF) p in
  let p := U8.store 4 (Z.land (Z.shiftr labelId 8) 0xFF) p in
  U8.store 5 (Z.land labelId 0xFF) p.

Definition jumpIfVar (varId op value labelId : Z) : list Z :=
  frame CMD.JUMP_IF_VAR (jumpIfVar_payload varId op value labelId).

Definition jumpIfFader_payload (op threshold labelId : Z) : list Z :=
  let p := U8.make 5 in
  let p := U8.store 0 op p in
  let p := U8.store 1 (Z.land threshold 0xFF) p in
  let p := U8.store 2 (Z.land (Z.shiftr threshold 8) 0xFF) p in
  let p := U8.store 3 (Z.land (Z.shiftr labelId 8) 0xFF) p in
  U8.store 4 (Z.land labelId 0xFF) p.

Definition jumpIfFader (op threshold labelId : Z) : list Z :=
  frame CMD.JUMP_IF_FADER (jumpIfFader_payload op threshold labelId).

Definition waitFader_payload (op threshold : Z) : list Z :=
  let p := U8.make 3 in
  let p := U8.store 0 op p in
  let p := U8.store 1 (Z.land threshold 0xFF) p in
  U8.store 2 (Z.land (Z.shiftr threshold 8) 0xFF) p.

Definition waitFader (op threshold : Z) : list Z :=
  frame CMD.WAIT_FADER (waitFader_payload op threshold).

Definition setFeedMode (mode : Z) : list Z :=
  frame CMD.SET_FEED_MODE (U8.of_array [mode]).

End PGP.


(** ** The checksum in the words of the specification

    An 8-bit CRC with polynomial 0x07, initial value 0, fed most significant
    bit first, without final XOR: a shift register of eight bits into which
    the message bits are clocked one at a time. *)

Module CrcSpec.

(** The bits of a byte, most significant first. *)
Definition bits_msb_first (b : Z) : list bool :=
  map (fun k => Z.testbit b (Z.of_nat k)) [7; 6; 5; 4; 3; 2; 1; 0]%nat.

(** Clock one message bit into the register. *)
Definition clock (poly : Z) (reg : Z) (bit : bool) : Z :=
  let feedback := xorb (Z.testbit reg 7) bit in
  let shifted := (reg * 2) mod 256 in
  if feedback then Z.lxor shifted poly else shifted.

Definition crc (poly init xorout : Z) (msg : list Z) : Z :=
  Z.lxor
    (fold_left (fun reg b => fold_left (clock poly) (bits_msb_first b) reg)
               msg init)
    xorout.

Definition crc8_07 : list Z -> Z := crc 0x07 0 0.

End CrcSpec.


(** ** Section: content definition *)

Inductive block : Type :=
| Text (x : Z) (str : Js.str) (baseFont scale : Z) (sizeMm : option Q)
| Rect (x w h fill : Z)
| Fill (pattern count : Z)
| Feed (lines : Z)
| Hline (thickness : Z)
| Image (rows : list (list Z))
| WaitButton
| Sprite (id x y : Z)
| Label (id : Z)
| Jump (labelId : Z)
| JumpIfBtn (buttonMask labelId : Z)
| RandomJump (labelIds : list Z)
| SetVar (varId value : Z)
| JumpIfVar (varId op value labelId : Z)
| JumpIfFader (op threshold labelId : Z)
| WaitFader (op threshold : Z)
| SetFeedMode (mode : Z).

(** The [type] field of a block. *)
Definition block_type (b : block) : string :=
  match b with
  | Text _ _ _ _ _ => "text"
  | Rect _ _ _ _ => "rect"
  | Fill _ _ => "fill"
  | Feed _ => "feed"
  | Hline _ => "hline"
  | Image _ => "image"
  | WaitButton => "waitButton"
  | Sprite _ _ _ => "sprite"
  | Label _ => "label"
  | Jump _ => "jump"
  | JumpIfBtn _ _ => "jumpIfBtn"
  | RandomJump _ => "randomJump"
  | SetVar _ _ => "setVar"
  | JumpIfVar _ _ _ _ => "jumpIfVar"
  | JumpIfFader _ _ _ => "jumpIfFader"
  | WaitFader _ _ => "waitFader"
  | SetFeedMode _ => "setFeedMode"
  end.

(** The options of [Section.text]: [size] in millimetres or a legacy
    [font] index. *)
Record TextOpts := { size : option Q; font : option Z }.

(** The block pushed by [Section.text(x, str, opts)]. *)
Definition Section_text (x : Z) (str : Js.str) (opts : TextOpts) : block :=
  match size opts with
  | Some sz =>
      let fs := sizeToFontScale sz false in
      Text x str (baseFont fs) (scale fs) (Some sz)
  | None =>
      match font opts with
      | Some f =>
          Text x str (if f <? 2 then 0 else 1)
               (if (f =? 1) || (f =? 3) then 2 else 1) None
      | None => Text x str 1 1 None
      end
  end.

(** ** LineContext: the object handed to a dynamic section's callbacks

    The fields the SDK reads or writes.  [vars] is a reference to the
    table of the game and lives in the state callbacks transform (see
    [Vars] below); [input] is a constant record. *)

Record LineContext := {
  line : Z;
  ctx_maxLines : Z;
  _buf : list Z;
  _done : bool;
  _goto : option string;
  _speed : option Z
}.

Definition with_buf (buf : list Z) (c : LineContext) : LineContext :=
  {| line := line c; ctx_maxLines := ctx_maxLines c; _buf := buf;
     _done := _done c; _goto := _goto c; _speed := _speed c |}.

(** [new LineContext(game, maxLines)]. *)
Definition new_LineContext (maxLines : Z) : LineContext :=
  {| line := 0; ctx_maxLines := maxLines; _buf := U8.make BPL;
     _done := false; _goto := None; _speed := None |}.

(** The store [this._buf[x >> 3] |= (1 << (7 - (x & 7)))]. *)
Definition set_bit (x : Z) : U8.store_op :=
  (Z.shiftr x 3, fun v => Z.lor v (Z.shiftl 1 (7 - Z.land x 7))).

(** The store [this._buf[x >> 3] &= ~(1 << (7 - (x & 7)))]. *)
Definition clear_bit (x : Z) : U8.store_op :=
  (Z.shiftr x 3, fun v => Z.land v (Z.lnot (Z.shiftl 1 (7 - Z.land x 7)))).

(** The stores made by [pixel(x, on)], in order. *)
Definition pixel_ops (x : Q) (on : bool) : list U8.store_op :=
  if Js.ltb x 0 || Js.geb x (inject_Z WIDTH) then []
  else
    let x := Qfloor x in
    if on then [set_bit x] else [clear_bit x].

Definition pixel (x : Q) (on : bool) (c : LineContext) : LineContext :=
  with_buf (U8.modify_all (pixel_ops x on) (_buf c)) c.

(** The stores made by [range(x1, x2)], in order: one for every [x] of
    the loop [for (x = x1; x < x2; x++)] after both bounds were clamped. *)
Definition range_ops (x1 x2 : Q) : list U8.store_op :=
  let x1 := Z.max 0 (Qfloor x1) in
  let x2 := Z.min WIDTH (Qfloor x2) in
  map (fun k => set_bit (x1 + Z.of_nat k)) (seq 0 (Z.to_nat (x2 - x1))).

Definition range (x1 x2 : Q) (c : LineContext) : LineContext :=
  with_buf (U8.modify_all (range_ops x1 x2) (_buf c)) c.

(** The stores made by [emit(data)]: [this._buf.set(src.subarray(0, BPL))]. *)
Definition emit_ops (data : list Z) : list U8.store_op :=
  let src := firstn BPL (U8.of_array data) in
  map (fun kv => (Z.of_nat (fst kv), fun _ : Z => snd kv))
      (combine (seq 0 (length src)) src).

Definition emit (data : list Z) (c : LineContext) : LineContext :=
  with_buf (U8.modify_all (emit_ops data) (_buf c)) c.

Definition setSpeed (pps : Z) (c : LineContext) : LineContext :=
  {| line := line c; ctx_maxLines := ctx_maxLines c; _buf := _buf c;
     _done := _done c; _goto := _goto c; _speed := Some pps |}.

Definition done (c : LineContext) : LineContext :=
  {| line := line c; ctx_maxLines := ctx_maxLines c; _buf := _buf c;
     _done := true; _goto := _goto c; _speed := _speed c |}.

Definition goto (sectionId : string) (c : LineContext) : LineContext :=
  {| line := line c; ctx_maxLines := ctx_maxLines c; _buf := _buf c;
     _done := true; _goto := Some sectionId; _speed := _speed c |}.

(** The three assignments that open every turn of [_runDynamic]:
    [lctx.line = i; lctx._buf.fill(0); lctx._speed = null]. *)
Definition begin_line (i : Z) (c : LineContext) : LineContext :=
  {| line := i; ctx_maxLines := ctx_maxLines c; _buf := U8.fill 0 (_buf c);
     _done := _done c; _goto := _goto c; _speed := None |}.

(** ** Game: orchestration *)

(** An undefined label reference found by [_validateLabels]; it stands for
    the message [Section '<section>': <how> to undefined label <label>]. *)
Inductive ref_kind := ByJump | ByJumpIfVar | ByRandomJump.

Record LabelError := {
  err_section : string;
  err_kind : ref_kind;
  err_label : Z
}.

(** The context object of the [CompileError] thrown by [_validateLabels]. *)
Record CompileError := {
  definedLabels : list Z;
  errors : list LabelError
}.

Inductive result (A : Type) : Type :=
| Return (a : A)
| Throw (e : CompileError).
Arguments Return {A} a.
Arguments Throw {A} e.

(** [Set.prototype.add] on a set kept in insertion order. *)
Definition set_add {A : Type} (eqb : A -> A -> bool) (x : A) (s : list A)
  : list A :=
  if existsb (eqb x) s then s else s ++ [x].

Definition set_has {A : Type} (eqb : A -> A -> bool) (s : list A) (x : A)
  : bool :=
  existsb (eqb x) s.

(** [Map.prototype.get] on a map kept as its entries in insertion order. *)
Fixpoint map_get {A : Type} (m : list (string * A)) (k : string) : option A :=
  match m with
  | [] => None
  | (k', a) :: rest => if String.eqb k k' then Some a else map_get rest k
  end.

(** [Map.prototype.set]: an existing key keeps its place. *)
Fixpoint map_set {A : Type} (k : string) (a : A) (m : list (string * A))
  : list (string * A) :=
  match m with
  | [] => [(k, a)]
  | (k', a') :: rest =>
      if String.eqb k k' then (k, a) :: rest else (k', a') :: map_set k a rest
  end.

Definition branchingTypes : list string :=
  ["label"; "jump"; "jumpIfBtn"; "randomJump"; "setVar"; "jumpIfVar";
   "jumpIfFader"; "waitFader"; "setFeedMode"]%string.

(** [branchingTypes.includes(block.type)]. *)
Definition is_branching (b : block) : bool :=
  existsb (String.eqb (block_type b)) branchingTypes.

(** The violations one block adds to [errors] in step 2 of
    [_validateLabels]. *)
Definition block_errors (defined : list Z) (sectionId : string) (b : block)
  : list LabelError :=
  match b with
  | Jump labelId | JumpIfBtn _ labelId =>
      if set_has Z.eqb defined labelId then []
      else [{| err_section := sectionId; err_kind := ByJump;
               err_label := labelId |}]
  | JumpIfVar _ _ _ labelId =>
      if set_has Z.eqb defined labelId then []
      else [{| err_section := sectionId; err_kind := ByJumpIfVar;
               err_label := labelId |}]
  | RandomJump labelIds =>
      map (fun labelId => {| err_section := sectionId;
                             err_kind := ByRandomJump;
                             err_label := labelId |})
          (filter (fun labelId => negb (set_has Z.eqb defined labelId))
                  labelIds)
  | _ => []
  end.

(** [_blockToPGP(block)]. *)
Definition blockToPGP (b : block) : list (list Z) :=
  match b with
  | Text x str baseFont scale sizeMm =>
      if hasCJK str then
        let scale :=
          match sizeMm with
          | Some sz =>
              let sizePx := (sz * 8)%Q in
              Z.max 1 (Z.min 15 (Js.round (sizePx / 8)%Q))
          | None => scale
          end in
        [PGP.text x 0 (encodeFontByte 2 scale) str]
      else [PGP.text x 0 (encodeFontByte baseFont scale) str]
  | Rect x w h fill => [PGP.rect x 0 w h fill]
  | Fill pattern count => [PGP.fillLine pattern count]
  | Feed lines => [PGP.feed lines]
  | Hline thickness => [PGP.fillLine 0xFF thickness]
  | Image rows => map PGP.rawLineRle rows
  | WaitButton => [PGP.waitButton]
  | Sprite id x y => [PGP.spriteDraw id x y]
  | Label id => [PGP.label id]
  | Jump labelId => [PGP.jump labelId]
  | JumpIfBtn buttonMask labelId => [PGP.jumpIfBtn buttonMask labelId]
  | RandomJump labelIds => [PGP.randomJump labelIds]
  | SetVar varId value => [PGP.setVar varId value]
  | JumpIfVar varId op value labelId =>
      [PGP.jumpIfVar varId op value labelId]
  | JumpIfFader op threshold labelId =>
      [PGP.jumpIfFader op threshold labelId]
  | WaitFader op threshold => [PGP.waitFader op threshold]
  | SetFeedMode mode => [PGP.setFeedMode mode]
  end.

(** The names under which the object literal
    [{ auto: 0, elastic: 1, precise: 2 }] answers with a member it inherits
    from [Object.prototype]: a function, or the prototype itself for
    [__proto__]. *)
Definition Object_prototype_keys : list string :=
  ["constructor"; "__defineGetter__"; "__defineSetter__"; "hasOwnProperty";
   "__lookupGetter__"; "__lookupSetter__"; "isPrototypeOf";
   "propertyIsEnumerable"; "toString"; "valueOf"; "__proto__";
   "toLocaleString"]%string.

(** What the lookup of a feed mode gives: a number, or an inherited member,
    which is neither null nor undefined and so survives the [?? 0]. *)
Inductive mode_value :=
| ModeNumber (n : Z)
| ModeInherited.

(** [{ auto: 0, elastic: 1, precise: 2 }[feedMode] ?? 0]. *)
Definition feed_mode_code (feedMode : string) : mode_value :=
  if String.eqb feedMode "auto" then ModeNumber 0
  else if String.eqb feedMode "elastic" then ModeNumber 1
  else if String.eqb feedMode "precise" then ModeNumber 2
  else if existsb (String.eqb feedMode) Object_prototype_keys
       then ModeInherited
  else ModeNumber 0.

(** [mode === 0]; [mode !== 0] is its negation. *)
Definition mode_is_zero (mode : mode_value) : bool :=
  match mode with
  | ModeNumber n => n =? 0
  | ModeInherited => false
  end.

(** The element [new Uint8Array([mode])] stores before wrapping: the number
    itself, and 0 for an inherited member, whose conversion to a number is
    NaN. *)
Definition mode_element (mode : mode_value) : Z :=
  match mode with
  | ModeNumber n => n
  | ModeInherited => 0
  end.

(** [_concatFrames(frames)]. *)
Definition concatFrames (frames : list (list Z)) : list Z := concat frames.

Record SpriteT := { spr_id : Z; spr_w : Z; spr_h : Z; spr_data : list Z }.

Section Compiler.

(** What a callback can reach besides the [LineContext] it is handed:
    [game.vars], which every [LineContext] shares by reference, and the
    variables its closure captured.  Callbacks are state transformers on
    it; they return normally. *)
Variable Vars : Type.

Definition callback : Type := Vars -> LineContext -> Vars * LineContext.
Definition predicate : Type :=
  Vars -> LineContext -> Vars * LineContext * bool.

Record SectionT := {
  id : string;
  feedMode : string;
  speed : Z;
  blocks : list block;
  _onLine : option callback;
  _onEnter : option callback;
  _onExit : option callback;
  _endCondition : option predicate;
  maxLines : Z
}.

Record Game := {
  sections : list (string * SectionT);
  _flow : list string;
  sprites : list (Z * SpriteT)
}.

Definition run_hook (h : option callback) (v : Vars) (c : LineContext)
  : Vars * LineContext :=
  match h with
  | Some f => f v c
  | None => (v, c)
  end.

(** The loop of [_runDynamic] with [n] turns left, at index [i]. *)
Fixpoint dyn_loop (s : SectionT) (onLine : callback) (n : nat) (i : Z)
    (v : Vars) (lctx : LineContext) (scanlines : list (list Z))
  : Vars * LineContext * list (list Z) :=
  match n with
  | O => (v, lctx, scanlines)
  | S n' =>
      let lctx := begin_line i lctx in
      let (v, lctx) := onLine v lctx in
      let scanlines := scanlines ++ [U8.of_array (_buf lctx)] in
      if _done lctx then (v, lctx, scanlines)
      else
        match _endCondition s with
        | Some cond =>
            let '(v, lctx, stop) := cond v lctx in
            if stop then (v, lctx, scanlines)
            else dyn_loop s onLine n' (i + 1) v lctx scanlines
        | None => dyn_loop s onLine n' (i + 1) v lctx scanlines
        end
  end.

(** [_runDynamic(section)], called only with [section._onLine] set, here
    passed as [onLine]. *)
Definition runDynamic (s : SectionT) (onLine : callback) (v : Vars)
  : Vars * list (list Z) :=
  let lctx := new_LineContext (maxLines s) in
  let (v, lctx) := run_hook (_onEnter s) v lctx in
  let '(v, lctx, scanlines) :=
    dyn_loop s onLine (Z.to_nat (maxLines s)) 0 v lctx [] in
  let (v, _) := run_hook (_onExit s) v lctx in
  (v, scanlines).

(** [_compileSectionFrames(section)]. *)
Definition compileSectionFrames (s : SectionT) (v : Vars)
  : Vars * list (list Z) :=
  let mode := feed_mode_code (feedMode s) in
  let frames :=
    if negb (mode_is_zero mode) then [PGP.setMode (mode_element mode)]
    else [] in
  let frames :=
    if String.eqb (feedMode s) "auto" || mode_is_zero mode
    then frames ++ [PGP.setSpeed (speed s)] else frames in
  match _onLine s with
  | Some onLine =>
      let (v, scanlines) := runDynamic s onLine v in
      (v, frames ++ map PGP.rawLineRle scanlines)
  | None => (v, frames ++ flat_map blockToPGP (blocks s))
  end.

(** Step 1 of [_validateLabels]. *)
Definition collect_labels (g : Game) : list Z :=
  fold_left
    (fun defined entry =>
       fold_left
         (fun defined b =>
            match b with
            | Label id => set_add Z.eqb id defined
            | _ => defined
            end)
         (blocks (snd entry)) defined)
    (sections g) [].

(** Step 2 of [_validateLabels]. *)
Definition collect_errors (g : Game) (defined : list Z) : list LabelError :=
  flat_map
    (fun entry => flat_map (block_errors defined (fst entry))
                           (blocks (snd entry)))
    (sections g).

(** [_validateLabels()]: [None] when it returns, the error it throws
    otherwise. *)
Definition validateLabels (g : Game) : option CompileError :=
  let defined := collect_labels g in
  let errs := collect_errors g defined in
  if (0 <? length errs)%nat
  then Some {| definedLabels := defined; errors := errs |}
  else None.

(** [_hasBranchingCommands()]. *)
Definition hasBranchingCommands (g : Game) : bool :=
  existsb (fun entry => existsb is_branching (blocks (snd entry)))
          (sections g).

(** The first loop of the branching case of [compile]. *)
Fixpoint compile_flow_all (g : Game) (flow : list string) (v : Vars)
    (frames : list (list Z)) (compiled : list string)
  : Vars * list (list Z) * list string :=
  match flow with
  | [] => (v, frames, compiled)
  | i :: rest =>
      match map_get (sections g) i with
      | None => compile_flow_all g rest v frames compiled
      | Some s =>
          let (v, fs) := compileSectionFrames s v in
          compile_flow_all g rest v (frames ++ fs)
                           (set_add String.eqb i compiled)
      end
  end.

(** The second loop of the branching case of [compile]. *)
Fixpoint compile_remaining (entries : list (string * SectionT))
    (compiled : list string) (v : Vars) (frames : list (list Z))
  : Vars * list (list Z) :=
  match entries with
  | [] => (v, frames)
  | (i, s) :: rest =>
      if set_has String.eqb compiled i
      then compile_remaining rest compiled v frames
      else
        let (v, fs) := compileSectionFrames s v in
        compile_remaining rest compiled v (frames ++ fs)
  end.

(** The loop of the non-branching case of [compile]. *)
Fixpoint compile_flow_only (g : Game) (flow : list string) (v : Vars)
    (frames : list (list Z)) : Vars * list (list Z) :=
  match flow with
  | [] => (v, frames)
  | i :: rest =>
      match map_get (sections g) i with
      | None => compile_flow_only g rest v frames
      | Some s =>
          let (v, fs) := compileSectionFrames s v in
          compile_flow_only g rest v (frames ++ fs)
      end
  end.

Definition sprite_frames (g : Game) : list (list Z) :=
  map (fun e => PGP.spriteDef (spr_id (snd e)) (spr_w (snd e))
                              (spr_h (snd e)) (spr_data (snd e)))
      (sprites g).

(** [compile()] up to its last line: the frames it has pushed. *)
Definition compile_frames (g : Game) (v : Vars)
  : result (Vars * list (list Z)) :=
  let hasBranching := hasBranchingCommands g in
  match (if hasBranching then validateLabels g else None) with
  | Some e => Throw e
  | None =>
      let frames := if hasBranching then [PGP.programStart] else [] in
      let frames := frames ++ sprite_frames g in
      let (v, frames) :=
        if hasBranching then
          let '(v, frames, compiled) :=
            compile_flow_all g (_flow g) v frames [] in
          compile_remaining (sections g) compiled v frames
        else compile_flow_only g (_flow g) v frames in
      let frames := frames ++ [PGP.feed 16] in
      let frames := frames ++ [PGP.stop] in
      let frames :=
        if hasBranching then frames ++ [PGP.programEnd] else frames in
      Return (v, frames)
  end.

(** [compile()]: the byte stream. *)
Definition compile (g : Game) (v : Vars) : result (Vars * list Z) :=
  match compile_frames g v with
  | Return (v, frames) => Return (v, concatFrames frames)
  | Throw e => Throw e
  end.

(** The sections that a list of ids names, in its order; an id without
    a section is passed over. *)
Definition found_sections (g : Game) (flow : list string) : list SectionT :=
  flat_map (fun i => match map_get (sections g) i with
                     | Some s => [s]
                     | None => []
                     end) flow.

(** The sections of the flow that exist, in flow order. *)
Definition flow_sections (g : Game) : list SectionT :=
  found_sections g (_flow g).

(** The sections of the table that the flow does not name, in table
    order. *)
Definition remaining_sections (g : Game) : list SectionT :=
  map snd (filter (fun entry => negb (set_has String.eqb (_flow g)
                                              (fst entry)))
                  (sections g)).

(** The frames of a list of sections, compiled one after the other. *)
Fixpoint emit_sections (ss : list SectionT) (v : Vars)
  : Vars * list (list Z) :=
  match ss with
  | [] => (v, [])
  | s :: rest =>
      let (v, fs) := compileSectionFrames s v in
      let (v, more) := emit_sections rest v in
      (v, fs ++ more)
  end.

End Compiler.

Arguments id {Vars} _.
Arguments feedMode {Vars} _.
Arguments speed {Vars} _.
Arguments blocks {Vars} _.
Arguments _onLine {Vars} _.
Arguments _onEnter {Vars} _.
Arguments _onExit {Vars} _.
Arguments _endCondition {Vars} _.
Arguments maxLines {Vars} _.
Arguments sections {Vars} _.
Arguments _flow {Vars} _.
Arguments sprites {Vars} _.
Arguments run_hook {Vars} _ _ _.
Arguments dyn_loop {Vars} _ _ _ _ _ _ _.
Arguments runDynamic {Vars} _ _ _.
Arguments compileSectionFrames {Vars} _ _.
Arguments collect_labels {Vars} _.
Arguments collect_errors {Vars} _ _.
Arguments validateLabels {Vars} _.
Arguments hasBranchingCommands {Vars} _.
Arguments compile_flow_all {Vars} _ _ _ _ _.
Arguments compile_remaining {Vars} _ _ _ _.
Arguments compile_flow_only {Vars} _ _ _ _.
Arguments sprite_frames {Vars} _.
Arguments compile_frames {Vars} _ _.
Arguments compile {Vars} _ _.
Arguments found_sections {Vars} _ _.
Arguments flow_sections {Vars} _.
Arguments remaining_sections {Vars} _.
Arguments emit_sections {Vars} _ _.

(** The command byte of a frame. *)
Definition frame_cmd (f : list Z) : Z := nth 1 f 0.

(** The byte values, for checks by enumeration. *)
Definition all_bytes : list Z := map Z.of_nat (seq 0 256).

(** One byte clocked into the register of the specification's CRC. *)
Definition spec_crc_step (reg b : Z) : Z :=
  fold_left (CrcSpec.clock 0x07) (CrcSpec.bits_msb_first b) reg.

(** A payload of 65536 zero bytes: one more than a 16-bit length holds. *)
Definition oversized_payload : list Z := repeat 0 (Z.to_nat 65536).

(** ** Reading a run-length form

    The expansion of a sequence of (count, value) byte pairs: every pair is
    replaced by [count] copies of [value], in order. *)
Fixpoint rle_expand (rle : list Z) : list Z :=
  match rle with
  | count :: val :: rest => repeat val (Z.to_nat count) ++ rle_expand rest
  | _ => []
  end.

(** The counts of the pairs, in order. *)
Fixpoint rle_counts (rle : list Z) : list Z :=
  match rle with
  | count :: _ :: rest => count :: rle_counts rest
  | _ => []
  end.

Definition sum_Z (l : list Z) : Z := fold_right Z.add 0 l.

(** A line of one repeated byte, and a line of two alternating bytes. *)
Definition solid_line : list Z := repeat 0xFF 72.
Definition striped_line : list Z := concat (repeat [0xAA; 0x55] 36).

(** The font byte of a TEXT frame: payload offset 4, after the four header
    bytes. *)
Definition text_frame_font (f : list Z) : Z := nth 8 f 0.

(** [{ size: sz }] as options of [Section.text]. *)
Definition size_opts (sz : Q) : TextOpts := {| size := Some sz; font := None |}.

(** The string "OK". *)
Definition str_OK : Js.str := [0x4F; 0x4B].

(** The string of the one ideograph U+6F22. *)
Definition str_kan : Js.str := [0x6F22].

(** A frame that is neither of the two program markers. *)
Definition not_marker (f : list Z) : Prop :=
  frame_cmd f <> PGP.CMD.PROGRAM_START /\ frame_cmd f <> PGP.CMD.PROGRAM_END.

(** The label ids that step 2 of [_validateLabels] looks up for a block. *)
Definition checked_refs (b : block) : list Z :=
  match b with
  | Jump labelId | JumpIfBtn _ labelId | JumpIfVar _ _ _ labelId => [labelId]
  | RandomJump labelIds => labelIds
  | _ => []
  end.

(** The label ids a branch-type block refers to. *)
Definition branch_refs (b : block) : list Z :=
  match b with
  | Jump labelId | JumpIfBtn _ labelId | JumpIfVar _ _ _ labelId
  | JumpIfFader _ _ labelId => [labelId]
  | RandomJump labelIds => labelIds
  | _ => []
  end.

(** ** Sample programs *)

(** [new Section(id)] with the defaults of the constructor, holding the
    given blocks. *)
Definition static_section (name : string) (bs : list block) : SectionT unit :=
  {| id := name; feedMode := "auto"; speed := 10000; blocks := bs;
     _onLine := None; _onEnter := None; _onExit := None;
     _endCondition := None; maxLines := 2000 |}.

(** [new Section(id, { maxLines: n }).onLine(f)]. *)
Definition dynamic_section (name : string) (n : Z) (f : callback unit)
  : SectionT unit :=
  {| id := name; feedMode := "auto"; speed := 10000; blocks := [];
     _onLine := Some f; _onEnter := None; _onExit := None;
     _endCondition := None; maxLines := n |}.

(** One section whose only branch refers to label 7; no label anywhere. *)
Definition fader_game : Game unit :=
  {| sections := [("main"%string,
                   static_section "main" [JumpIfFader 4 2000 7; Feed 10])];
     _flow := ["main"%string];
     sprites := [] |}.

(** Two sections, the second outside the flow and reached by a jump. *)
Definition branching_game : Game unit :=
  {| sections := [("intro"%string, static_section "intro" [Feed 10; Jump 1]);
                  ("hidden"%string, static_section "hidden" [Label 1; Feed 5])];
     _flow := ["intro"%string];
     sprites := [] |}.

(** The same without the branching blocks. *)
Definition plain_game : Game unit :=
  {| sections := [("intro"%string, static_section "intro" [Feed 10]);
                  ("hidden"%string, static_section "hidden" [Feed 5])];
     _flow := ["intro"%string];
     sprites := [] |}.

(** Two jumps and a random jump to labels 7, 8 and 9, of which only 8 is
    defined. *)
Definition dangling_game : Game unit :=
  {| sections := [("a"%string, static_section "a" [Jump 7; Label 8]);
                  ("b"%string,
                   static_section "b" [RandomJump [8; 9]; JumpIfVar 0 0 1 7])];
     _flow := ["a"%string];
     sprites := [] |}.

(** A generator that sets the first pixel of every line, and the same
    generator asking for 5000 pps on every line. *)
Definition steady_line : callback unit :=
  fun v c => (v, pixel 0 true c).
Definition speedy_line : callback unit :=
  fun v c => (v, setSpeed 5000 (pixel 0 true c)).

Definition dynamic_game (f : callback unit) : Game unit :=
  {| sections := [("wave"%string, dynamic_section "wave" 2 f)];
     _flow := ["wave"%string];
     sprites := [] |}.

(** The frames [_compileSectionFrames] pushes before the content of a
    section: SET_MODE when the looked-up mode is not 0, then SET_SPEED when
    the feed mode is auto or the looked-up mode is 0. *)
Definition section_header {Vars} (s : SectionT Vars) : list (list Z) :=
  let mode := feed_mode_code (feedMode s) in
  (if negb (mode_is_zero mode) then [PGP.setMode (mode_element mode)] else [])
    ++ (if String.eqb (feedMode s) "auto" || mode_is_zero mode
        then [PGP.setSpeed (speed s)] else []).

(** A generator that ends every line with [ctx.setSpeed(pps)]. *)
Definition with_speed {Vars} (pps : Z) (f : callback Vars) : callback Vars :=
  fun v c => let (v', c') := f v c in (v', setSpeed pps c').

(** A context with its [_speed] field blanked. *)
Definition forget_speed (c : LineContext) : LineContext :=
  {| line := line c; ctx_maxLines := ctx_maxLines c; _buf := _buf c;
     _done := _done c; _goto := _goto c; _speed := None |}.

(** The line both sample generators draw. *)
Definition first_pixel_line : list Z := 0x80 :: repeat 0 71.

(** Membership of a block in the control-flow subset, by its kind. *)
Definition control_flow_block (b : block) : bool :=
  match b with
  | Label _ | Jump _ | JumpIfBtn _ _ | RandomJump _ | SetVar _ _
  | JumpIfVar _ _ _ _ | JumpIfFader _ _ _ | WaitFader _ _ | SetFeedMode _ =>
      true
  | _ => false
  end.

(** The table and flow update of [Game.section(id, opts)], for the section
    object [s] it creates. *)
Definition Game_section {Vars} (s : SectionT Vars) (g : Game Vars)
  : Game Vars :=
  {| sections := map_set (id s) s (sections g);
     _flow := if set_has String.eqb (_flow g) (id s)
              then _flow g else _flow g ++ [id s];
     sprites := sprites g |}.

(** [Game.setFlow(...ids)]. *)
Definition Game_setFlow {Vars} (ids : list string) (g : Game Vars)
  : Game Vars :=
  {| sections := sections g; _flow := ids; sprites := sprites g |}.

(** ** Further parts of the SDK *)

(** [PGP.sync(seq)]. *)
Definition sync_payload (seq : Z) : list Z :=
  let p := U8.make 4 in
  let p := U8.store 0 (Z.land seq 0xFF) p in
  let p := U8.store 1 (Z.land (Z.shiftr seq 8) 0xFF) p in
  let p := U8.store 2 (Z.land (Z.shiftr seq 16) 0xFF) p in
  U8.store 3 (Z.land (Z.shiftr seq 24) 0xFF) p.

Definition PGP_sync (seq : Z) : list Z := PGP.frame PGP.CMD.SYNC (sync_payload seq).

(** The loop of [_concatFrames]: [out.set(f, off); off += f.length]. *)
Fixpoint concat_loop (frames : list (list Z)) (off : nat) (out : list Z)
  : list Z :=
  match frames with
  | [] => out
  | f :: rest => concat_loop rest (off + length f) (U8.set_from f off out)
  end.

(** [_concatFrames(frames)], statement by statement. *)
Definition concatFrames_loop (frames : list (list Z)) : list Z :=
  let total := fold_left (fun s f => (s + length f)%nat) frames 0%nat in
  let out := U8.make total in
  concat_loop frames 0 out.

(** A reader for the byte stream [compile] returns: it takes frames off
    the front, each a sync byte 0xE0, a command byte, the payload length low
    and high, that many payload bytes and a checksum byte, which it checks
    with [crc8]; it gives the commands and payloads, or nothing if the
    stream is not a sequence of such frames.  [fuel] bounds the number of
    frames. *)
Fixpoint read_frames (fuel : nat) (stream : list Z)
  : option (list (Z * list Z)) :=
  match stream with
  | [] => Some []
  | sync :: cmd :: lo :: hi :: rest =>
      match fuel with
      | O => None
      | S fuel' =>
          let len := Z.to_nat (lo + 256 * hi) in
          if sync =? PGP.SYNC then
            match skipn len rest with
            | crc :: rest' =>
                if crc =? PGP.crc8 (cmd :: lo :: hi :: firstn len rest)
                then option_map (cons (cmd, firstn len rest))
                                (read_frames fuel' rest')
                else None
            | [] => None
            end
          else None
      end
  | _ => None
  end.

(** A command byte with a payload of bytes that fits the length field. *)
Definition frame_input (cp : Z * list Z) : Prop :=
  0 <= fst cp < 256 /\ U8.bytes (snd cp) /\ Z.of_nat (length (snd cp)) <= 65535.

Definition frame_of (cp : Z * list Z) : list Z := PGP.frame (fst cp) (snd cp).

(** In a run-length form, a run ends only where the value changes or the
    count has reached 255. *)
Fixpoint runs_maximal (rle : list Z) : Prop :=
  match rle with
  | c1 :: v1 :: rest =>
      match rest with
      | _ :: v2 :: _ => (v1 <> v2 \/ c1 = 255) /\ runs_maximal rest
      | _ => True
      end
  | _ => True
  end.

(** In a run-length form, neighbouring runs carry different values. *)
Fixpoint runs_differ (rle : list Z) : Prop :=
  match rle with
  | _ :: v1 :: rest =>
      match rest with
      | _ :: v2 :: _ => v1 <> v2 /\ runs_differ rest
      | _ => True
      end
  | _ => True
  end.

Definition FONT_HEIGHTS : list Z := [9; 16; 18; 34].
Definition FONT_CHAR_W : list Z := [6; 12; 9; 18].
Definition BASE_FONT_W : list Z := [5; 8; 8].

(** [array[i]] for an integer [i]; [None] is [undefined]. *)
Definition array_get (l : list Z) (i : Z) : option Z :=
  if i <? 0 then None else nth_error l (Z.to_nat i).

(** [getFontHeight(baseFont, scale)]; [None] is the [NaN] of an unknown
    base font. *)
Definition getFontHeight (baseFont scale : Z) : option Z :=
  option_map (fun px => px * scale + 2) (array_get BASE_FONT_PX baseFont).

(** [getFontCharW(baseFont, scale)]. *)
Definition getFontCharW (baseFont scale : Z) : option Z :=
  option_map (fun w => (w + 1) * scale) (array_get BASE_FONT_W baseFont).

(** The pair a legacy font index stands for, as [Section.text] derives it:
    [baseFont = f < 2 ? 0 : 1; scale = (f === 1 || f === 3) ? 2 : 1]. *)
Definition legacy_font (f : Z) : Z * Z :=
  (if f <? 2 then 0 else 1, if (f =? 1) || (f =? 3) then 2 else 1).

(** Reading a font byte, after the comment on [encodeFontByte]: below 4 a
    legacy index, from 4 on the base font in bits 0-1 and the scale in
    bits 2-7. *)
Definition decodeFontByte (b : Z) : Z * Z :=
  if b <? 4 then legacy_font b else (Z.land b 0x03, Z.shiftr b 2).

(** [{ font: f }] as options of [Section.text]. *)
Definition font_opts (f : Z) : TextOpts := {| size := None; font := Some f |}.

(** The integers from [lo] up to [lo + n - 1]. *)
Definition Z_range (lo : Z) (n : nat) : list Z :=
  map (fun k => lo + Z.of_nat k) (seq 0 n).

(** The pixel test of [Game.preview] and [_renderStatic]:
    [(row[x >> 3] >> (7 - (x & 7))) & 1], for a column [x >= 0]. *)
Definition row_bit (row : list Z) (x : Z) : Z :=
  Z.land (Z.shiftr (nth (Z.to_nat (Z.shiftr x 3)) row 0) (7 - Z.land x 7)) 1.

(** The eight offsets of a bit in a byte. *)
Definition bit_offsets : list Z := Z_range 0 8.

(** [array[i] < 128] on a [Float32Array] of grey levels, whose elements are
    rationals; past the end the element is [undefined] and the test
    fails. *)
Definition below_128 (dithered : list Q) (i : Z) : bool :=
  if i <? 0 then false
  else match nth_error dithered (Z.to_nat i) with
       | Some g => Js.ltb g (inject_Z 128)
       | None => false
       end.

(** The inner loop of [packToRows] for row [y]:
    [for (x = 0; x < width && x < WIDTH; x++)
       if (dithered[y * width + x] < 128) row[x >> 3] |= (1 << (7 - (x & 7)))]. *)
Definition packRow (dithered : list Q) (width y : Z) : list Z :=
  let columns := Z_range 0 (Z.to_nat (Z.min width WIDTH)) in
  U8.modify_all
    (map set_bit (filter (fun x => below_128 dithered (y * width + x)) columns))
    (U8.make BPL).

(** [packToRows(dithered, width, height)]. *)
Definition packToRows (dithered : list Q) (width height : Z) : list (list Z) :=
  map (packRow dithered width) (Z_range 0 (Z.to_nat height)).

(** A generator that only draws: it paints the zeroed buffer as a function
    of the line index and touches nothing else. *)
Definition painter {Vars} (paint : Z -> list Z -> list Z) : callback Vars :=
  fun v c => (v, with_buf (paint (line c) (_buf c)) c).

(** A generator that draws and calls [done()] on line [k]:
    [if (ctx.line === k) ctx.done()]. *)
Definition painter_until {Vars} (k : Z) (paint : Z -> list Z -> list Z)
  : callback Vars :=
  fun v c =>
    let c := with_buf (paint (line c) (_buf c)) c in
    (v, if line c =? k then done c else c).

(** A diagonal: line [i] has pixel [i] set. *)
Definition diagonal (i : Z) (buf : list Z) : list Z :=
  U8.modify_all (pixel_ops (inject_Z i) true) buf.

(** A section with only a generator and a line limit. *)
Definition generator_section {Vars} (name : string) (n : Z) (f : callback Vars)
  : SectionT Vars :=
  {| id := name; feedMode := "auto"; speed := 10000; blocks := [];
     _onLine := Some f; _onEnter := None; _onExit := None;
     _endCondition := None; maxLines := n |}.

(** A generator section that also holds a label block, and a static section
    that jumps to it. *)
Definition label_in_generator_game : Game unit :=
  {| sections :=
       [("start"%string, static_section "start" [Jump 1]);
        ("wave"%string,
         {| id := "wave"; feedMode := "auto"; speed := 10000;
            blocks := [Label 1];
            _onLine := Some steady_line; _onEnter := None; _onExit := None;
            _endCondition := None; maxLines := 1 |})];
     _flow := ["start"%string; "wave"%string];
     sprites := [] |}.

(** ** Printer: the serial connection

    The writer of the port is the sequence of chunks it was given, oldest
    first; there is none while the printer is not connected.  Writes are
    taken to succeed. *)
Record Printer := { _writer : option (list (list Z)) }.

(** The getter [connected]: [!!this._writer]. *)
Definition connected (p : Printer) : bool :=
  match _writer p with Some _ => true | None => false end.

(** What a send leaves behind: the printer after the writes, or the
    [ConnectionError] thrown before any. *)
Inductive sent : Type :=
| Sent (p : Printer)
| ConnectionErrorThrown.

(** [disconnect()], as far as the writer goes. *)
Definition disconnect (p : Printer) : Printer := {| _writer := None |}.

(** [send(data)]. *)
Definition send (data : list Z) (p : Printer) : sent :=
  match _writer p with
  | None => ConnectionErrorThrown
  | Some written => Sent {| _writer := Some (written ++ [U8.of_array data]) |}
  end.

Definition CHUNK : Z := 4096.

(** The loop of [sendChunked]:
    [for (i = 0; i < data.length; i += CHUNK)
       write(data.slice(i, Math.min(i + CHUNK, data.length)))];
    every turn advances [i], so [length data] turns are enough ([None]: not
    enough turns). *)
Fixpoint chunk_loop (turns : nat) (data : list Z) (i : Z)
    (written : list (list Z)) : option (list (list Z)) :=
  if Z.of_nat (length data) <=? i then Some written
  else
    match turns with
    | O => None
    | S turns' =>
        let e := Z.min (i + CHUNK) (Z.of_nat (length data)) in
        chunk_loop turns' data (i + CHUNK)
                   (written ++ [U8.slice (Z.to_nat i) (Z.to_nat e) data])
    end.

(** [sendChunked(data)], for a [Uint8Array]. *)
Definition sendChunked (data : list Z) (p : Printer) : option sent :=
  match _writer p with
  | None => Some ConnectionErrorThrown
  | Some written =>
      option_map (fun w => Sent {| _writer := Some w |})
                 (chunk_loop (length data) data 0 written)
  end.

(** All chunks but the last are full. *)
Fixpoint full_but_last (chunks : list (list Z)) : Prop :=
  match chunks with
  | ch :: rest =>
      match rest with
      | _ :: _ => Z.of_nat (length ch) = CHUNK /\ full_but_last rest
      | [] => True
      end
  | [] => True
  end.

(** [Section.jumpIfBtn(buttonMaskOrLabelId, labelId = null)]: the block it
    pushes. *)
Definition Section_jumpIfBtn (buttonMaskOrLabelId : Z) (labelId : option Z)
  : block :=
  match labelId with
  | None => JumpIfBtn BTN.ANY buttonMaskOrLabelId
  | Some l => JumpIfBtn buttonMaskOrLabelId l
  end.

(** The options of [Game.section] and of the [Section] constructor; an
    absent key is [None]. *)
Record SectionOpts := {
  opt_feedMode : option string;
  opt_speed : option Z;
  opt_maxLines : option Z
}.

(** [value || fallback] on a string and on a number. *)
Definition or_string (value : option string) (fallback : string) : string :=
  match value with
  | Some s => if String.eqb s "" then fallback else s
  | None => fallback
  end.

Definition or_number (value : option Z) (fallback : Z) : Z :=
  match value with
  | Some n => if n =? 0 then fallback else n
  | None => fallback
  end.

(** [new Section(id, opts)]. *)
Definition new_Section {Vars} (name : string) (opts : SectionOpts)
  : SectionT Vars :=
  {| id := name;
     feedMode := or_string (opt_feedMode opts) "auto";
     speed := or_number (opt_speed opts) 10000;
     blocks := [];
     _onLine := None; _onEnter := None; _onExit := None;
     _endCondition := None;
     maxLines := or_number (opt_maxLines opts) 2000 |}.

(** [{ feedMode: defaultFeedMode, speed: defaultSpeed, ...opts }]. *)
Definition merge_defaults (defaultFeedMode : string) (defaultSpeed : Z)
    (opts : SectionOpts) : SectionOpts :=
  {| opt_feedMode := match opt_feedMode opts with
                     | Some m => Some m
                     | None => Some defaultFeedMode
                     end;
     opt_speed := match opt_speed opts with
                  | Some sp => Some sp
                  | None => Some defaultSpeed
                  end;
     opt_maxLines := opt_maxLines opts |}.

(** [Game.section(id, opts)] on a game whose defaults are
    [defaultFeedMode] and [defaultSpeed]: the game afterwards. *)
Definition Game_section_new {Vars} (defaultFeedMode : string)
    (defaultSpeed : Z) (name : string) (opts : SectionOpts) (g : Game Vars)
  : Game Vars :=
  Game_section
    (new_Section name (merge_defaults defaultFeedMode defaultSpeed opts)) g.

(** * Verification *)

(** ** Facts about typed arrays *)

Lemma wrap_byte v : 0 <= v < 256 -> U8.wrap v = v.
Proof. intros H. unfold U8.wrap. apply Z.mod_small; exact H. Qed.

Lemma wrap_range v : 0 <= U8.wrap v < 256.
Proof. unfold U8.wrap. apply Z.mod_pos_bound. lia. Qed.

Lemma of_array_bytes a : U8.bytes a -> U8.of_array a = a.
Proof.
  unfold U8.bytes, U8.of_array. induction 1 as [|v t Hv _ IH]; simpl.
  - reflexivity.
  - rewrite wrap_byte by exact Hv. now rewrite IH.
Qed.

Lemma of_array_is_bytes l : U8.bytes (U8.of_array l).
Proof.
  unfold U8.bytes, U8.of_array. induction l; simpl; constructor.
  - apply wrap_range.
  - assumption.
Qed.

Lemma of_array_length l : length (U8.of_array l) = length l.
Proof. apply length_map. Qed.

Lemma of_array_idem l : U8.of_array (U8.of_array l) = U8.of_array l.
Proof. apply of_array_bytes, of_array_is_bytes. Qed.

Lemma overwrite_exact src rest :
  U8.overwrite src (repeat 0 (length src) ++ rest) = U8.of_array src ++ rest.
Proof.
  induction src as [|s ss IH]; simpl.
  - reflexivity.
  - now rewrite IH.
Qed.

Lemma store_at_end pre v old rest :
  U8.store (length pre) v (pre ++ old :: rest) = pre ++ U8.wrap v :: rest.
Proof.
  induction pre as [|p pre IH]; simpl.
  - reflexivity.
  - now rewrite IH.
Qed.

Lemma store_length i v a : length (U8.store i v a) = length a.
Proof.
  revert i. induction a as [|h t IH]; intros [|i]; simpl; auto.
Qed.

Lemma land_255_range v : 0 <= Z.land v 0xFF < 256.
Proof.
  change 0xFF with (Z.ones 8). rewrite Z.land_ones by lia.
  apply Z.mod_pos_bound. lia.
Qed.

Lemma wrap_land_255 v : U8.wrap (Z.land v 0xFF) = Z.land v 0xFF.
Proof. apply wrap_byte, land_255_range. Qed.

(** ** The frame layout *)

(** What [frame] builds, for any command number and payload. *)
Lemma frame_layout cmd payload :
  let lo := Z.land (Z.of_nat (length payload)) 0xFF in
  let hi := Z.land (Z.shiftr (Z.of_nat (length payload)) 8) 0xFF in
  PGP.frame cmd payload =
    [PGP.SYNC; U8.wrap cmd; lo; hi] ++ U8.of_array payload
      ++ [U8.wrap (PGP.crc8 ([U8.wrap cmd; lo; hi] ++ U8.of_array payload))].
Proof.
  intros lo hi. unfold PGP.frame. cbv zeta. fold lo hi.
  set (len := length payload).
  assert (Hset : (if (0 <? len)%nat
                  then U8.set_from payload 4
                         (U8.store 3 hi (U8.store 2 lo (U8.store 1 cmd
                           (U8.store 0 PGP.SYNC (U8.make (5 + len))))))
                  else U8.store 3 hi (U8.store 2 lo (U8.store 1 cmd
                           (U8.store 0 PGP.SYNC (U8.make (5 + len))))))
                 = ([PGP.SYNC; U8.wrap cmd; lo; hi] ++ U8.of_array payload)
                     ++ [0]).
  { unfold U8.make. cbn [Nat.add repeat U8.store].
    unfold lo at 1, hi at 1. rewrite !wrap_land_255. fold lo hi.
    change (U8.wrap PGP.SYNC) with PGP.SYNC.
    destruct (0 <? len)%nat eqn:E.
    - cbn [U8.set_from]. rewrite repeat_cons. unfold len.
      rewrite overwrite_exact. reflexivity.
    - apply Nat.ltb_ge in E. assert (len = 0)%nat as E0 by lia.
      unfold len in E0. apply length_zero_iff_nil in E0. subst payload.
      reflexivity. }
  rewrite Hset.
  assert (Hlen : (4 + len)%nat
                 = length ([PGP.SYNC; U8.wrap cmd; lo; hi]
                             ++ U8.of_array payload)).
  { rewrite length_app, of_array_length. reflexivity. }
  assert (Hslice : U8.slice 1 (4 + len)
                     (([PGP.SYNC; U8.wrap cmd; lo; hi] ++ U8.of_array payload)
                        ++ [0])
                   = [U8.wrap cmd; lo; hi] ++ U8.of_array payload).
  { unfold U8.slice. cbn [app skipn].
    replace (4 + len - 1)%nat
      with (length ([U8.wrap cmd; lo; hi] ++ U8.of_array payload) + 0)%nat
      by (rewrite length_app, of_array_length; cbn [length]; unfold len; lia).
    change (U8.wrap cmd :: lo :: hi :: (U8.of_array payload) ++ [0])
      with (([U8.wrap cmd; lo; hi] ++ U8.of_array payload) ++ [0]).
    rewrite firstn_app_2. cbn [firstn]. now rewrite app_nil_r. }
  rewrite Hslice. rewrite Hlen at 1. rewrite store_at_end.
  rewrite <- app_assoc. reflexivity.
Qed.

(** ** The checksum *)

Lemma in_all_bytes v : 0 <= v < 256 -> In v all_bytes.
Proof.
  intros H. unfold all_bytes. rewrite <- (Z2Nat.id v) by lia.
  apply in_map, in_seq. lia.
Qed.

(** On a register and a byte of eight bits each, the loop body of [crc8]
    and the shift register of the specification agree (by enumeration). *)
Lemma crc8_step_table :
  forallb (fun c => forallb (fun b => PGP.crc8_step c b =? spec_crc_step c b)
                            all_bytes) all_bytes = true.
Proof. vm_compute. reflexivity. Qed.

Lemma crc8_step_spec c b :
  0 <= c < 256 -> 0 <= b < 256 -> PGP.crc8_step c b = spec_crc_step c b.
Proof.
  intros Hc Hb. pose proof crc8_step_table as T.
  rewrite forallb_forall in T. specialize (T c (in_all_bytes c Hc)).
  rewrite forallb_forall in T. specialize (T b (in_all_bytes b Hb)).
  now apply Z.eqb_eq.
Qed.

Lemma crc8_step_range c b : 0 <= PGP.crc8_step c b < 256.
Proof. unfold PGP.crc8_step. apply land_255_range. Qed.

Lemma crc8_fold_range data c :
  0 <= c < 256 -> 0 <= fold_left PGP.crc8_step data c < 256.
Proof.
  revert c. induction data as [|b t IH]; intros c Hc; simpl.
  - exact Hc.
  - apply IH, crc8_step_range.
Qed.

Lemma crc8_range data : 0 <= PGP.crc8 data < 256.
Proof. unfold PGP.crc8. apply crc8_fold_range. lia. Qed.

Lemma crc8_fold_spec data c :
  0 <= c < 256 -> U8.bytes data ->
  fold_left PGP.crc8_step data c = fold_left spec_crc_step data c.
Proof.
  intros Hc Hd. revert c Hc.
  induction Hd as [|b t Hb _ IH]; intros c Hc; simpl.
  - reflexivity.
  - rewrite <- (crc8_step_spec c b Hc Hb). apply IH, crc8_step_range.
Qed.

(** [crc8] computes the CRC-8 of the specification on byte sequences. *)
Lemma crc8_is_spec data : U8.bytes data -> PGP.crc8 data = CrcSpec.crc8_07 data.
Proof.
  intros Hd. unfold PGP.crc8, CrcSpec.crc8_07, CrcSpec.crc.
  rewrite Z.lxor_0_r. apply crc8_fold_spec; [lia | exact Hd].
Qed.

Lemma length_field_lo n : Z.land n 0xFF = n mod 256.
Proof. change 0xFF with (Z.ones 8). now rewrite Z.land_ones by lia. Qed.

Lemma length_field_hi n : Z.land (Z.shiftr n 8) 0xFF = (n / 256) mod 256.
Proof.
  change 0xFF with (Z.ones 8). rewrite Z.land_ones by lia.
  now rewrite Z.shiftr_div_pow2 by lia.
Qed.

(** C3. For a command byte [c] and a payload [p] of at most 65535 bytes,
    [frame c p] is the sync byte 0xE0, [c], the length low byte, the length
    high byte, [p], and one checksum byte.  That byte is the CRC-8
    (polynomial 0x07, initial value 0, most significant bit first, no final
    XOR) of the command byte, the two length bytes and the payload, and
    [crc8] recomputed over that region of the produced frame gives it back. *)
Theorem frame_checksum_consistent (c : Z) (p : list Z) :
  0 <= c < 256 -> U8.bytes p -> Z.of_nat (length p) <= 65535 ->
  let len := Z.of_nat (length p) in
  let lo := len mod 256 in
  let hi := len / 256 in
  let f := PGP.frame c p in
  f = [0xE0; c; lo; hi] ++ p ++ [CrcSpec.crc8_07 ([c; lo; hi] ++ p)]
  /\ 0 <= hi < 256 /\ lo + 256 * hi = len
  /\ length f = (5 + length p)%nat
  /\ nth (4 + length p) f 0 = PGP.crc8 (U8.slice 1 (4 + length p) f).
Proof.
  intros Hc Hp Hlen len lo hi f.
  assert (Hhi : 0 <= hi < 256).
  { unfold hi, len. split.
    - apply Z.div_pos; lia.
    - apply Z.div_lt_upper_bound; lia. }
  assert (Hlo : 0 <= lo < 256) by (unfold lo; apply Z.mod_pos_bound; lia).
  assert (Hbody : U8.bytes ([c; lo; hi] ++ p)).
  { unfold U8.bytes. repeat constructor; try lia; exact Hp. }
  assert (Hf : f = [0xE0; c; lo; hi] ++ p
                     ++ [PGP.crc8 ([c; lo; hi] ++ p)]).
  { unfold f. rewrite frame_layout.
    rewrite length_field_hi, length_field_lo.
    fold len. fold lo. fold hi. rewrite (Z.mod_small hi) by exact Hhi.
    rewrite (wrap_byte c Hc), (of_array_bytes p Hp).
    rewrite wrap_byte by apply crc8_range. reflexivity. }
  split; [|split; [|split; [|split]]].
  - rewrite Hf. now rewrite crc8_is_spec.
  - exact Hhi.
  - unfold lo, hi. pose proof (Z.div_mod len 256). lia.
  - rewrite Hf. cbn [app length]. rewrite length_app. cbn [length]. lia.
  - rewrite Hf.
    change ([224; c; lo; hi] ++ p ++ [PGP.crc8 ([c; lo; hi] ++ p)])
      with ([224] ++ ([c; lo; hi] ++ p) ++ [PGP.crc8 ([c; lo; hi] ++ p)]).
    set (body := [c; lo; hi] ++ p).
    assert (Hb : length body = (3 + length p)%nat)
      by (unfold body; rewrite length_app; reflexivity).
    unfold U8.slice. cbn [app skipn].
    replace (4 + length p - 1)%nat with (length body + 0)%nat by lia.
    rewrite firstn_app_2. cbn [firstn]. rewrite app_nil_r.
    replace (4 + length p)%nat with (S (length body)) by lia.
    cbn [nth]. rewrite app_nth2 by lia.
    now rewrite Nat.sub_diag.
Qed.

(** The FEED(16) frame of the trailer is such a frame. *)
Lemma frame_checksum_consistent_witness :
  let f := PGP.frame 0x20 [16; 0] in
  f = [0xE0; 0x20; 2; 0] ++ [16; 0]
        ++ [CrcSpec.crc8_07 ([0x20; 2; 0] ++ [16; 0])]
  /\ 0 <= 0 < 256 /\ 2 + 256 * 0 = 2
  /\ length f = 7%nat
  /\ nth 6 f 0 = PGP.crc8 (U8.slice 1 6 f).
Proof.
  apply (frame_checksum_consistent 0x20 [16; 0]).
  - lia.
  - unfold U8.bytes. repeat constructor; lia.
  - simpl. lia.
Defined.

(** ** Payloads that do not fit the length field *)

Lemma oversized_payload_length : Z.of_nat (length oversized_payload) = 65536.
Proof.
  unfold oversized_payload. rewrite repeat_length. apply Z2Nat.id. lia.
Qed.

Lemma oversized_payload_bytes : U8.bytes oversized_payload.
Proof.
  unfold U8.bytes, oversized_payload. apply Forall_forall.
  intros v Hv. apply repeat_spec in Hv. lia.
Qed.

(** C9, as the code has it. [frame] makes no length check: for a payload of
    more than 65535 bytes it returns a frame all the same, of [5 + length]
    bytes, carrying the whole payload, whose length field holds the length
    modulo 65536 and so differs from the real length. *)
Theorem frame_oversized_wraps (c : Z) (p : list Z) :
  0 <= c < 256 -> U8.bytes p -> 65535 < Z.of_nat (length p) ->
  let len := Z.of_nat (length p) in
  let lo := len mod 256 in
  let hi := (len / 256) mod 256 in
  PGP.frame c p = [0xE0; c; lo; hi] ++ p ++ [CrcSpec.crc8_07 ([c; lo; hi] ++ p)]
  /\ lo + 256 * hi = len mod 65536
  /\ lo + 256 * hi <> len
  /\ length (PGP.frame c p) = (5 + length p)%nat.
Proof.
  intros Hc Hp Hlen len lo hi.
  assert (Hlo : 0 <= lo < 256) by (unfold lo; apply Z.mod_pos_bound; lia).
  assert (Hhi : 0 <= hi < 256) by (unfold hi; apply Z.mod_pos_bound; lia).
  assert (Hbody : U8.bytes ([c; lo; hi] ++ p)).
  { unfold U8.bytes. repeat constructor; try lia; exact Hp. }
  assert (Hf : PGP.frame c p
               = [0xE0; c; lo; hi] ++ p ++ [PGP.crc8 ([c; lo; hi] ++ p)]).
  { rewrite frame_layout. rewrite length_field_hi, length_field_lo.
    fold len. fold lo. fold hi.
    rewrite (wrap_byte c Hc), (of_array_bytes p Hp).
    rewrite wrap_byte by apply crc8_range. reflexivity. }
  assert (Hsum : lo + 256 * hi = len mod 65536).
  { unfold lo, hi. change 65536 with (256 * 256).
    rewrite Z.rem_mul_r by lia. reflexivity. }
  split; [|split; [|split]].
  - rewrite Hf. now rewrite crc8_is_spec.
  - exact Hsum.
  - rewrite Hsum. pose proof (Z.mod_pos_bound len 65536). lia.
  - rewrite Hf. cbn [app length]. rewrite length_app. cbn [length]. lia.
Qed.

Lemma frame_oversized_wraps_witness :
  let p := oversized_payload in
  let len := Z.of_nat (length p) in
  let lo := len mod 256 in
  let hi := (len / 256) mod 256 in
  PGP.frame 1 p = [0xE0; 1; lo; hi] ++ p ++ [CrcSpec.crc8_07 ([1; lo; hi] ++ p)]
  /\ lo + 256 * hi = len mod 65536
  /\ lo + 256 * hi <> len
  /\ length (PGP.frame 1 p) = (5 + length p)%nat.
Proof.
  apply (frame_oversized_wraps 1 oversized_payload).
  - lia.
  - exact oversized_payload_bytes.
  - rewrite oversized_payload_length. lia.
Defined.

(** C9, refuted as stated: for a RAW_LINE command and a payload of 65536
    bytes, [frame] does not fail.  It returns a frame whose length field
    reads 0. *)
Lemma frame_oversized_not_rejected :
  65535 < Z.of_nat (length oversized_payload)
  /\ PGP.frame PGP.CMD.RAW_LINE oversized_payload
     = [0xE0; 0x01; 0; 0] ++ oversized_payload
         ++ [PGP.crc8 ([0x01; 0; 0] ++ oversized_payload)].
Proof.
  split.
  - rewrite oversized_payload_length. lia.
  - rewrite frame_layout. rewrite oversized_payload_length.
    rewrite (of_array_bytes _ oversized_payload_bytes).
    rewrite (wrap_byte (PGP.crc8 _)) by apply crc8_range. reflexivity.
Qed.

(** ** The line compressor *)

Lemma run_length_spec rest val :
  forall c, (1 <= c <= 255)%nat ->
  exists k, PGP.run_length rest val c = (c + k)%nat
            /\ (k <= length rest)%nat /\ (c + k <= 255)%nat
            /\ firstn k rest = repeat val k.
Proof.
  induction rest as [|b rest IH]; intros c Hc; simpl.
  - exists 0%nat. repeat split; lia.
  - destruct (b =? val) eqn:Eb; simpl.
    + destruct (c <? 255)%nat eqn:Ec.
      * apply Nat.ltb_lt in Ec. apply Z.eqb_eq in Eb. subst b.
        destruct (IH (S c)) as (k & Hk & Hlen & Hmax & Hrun); [lia|].
        exists (S k). repeat split; try lia.
        simpl. now rewrite Hrun.
      * exists 0%nat. repeat split; lia.
    + exists 0%nat. repeat split; lia.
Qed.

Lemma rle_loop_done turns arr i rle :
  (length arr <= i)%nat -> PGP.rle_loop turns arr i rle = Some rle.
Proof.
  intros H. apply Nat.leb_le in H. destruct turns; simpl; now rewrite H.
Qed.

Lemma rle_loop_turn turns arr i rle :
  (i < length arr)%nat ->
  PGP.rle_loop (S turns) arr i rle =
    PGP.rle_loop turns arr
      (i + PGP.run_length (skipn (S i) arr) (nth i arr 0) 1)
      (rle ++ [Z.of_nat (PGP.run_length (skipn (S i) arr) (nth i arr 0) 1);
               nth i arr 0]).
Proof.
  intros H. apply Nat.leb_gt in H. simpl. now rewrite H.
Qed.

Lemma skipn_nth_cons (arr : list Z) i :
  (i < length arr)%nat -> skipn i arr = nth i arr 0 :: skipn (S i) arr.
Proof.
  revert i. induction arr as [|a arr IH]; intros i H; simpl in H.
  - lia.
  - destruct i as [|i].
    + reflexivity.
    + change (skipn (S i) (a :: arr)) with (skipn i arr).
      change (nth (S i) (a :: arr) 0) with (nth i arr 0).
      change (skipn (S (S i)) (a :: arr)) with (skipn (S i) arr).
      apply IH. lia.
Qed.

Lemma bytes_nth arr i : U8.bytes arr -> 0 <= nth i arr 0 < 256.
Proof.
  intros H. destruct (Nat.lt_ge_cases i (length arr)) as [Hi|Hi].
  - unfold U8.bytes in H. rewrite Forall_forall in H.
    apply H, nth_In, Hi.
  - rewrite nth_overflow by exact Hi. lia.
Qed.

(** The outer loop, given enough turns, returns the pairs collected so far
    followed by an encoding of the bytes from [i] on. *)
Lemma rle_loop_correct turns :
  forall arr i rle,
    U8.bytes arr -> (i <= length arr)%nat -> (length arr - i <= turns)%nat ->
    exists enc,
      PGP.rle_loop turns arr i rle = Some (rle ++ enc)
      /\ rle_expand enc = skipn i arr
      /\ Forall (fun c => 1 <= c <= 255) (rle_counts enc)
      /\ U8.bytes enc
      /\ length enc = (2 * length (rle_counts enc))%nat.
Proof.
  induction turns as [|turns IH]; intros arr i rle Harr Hi Hturns.
  - exists []. rewrite rle_loop_done by lia. rewrite app_nil_r.
    rewrite skipn_all2 by lia. repeat split; constructor.
  - destruct (Nat.eq_dec i (length arr)) as [E|E].
    + exists []. rewrite rle_loop_done by lia. rewrite app_nil_r.
      rewrite skipn_all2 by lia. repeat split; constructor.
    + assert (Hlt : (i < length arr)%nat) by lia.
      rewrite rle_loop_turn by exact Hlt.
      set (val := nth i arr 0).
      destruct (run_length_spec (skipn (S i) arr) val 1%nat)
        as (k & Hk & Hklen & Hkmax & Hrun); [lia|].
      rewrite Hk. rewrite length_skipn in Hklen.
      destruct (IH arr (i + (1 + k))%nat (rle ++ [Z.of_nat (1 + k); val]))
        as (enc & Henc & Hexp & Hcounts & Hbytes & Hlen);
        [exact Harr | lia | lia |].
      exists ([Z.of_nat (1 + k); val] ++ enc).
      split; [|split; [|split; [|split]]].
      * rewrite Henc. now rewrite <- app_assoc.
      * cbn [app rle_expand]. rewrite Nat2Z.id, Hexp.
        rewrite (skipn_nth_cons arr i Hlt). fold val.
        cbn [Nat.add repeat app]. f_equal.
        rewrite <- (firstn_skipn k (skipn (S i) arr)) at 1.
        rewrite Hrun, skipn_skipn. f_equal. f_equal. lia.
      * cbn [app rle_counts]. constructor; [lia | exact Hcounts].
      * unfold U8.bytes. cbn [app]. constructor; [lia|].
        constructor; [apply bytes_nth, Harr | exact Hbytes].
      * cbn [app rle_counts length]. lia.
Qed.

Lemma rle_expand_length enc :
  Forall (fun c => 1 <= c <= 255) (rle_counts enc) ->
  length enc = (2 * length (rle_counts enc))%nat ->
  Z.of_nat (length (rle_expand enc)) = sum_Z (rle_counts enc).
Proof.
  revert enc. fix IH 1. intros [|c [|v rest]] Hc Hlen.
  - reflexivity.
  - simpl in Hlen. lia.
  - cbn [rle_counts] in Hc, Hlen. cbn [rle_expand rle_counts sum_Z fold_right].
    inversion Hc as [|? ? Hc1 Hc2]; subst.
    rewrite length_app, repeat_length, Nat2Z.inj_add, Z2Nat.id by lia.
    f_equal. apply IH; [exact Hc2|]. cbn [length] in Hlen. lia.
Qed.

(** What [rleEncode] returns on a line of 72 bytes. *)
Lemma rleEncode_line L :
  U8.bytes L -> length L = 72%nat ->
  exists rle,
    PGP.rleEncode L = Some rle
    /\ rle_expand rle = L
    /\ Forall (fun c => 1 <= c <= 255) (rle_counts rle)
    /\ U8.bytes rle
    /\ length rle = (2 * length (rle_counts rle))%nat.
Proof.
  intros HL Hlen. unfold PGP.rleEncode.
  rewrite (of_array_bytes L HL), Hlen. cbn [Nat.eqb negb].
  rewrite <- Hlen.
  destruct (rle_loop_correct (length L) L 0%nat [] HL)
    as (enc & Henc & Hexp & Hcounts & Hbytes & Hpairs); [lia | lia |].
  rewrite Henc. cbn [app]. rewrite (of_array_bytes enc Hbytes).
  exists enc. repeat split; assumption.
Qed.

(** C4. For every 72-byte raster line [L], [rleEncode L] returns a
    run-length form; expanding it, each (count, value) pair replaced by
    [count] copies of [value] in order, gives [L] back; every count lies
    between 1 and 255; and the counts add up to 72. *)
Theorem rle_roundtrip (L : list Z) :
  U8.bytes L -> length L = 72%nat ->
  exists rle,
    PGP.rleEncode L = Some rle
    /\ length rle = (2 * length (rle_counts rle))%nat
    /\ rle_expand rle = L
    /\ Forall (fun c => 1 <= c <= 255) (rle_counts rle)
    /\ sum_Z (rle_counts rle) = 72.
Proof.
  intros HL Hlen.
  destruct (rleEncode_line L HL Hlen)
    as (rle & Henc & Hexp & Hcounts & _ & Hpairs).
  exists rle. repeat split; try assumption.
  rewrite <- (rle_expand_length rle Hcounts Hpairs), Hexp, Hlen.
  reflexivity.
Qed.

(** A line with three runs: 10 bytes 0xFF, 2 bytes 0x0F, 60 bytes 0. *)
Lemma rle_roundtrip_witness :
  exists rle,
    PGP.rleEncode (repeat 255 10 ++ repeat 15 2 ++ repeat 0 60) = Some rle
    /\ length rle = (2 * length (rle_counts rle))%nat
    /\ rle_expand rle = repeat 255 10 ++ repeat 15 2 ++ repeat 0 60
    /\ Forall (fun c => 1 <= c <= 255) (rle_counts rle)
    /\ sum_Z (rle_counts rle) = 72.
Proof.
  apply (rle_roundtrip (repeat 255 10 ++ repeat 15 2 ++ repeat 0 60)).
  - unfold U8.bytes. simpl. repeat constructor; lia.
  - reflexivity.
Defined.

Lemma frame_cmd_frame cmd payload :
  frame_cmd (PGP.frame cmd payload) = U8.wrap cmd.
Proof. rewrite frame_layout. reflexivity. Qed.

Lemma rleEncode_wrong_width data :
  length data <> 72%nat -> PGP.rleEncode data = None.
Proof.
  intros H. unfold PGP.rleEncode. rewrite of_array_length.
  apply Nat.eqb_neq in H. now rewrite H.
Qed.

(** [rleEncode] returns [null] on the wrong widths and on nothing else. *)
Lemma rleEncode_null_iff data :
  PGP.rleEncode data = None <-> length data <> 72%nat.
Proof.
  split.
  - intros Hnone Hlen.
    destruct (rleEncode_line (U8.of_array data) (of_array_is_bytes data))
      as (rle & Henc & _); [now rewrite of_array_length|].
    unfold PGP.rleEncode in Henc, Hnone. rewrite of_array_idem in Henc.
    congruence.
  - apply rleEncode_wrong_width.
Qed.

(** C5. For a 72-byte line [L], [rawLineRle L] is a RAW_LINE_RLE frame
    exactly when the run-length form of [L] is shorter than 64 bytes, and
    then carries that form; otherwise it is the RAW_LINE frame carrying the
    72 bytes of [L].  For an input of any other length [rleEncode] returns
    no run-length form. *)
Theorem rawLineRle_policy :
  (forall L, U8.bytes L -> length L = 72%nat ->
     exists rle,
       PGP.rleEncode L = Some rle
       /\ ((length rle < 64)%nat
           <-> frame_cmd (PGP.rawLineRle L) = PGP.CMD.RAW_LINE_RLE)
       /\ ((length rle < 64)%nat ->
           PGP.rawLineRle L = PGP.frame PGP.CMD.RAW_LINE_RLE rle)
       /\ ((64 <= length rle)%nat ->
           PGP.rawLineRle L = PGP.frame PGP.CMD.RAW_LINE L))
  /\ (forall data, length data <> 72%nat -> PGP.rleEncode data = None).
Proof.
  split.
  - intros L HL Hlen.
    destruct (rleEncode_line L HL Hlen) as (rle & Henc & _).
    exists rle. split; [exact Henc|].
    unfold PGP.rawLineRle, PGP.rawLine. rewrite Henc.
    rewrite (of_array_bytes L HL).
    destruct (length rle <? 64)%nat eqn:E.
    + apply Nat.ltb_lt in E. split; [|split].
      * split; [intros _; apply frame_cmd_frame | intros _; exact E].
      * reflexivity.
      * lia.
    + apply Nat.ltb_ge in E. split; [|split].
      * split; [lia|]. rewrite frame_cmd_frame. intros H. discriminate H.
      * lia.
      * reflexivity.
  - exact rleEncode_wrong_width.
Qed.

Lemma rawLineRle_policy_witness :
  (exists rle,
     PGP.rleEncode solid_line = Some rle
     /\ ((length rle < 64)%nat
         <-> frame_cmd (PGP.rawLineRle solid_line) = PGP.CMD.RAW_LINE_RLE)
     /\ ((length rle < 64)%nat ->
         PGP.rawLineRle solid_line = PGP.frame PGP.CMD.RAW_LINE_RLE rle)
     /\ ((64 <= length rle)%nat ->
         PGP.rawLineRle solid_line = PGP.frame PGP.CMD.RAW_LINE solid_line))
  /\ PGP.rleEncode [1; 2; 3] = None.
Proof.
  split.
  - apply (proj1 rawLineRle_policy solid_line).
    + unfold U8.bytes, solid_line. simpl. repeat constructor; lia.
    + reflexivity.
  - apply (proj2 rawLineRle_policy [1; 2; 3]). simpl. lia.
Defined.

(** Both branches of the policy: a solid line compresses to one pair, a
    striped line to 72 pairs (144 bytes) and is sent raw. *)
Example rawLineRle_solid :
  PGP.rleEncode solid_line = Some [72; 0xFF]
  /\ PGP.rawLineRle solid_line = PGP.frame PGP.CMD.RAW_LINE_RLE [72; 0xFF].
Proof. split; reflexivity. Qed.

Example rawLineRle_striped :
  option_map (@length Z) (PGP.rleEncode striped_line) = Some 144%nat
  /\ PGP.rawLineRle striped_line = PGP.frame PGP.CMD.RAW_LINE striped_line.
Proof. split; reflexivity. Qed.

(** ** Byte order of the 16-bit fields *)

Lemma of_array_U16LE v : U8.of_array (PGP.writeU16LE v) = PGP.writeU16LE v.
Proof.
  apply of_array_bytes. unfold U8.bytes, PGP.writeU16LE.
  repeat constructor; apply land_255_range.
Qed.

Lemma of_array_U16BE v : U8.of_array (PGP.writeU16BE v) = PGP.writeU16BE v.
Proof.
  apply of_array_bytes. unfold U8.bytes, PGP.writeU16BE.
  repeat constructor; apply land_255_range.
Qed.

(** The bytes of [writeU16LE] and [writeU16BE] on a 16-bit value. *)
Lemma writeU16LE_bytes v :
  0 <= v < 65536 -> PGP.writeU16LE v = [v mod 256; v / 256].
Proof.
  intros H. unfold PGP.writeU16LE.
  rewrite length_field_hi, length_field_lo.
  rewrite (Z.mod_small (v / 256)); [reflexivity|].
  split; [apply Z.div_pos | apply Z.div_lt_upper_bound]; lia.
Qed.

Lemma writeU16BE_bytes v :
  0 <= v < 65536 -> PGP.writeU16BE v = [v / 256; v mod 256].
Proof.
  intros H. unfold PGP.writeU16BE.
  rewrite length_field_hi, length_field_lo.
  rewrite (Z.mod_small (v / 256)); [reflexivity|].
  split; [apply Z.div_pos | apply Z.div_lt_upper_bound]; lia.
Qed.

(** General and content commands: low byte first. *)
Lemma content_fields_little_endian :
  (forall pps, PGP.setSpeed pps
               = PGP.frame PGP.CMD.SET_SPEED (PGP.writeU16LE pps))
  /\ (forall us, PGP.setHeat us
                 = PGP.frame PGP.CMD.SET_HEAT (PGP.writeU16LE us))
  /\ (forall lines, PGP.feed lines
                    = PGP.frame PGP.CMD.FEED (PGP.writeU16LE lines))
  /\ (forall pattern count,
        PGP.fillLine pattern count
        = PGP.frame PGP.CMD.FILL_LINE
            (Z.land pattern 0xFF :: PGP.writeU16LE count))
  /\ (forall x y w h fill,
        PGP.rect_payload x y w h fill
        = PGP.writeU16LE x ++ PGP.writeU16LE y ++ PGP.writeU16LE w
            ++ PGP.writeU16LE h ++ [U8.wrap fill])
  /\ (forall id x y,
        PGP.spriteDraw_payload id x y
        = U8.wrap id :: PGP.writeU16LE x ++ PGP.writeU16LE y)
  /\ (forall x y font str,
        PGP.text_payload x y font str
        = PGP.writeU16LE x ++ PGP.writeU16LE y
            ++ [U8.wrap font; U8.wrap (Z.of_nat (length (Js.utf8_encode str)))]
            ++ U8.of_array (Js.utf8_encode str)).
Proof.
  repeat split; intros.
  - unfold PGP.setSpeed. now rewrite <- of_array_U16LE.
  - unfold PGP.setHeat. now rewrite <- of_array_U16LE.
  - unfold PGP.feed. now rewrite <- of_array_U16LE.
  - unfold PGP.fillLine, PGP.writeU16LE, U8.of_array. cbn [map].
    now rewrite !wrap_land_255.
  - unfold PGP.rect_payload, PGP.writeU16LE, U8.make.
    cbn [repeat U8.store app]. now rewrite !wrap_land_255.
  - unfold PGP.spriteDraw_payload, PGP.writeU16LE, U8.make.
    cbn [repeat U8.store app]. now rewrite !wrap_land_255.
  - unfold PGP.text_payload, PGP.writeU16LE, U8.make.
    cbn [Nat.add repeat U8.store U8.set_from app].
    rewrite !wrap_land_255.
    rewrite <- (app_nil_r (repeat 0 (length (Js.utf8_encode str)))).
    rewrite overwrite_exact. now rewrite app_nil_r.
Qed.

Lemma randomJump_fill_layout labelIds :
  forall i pre,
    length pre = S (i * 2) ->
    PGP.randomJump_fill labelIds i
      (pre ++ repeat 0 (length labelIds * 2))
    = pre ++ flat_map PGP.writeU16BE labelIds.
Proof.
  induction labelIds as [|l rest IH]; intros i pre Hpre.
  - reflexivity.
  - cbn [PGP.randomJump_fill length Nat.mul Nat.add repeat flat_map].
    set (hi := Z.land (Z.shiftr l 8) 255). set (lo := Z.land l 255).
    set (tail := repeat 0 (length rest * 2)).
    rewrite <- Hpre, store_at_end.
    replace (pre ++ U8.wrap hi :: 0 :: tail)
      with ((pre ++ [U8.wrap hi]) ++ 0 :: tail)
      by (now rewrite <- app_assoc).
    replace (S (length pre)) with (length (pre ++ [U8.wrap hi]))
      by (rewrite length_app; cbn [length]; lia).
    rewrite store_at_end.
    replace ((pre ++ [U8.wrap hi]) ++ U8.wrap lo :: tail)
      with ((pre ++ [U8.wrap hi; U8.wrap lo]) ++ tail)
      by (now rewrite <- !app_assoc).
    unfold tail. rewrite IH by (rewrite length_app; cbn [length]; lia).
    unfold hi, lo, PGP.writeU16BE. rewrite !wrap_land_255.
    now rewrite <- !app_assoc.
Qed.

(** Label ids and variable values of the branching commands: high byte
    first. *)
Lemma branch_fields_big_endian :
  (forall id, PGP.label_payload id = PGP.writeU16BE id)
  /\ (forall labelId, PGP.jump_payload labelId = PGP.writeU16BE labelId)
  /\ (forall buttonMask labelId,
        PGP.jumpIfBtn_payload buttonMask labelId
        = U8.wrap (if buttonMask =? 0 then BTN.ANY else buttonMask)
            :: PGP.writeU16BE labelId)
  /\ (forall labelIds,
        PGP.randomJump_payload labelIds
        = U8.wrap (Z.of_nat (length labelIds))
            :: flat_map PGP.writeU16BE labelIds)
  /\ (forall varId value,
        PGP.setVar_payload varId value
        = U8.wrap varId :: PGP.writeU16BE value)
  /\ (forall varId op value labelId,
        PGP.jumpIfVar_payload varId op value labelId
        = [U8.wrap varId; U8.wrap op] ++ PGP.writeU16BE value
            ++ PGP.writeU16BE labelId).
Proof.
  repeat split; intros.
  - apply of_array_U16BE.
  - apply of_array_U16BE.
  - unfold PGP.jumpIfBtn_payload, PGP.writeU16BE, U8.of_array. cbn [map].
    now rewrite !wrap_land_255.
  - unfold PGP.randomJump_payload, U8.make. cbn [Nat.add repeat U8.store].
    apply (randomJump_fill_layout labelIds 0
             [U8.wrap (Z.of_nat (length labelIds))]).
    reflexivity.
  - unfold PGP.setVar_payload, PGP.writeU16BE, U8.make.
    cbn [repeat U8.store]. now rewrite !wrap_land_255.
  - unfold PGP.jumpIfVar_payload, PGP.writeU16BE, U8.make.
    cbn [repeat U8.store app]. now rewrite !wrap_land_255.
Qed.

(** The thresholds of the two fader commands: low byte first, next to a
    label id written high byte first. *)
Lemma fader_payload_layout :
  (forall op threshold labelId,
     PGP.jumpIfFader_payload op threshold labelId
     = [U8.wrap op] ++ PGP.writeU16LE threshold ++ PGP.writeU16BE labelId)
  /\ (forall op threshold,
        PGP.waitFader_payload op threshold
        = [U8.wrap op] ++ PGP.writeU16LE threshold).
Proof.
  split; intros.
  - unfold PGP.jumpIfFader_payload, PGP.writeU16LE, PGP.writeU16BE, U8.make.
    cbn [repeat U8.store app]. now rewrite !wrap_land_255.
  - unfold PGP.waitFader_payload, PGP.writeU16LE, U8.make.
    cbn [repeat U8.store app]. now rewrite !wrap_land_255.
Qed.

(** C1, where the code departs from it: the threshold of a JUMP_IF_FADER or
    WAIT_FADER frame is written low byte first, next to a label id written
    high byte first.  At threshold 0x0102 the payload bytes are 02 01, where
    big-endian order would be 01 02. *)
Theorem fader_threshold_little_endian :
  (forall op threshold labelId,
     PGP.jumpIfFader_payload op threshold labelId
     = [U8.wrap op] ++ PGP.writeU16LE threshold ++ PGP.writeU16BE labelId)
  /\ (forall op threshold,
        PGP.waitFader_payload op threshold
        = [U8.wrap op] ++ PGP.writeU16LE threshold)
  /\ PGP.writeU16LE 0x0102 = [0x02; 0x01]
  /\ PGP.writeU16BE 0x0102 = [0x01; 0x02]
  /\ PGP.jumpIfFader 4 0x0102 0x0304
     = [0xE0; 0x67; 5; 0; 4; 0x02; 0x01; 0x03; 0x04; 0x8A]
  /\ PGP.waitFader 4 0x0102 = [0xE0; 0x68; 3; 0; 4; 0x02; 0x01; 0x22].
Proof.
  destruct fader_payload_layout as [Hjump Hwait].
  split; [exact Hjump|]. split; [exact Hwait|].
  repeat split; vm_compute; reflexivity.
Qed.

(** ** The font resolver *)

(** C7, refuted as stated: a text block requested at size 16 without CJK
    content gets base font 1 with scale 8, not 1, and its TEXT frame carries
    the extended font byte 33, not the legacy byte 2. *)
Lemma text_size_16_not_legacy :
  hasCJK str_OK = false
  /\ sizeToFontScale 16 false = {| baseFont := 1; scale := 8 |}
  /\ scale (sizeToFontScale 16 false) <> 1
  /\ map text_frame_font
         (blockToPGP (Section_text 0 str_OK (size_opts 16))) = [33]
  /\ 33 <> 2.
Proof. repeat split; try discriminate; vm_compute; congruence. Qed.

(** C7, as the code has it.  Sizes are millimetres at 8 dots per
    millimetre.  A request of 16 mm resolves to base font 1 (8x16) with
    scale 8 = 128 / 16; its font byte is the extended 33 = 8<<2 | 1 without
    CJK content, and with CJK content base font 2 (Misaki) with the scale
    recomputed against the 8-dot base and clamped, min(15, 128 / 8) = 15,
    byte 62 = 15<<2 | 2.  Base font 1 with scale 1 and the legacy byte 2 are
    what a request of 2 mm (16 dots) resolves to; with CJK content that
    request gives base font 2, scale 2 = 16 / 8, extended byte 10 = 2<<2 | 2. *)
Theorem text_font_resolution (x : Z) (str : Js.str) :
  Section_text x str (size_opts 16) = Text x str 1 8 (Some 16%Q)
  /\ blockToPGP (Section_text x str (size_opts 16))
     = [PGP.text x 0 (if hasCJK str then 62 else 33) str]
  /\ 33 = Z.lor (Z.shiftl 8 2) 1 /\ 62 = Z.lor (Z.shiftl 15 2) 2
  /\ Section_text x str (size_opts 2) = Text x str 1 1 (Some 2%Q)
  /\ blockToPGP (Section_text x str (size_opts 2))
     = [PGP.text x 0 (if hasCJK str then 10 else 2) str]
  /\ 10 = Z.lor (Z.shiftl 2 2) 2.
Proof.
  assert (H16 : Section_text x str (size_opts 16) = Text x str 1 8 (Some 16%Q))
    by reflexivity.
  assert (H2 : Section_text x str (size_opts 2) = Text x str 1 1 (Some 2%Q))
    by reflexivity.
  rewrite H16, H2. cbn [blockToPGP].
  destruct (hasCJK str); repeat split; reflexivity.
Qed.

(** The font byte sits at offset 8 of the TEXT frame. *)
Lemma text_frame_font_text x y fnt str :
  text_frame_font (PGP.text x y fnt str) = U8.wrap fnt.
Proof.
  unfold text_frame_font, PGP.text. rewrite frame_layout.
  destruct content_fields_little_endian as (_ & _ & _ & _ & _ & _ & Htext).
  rewrite Htext. unfold PGP.writeU16LE, U8.of_array. cbn [app map nth].
  unfold U8.wrap. apply Z.mod_mod. lia.
Qed.

(** The two requests on the strings "OK" and U+6F22. *)
Example font_bytes_of_requests :
  hasCJK str_OK = false /\ hasCJK str_kan = true
  /\ map text_frame_font (blockToPGP (Section_text 0 str_OK (size_opts 2)))
     = [2]
  /\ map text_frame_font (blockToPGP (Section_text 0 str_kan (size_opts 2)))
     = [10]
  /\ map text_frame_font (blockToPGP (Section_text 0 str_kan (size_opts 16)))
     = [62].
Proof. repeat split; vm_compute; reflexivity. Qed.

(** ** LineContext: drawing stays inside the line buffer *)

Lemma js_ltb_lt q r : Js.ltb q r = true <-> (q < r)%Q.
Proof.
  unfold Js.ltb. rewrite Qlt_alt. destruct (q ?= r)%Q; split; congruence.
Qed.

Lemma js_geb_le q r : Js.geb q r = true <-> (r <= q)%Q.
Proof.
  unfold Js.geb. rewrite negb_true_iff. split.
  - intros H. apply Qnot_lt_le. intros Hlt. apply js_ltb_lt in Hlt. congruence.
  - intros H. destruct (Js.ltb q r) eqn:E; [|reflexivity].
    apply js_ltb_lt in E. exfalso. exact (Qlt_not_le _ _ E H).
Qed.

Lemma with_buf_same c : with_buf (_buf c) c = c.
Proof. destruct c; reflexivity. Qed.

Lemma column_index x : 0 <= x < WIDTH -> 0 <= Z.shiftr x 3 < Z.of_nat BPL.
Proof.
  unfold WIDTH, BPL. intros H. rewrite Z.shiftr_div_pow2 by lia.
  change (2 ^ 3) with 8. split.
  - apply Z.div_pos; lia.
  - apply Z.div_lt_upper_bound; lia.
Qed.

(** Past the guard of [pixel], the floored coordinate is a column of the
    line. *)
Lemma pixel_guard_passed x :
  Js.ltb x 0 || Js.geb x (inject_Z WIDTH) = false -> 0 <= Qfloor x < WIDTH.
Proof.
  intros H. apply orb_false_elim in H. destruct H as [Hlo Hhi].
  assert (H0 : (0 <= x)%Q).
  { apply Qnot_lt_le. intros Hlt. apply js_ltb_lt in Hlt. congruence. }
  assert (Hw : (x < inject_Z WIDTH)%Q).
  { apply Qnot_le_lt. intros Hle. apply js_geb_le in Hle. congruence. }
  split.
  - change 0 with (Qfloor (inject_Z 0)) at 1. now apply Qfloor_resp_le.
  - rewrite Zlt_Qlt. apply Qle_lt_trans with x; [apply Qfloor_le | exact Hw].
Qed.

Lemma pixel_outside x on c :
  (x < 0 \/ inject_Z WIDTH <= x)%Q ->
  pixel_ops x on = [] /\ pixel x on c = c.
Proof.
  intros H.
  assert (G : Js.ltb x 0 || Js.geb x (inject_Z WIDTH) = true).
  { apply orb_true_iff. destruct H as [H|H].
    - left. now apply js_ltb_lt.
    - right. now apply js_geb_le. }
  assert (Hops : pixel_ops x on = []) by (unfold pixel_ops; now rewrite G).
  split; [exact Hops|].
  unfold pixel. rewrite Hops. apply with_buf_same.
Qed.

Lemma pixel_ops_inside x on op :
  In op (pixel_ops x on) -> 0 <= fst op < Z.of_nat BPL.
Proof.
  unfold pixel_ops.
  destruct (Js.ltb x 0 || Js.geb x (inject_Z WIDTH)) eqn:G; [intros []|].
  apply pixel_guard_passed in G.
  destruct on; intros [ <- | [] ]; apply column_index, G.
Qed.

(** The columns [range] draws: those of the clamped interval. *)
Lemma range_ops_columns x1 x2 op :
  In op (range_ops x1 x2) ->
  exists x, op = set_bit x
            /\ Z.max 0 (Qfloor x1) <= x < Z.min WIDTH (Qfloor x2).
Proof.
  unfold range_ops. intros H. apply in_map_iff in H.
  destruct H as (k & <- & Hk). apply in_seq in Hk.
  exists (Z.max 0 (Qfloor x1) + Z.of_nat k). split; [reflexivity|]. lia.
Qed.

Lemma range_ops_inside x1 x2 op :
  In op (range_ops x1 x2) -> 0 <= fst op < Z.of_nat BPL.
Proof.
  intros H. apply range_ops_columns in H. destruct H as (x & -> & Hx).
  apply column_index. lia.
Qed.

(** Clamping the bounds beforehand changes nothing. *)
Lemma range_clamped x1 x2 :
  range_ops x1 x2
  = range_ops (inject_Z (Z.max 0 (Qfloor x1)))
              (inject_Z (Z.min WIDTH (Qfloor x2))).
Proof.
  unfold range_ops. rewrite !Qfloor_Z.
  replace (Z.max 0 (Z.max 0 (Qfloor x1))) with (Z.max 0 (Qfloor x1)) by lia.
  replace (Z.min WIDTH (Z.min WIDTH (Qfloor x2)))
    with (Z.min WIDTH (Qfloor x2)) by lia.
  reflexivity.
Qed.

Lemma emit_ops_inside data op :
  In op (emit_ops data) -> 0 <= fst op < Z.of_nat BPL.
Proof.
  unfold emit_ops. intros H. apply in_map_iff in H.
  destruct H as ([k v] & <- & Hkv). apply in_combine_l in Hkv.
  apply in_seq in Hkv. cbn [fst].
  pose proof (firstn_le_length BPL (U8.of_array data)). lia.
Qed.

Lemma modify_length op a : length (U8.modify op a) = length a.
Proof.
  destruct op as [i f]. unfold U8.modify.
  destruct ((0 <=? i) && (i <? Z.of_nat (length a))); [|reflexivity].
  apply store_length.
Qed.

Lemma modify_all_length ops a : length (U8.modify_all ops a) = length a.
Proof.
  unfold U8.modify_all. revert a.
  induction ops as [|op ops IH]; intros a; simpl.
  - reflexivity.
  - rewrite IH. apply modify_length.
Qed.

(** C10. [pixel(x, on)] with [x < 0] or [x >= 576] makes no store and
    leaves the context, its buffer included, as it was.  [range(x1, x2)]
    draws the columns from [max(0, floor x1)] up to but not including
    [min(576, floor x2)], and so does the same as with its bounds clamped
    beforehand.  Every store of [pixel], [range] and [emit] goes to an index
    from 0 to 71, whatever the coordinates, and the buffer keeps its
    length. *)
Theorem drawing_within_line_buffer (c : LineContext) :
  (forall x on, (x < 0 \/ inject_Z WIDTH <= x)%Q ->
     pixel_ops x on = [] /\ pixel x on c = c)
  /\ (forall x1 x2,
        range x1 x2 c
        = range (inject_Z (Z.max 0 (Qfloor x1)))
                (inject_Z (Z.min WIDTH (Qfloor x2))) c
        /\ forall op, In op (range_ops x1 x2) ->
             exists x, op = set_bit x /\ 0 <= x < WIDTH
                       /\ Z.max 0 (Qfloor x1) <= x < Z.min WIDTH (Qfloor x2))
  /\ (forall x on x1 x2 data op,
        In op (pixel_ops x on ++ range_ops x1 x2 ++ emit_ops data) ->
        0 <= fst op < 72)
  /\ (forall x on x1 x2 data,
        length (_buf (pixel x on c)) = length (_buf c)
        /\ length (_buf (range x1 x2 c)) = length (_buf c)
        /\ length (_buf (emit data c)) = length (_buf c)).
Proof.
  split; [|split; [|split]].
  - intros x on H. now apply pixel_outside.
  - intros x1 x2. split.
    + unfold range. now rewrite <- range_clamped.
    + intros op H. apply range_ops_columns in H.
      destruct H as (x & Hop & Hx). exists x. repeat split; try assumption; lia.
  - intros x on x1 x2 data op H.
    change 72 with (Z.of_nat BPL).
    apply in_app_or in H. destruct H as [H|H].
    + exact (pixel_ops_inside _ _ _ H).
    + apply in_app_or in H. destruct H as [H|H].
      * exact (range_ops_inside _ _ _ H).
      * exact (emit_ops_inside _ _ H).
  - intros x on x1 x2 data. unfold pixel, range, emit, with_buf.
    cbn [_buf]. now rewrite !modify_all_length.
Qed.

(** On a fresh context: a pixel left of the line, a pixel right of it, and a
    range reaching past both ends, which fills the line and nothing else. *)
Lemma drawing_within_line_buffer_witness :
  pixel (-1 # 2) true (new_LineContext 4) = new_LineContext 4
  /\ pixel (inject_Z 576) true (new_LineContext 4) = new_LineContext 4
  /\ _buf (range (-7 # 1) (1000 # 1) (new_LineContext 4)) = repeat 255 72.
Proof.
  destruct (drawing_within_line_buffer (new_LineContext 4))
    as (Hpixel & Hrange & _).
  split; [|split].
  - apply Hpixel. left. reflexivity.
  - apply Hpixel. right. unfold WIDTH. apply Qle_refl.
  - rewrite (proj1 (Hrange (-7 # 1)%Q (1000 # 1)%Q)). vm_compute. reflexivity.
Defined.

(** ** Label validation *)

Lemma set_has_Z_In s x : set_has Z.eqb s x = true <-> In x s.
Proof.
  unfold set_has. rewrite existsb_exists. split.
  - intros (y & Hy & E). apply Z.eqb_eq in E. now subst.
  - intros H. exists x. split; [exact H | apply Z.eqb_refl].
Qed.

Lemma set_add_Z_In x s l : In l (set_add Z.eqb x s) <-> In l s \/ l = x.
Proof.
  unfold set_add. destruct (existsb (Z.eqb x) s) eqn:E.
  - split; [now left|]. intros [H| -> ]; [exact H|].
    now apply set_has_Z_In.
  - rewrite in_app_iff. simpl. intuition.
Qed.

Lemma collect_labels_blocks bs :
  forall defined l,
    In l (fold_left (fun defined b => match b with
                                      | Label i => set_add Z.eqb i defined
                                      | _ => defined
                                      end) bs defined)
    <-> In l defined \/ In (Label l) bs.
Proof.
  induction bs as [|b bs IH]; intros defined l; simpl.
  - intuition.
  - rewrite IH. destruct b; try (intuition congruence).
    rewrite set_add_Z_In. intuition congruence.
Qed.

Lemma collect_labels_sections {Vars} (entries : list (string * SectionT Vars)) :
  forall defined l,
    In l (fold_left
            (fun defined entry =>
               fold_left (fun defined b => match b with
                                           | Label i => set_add Z.eqb i defined
                                           | _ => defined
                                           end)
                         (blocks (snd entry)) defined)
            entries defined)
    <-> In l defined
        \/ exists e, In e entries /\ In (Label l) (blocks (snd e)).
Proof.
  induction entries as [|e entries IH]; intros defined l; simpl.
  - split; [now left|]. intros [H|(e & [] & _)]. exact H.
  - rewrite IH, collect_labels_blocks. split.
    + intros [[H|H]|(e' & He' & H)].
      * now left.
      * right. exists e. auto.
      * right. exists e'. auto.
    + intros [H|(e' & [ <- | He' ] & H)].
      * left. now left.
      * left. now right.
      * right. exists e'. auto.
Qed.

(** Step 1 collects exactly the ids of the label blocks of all sections. *)
Lemma collect_labels_spec {Vars} (g : Game Vars) l :
  In l (collect_labels g)
  <-> exists e, In e (sections g) /\ In (Label l) (blocks (snd e)).
Proof.
  unfold collect_labels. rewrite collect_labels_sections. simpl. intuition.
Qed.

(** Step 2 on one block: a violation for every looked-up id that is not
    defined, and nothing else. *)
Lemma block_errors_spec defined sec b err :
  In err (block_errors defined sec b)
  -> err_section err = sec
     /\ In (err_label err) (checked_refs b)
     /\ ~ In (err_label err) defined.
Proof.
  destruct b; cbn [block_errors checked_refs]; try (intros []).
  1, 2, 4:
    destruct (set_has Z.eqb defined labelId) eqn:E; [intros []|];
    intros [ <- | [] ]; cbn; repeat split; auto;
    intros H; apply set_has_Z_In in H; congruence.
  intros H. apply in_map_iff in H. destruct H as (l & <- & Hl).
  apply filter_In in Hl. destruct Hl as [Hin Hneg]. cbn.
  repeat split; auto. intros H. apply set_has_Z_In in H.
  rewrite H in Hneg. discriminate.
Qed.

Lemma block_errors_complete defined sec b l :
  In l (checked_refs b) -> ~ In l defined ->
  exists err, In err (block_errors defined sec b)
              /\ err_section err = sec /\ err_label err = l.
Proof.
  intros Hl Hundef.
  assert (E : set_has Z.eqb defined l = false).
  { destruct (set_has Z.eqb defined l) eqn:E; [|reflexivity].
    apply set_has_Z_In in E. contradiction. }
  destruct b; cbn [block_errors checked_refs] in *; try contradiction.
  1, 2, 4:
    destruct Hl as [ -> | [] ]; rewrite E; eexists; split;
    [left; reflexivity | split; reflexivity].
  eexists. split.
  - apply in_map_iff. exists l. split; [reflexivity|].
    apply filter_In. split; [exact Hl | now rewrite E].
  - split; reflexivity.
Qed.

(** [_validateLabels] on the four block types it inspects: it throws
    exactly when one of them refers to an undefined label, and the error it
    throws lists every such reference, with its section, and only those. *)
Lemma validateLabels_checked_types {Vars} (g : Game Vars) :
  match validateLabels g with
  | None =>
      forall e b l, In e (sections g) -> In b (blocks (snd e)) ->
                    In l (checked_refs b) -> In l (collect_labels g)
  | Some ce =>
      definedLabels ce = collect_labels g
      /\ errors ce <> []
      /\ (forall e b l, In e (sections g) -> In b (blocks (snd e)) ->
                        In l (checked_refs b) -> ~ In l (collect_labels g) ->
            exists err, In err (errors ce)
                        /\ err_section err = fst e /\ err_label err = l)
      /\ (forall err, In err (errors ce) ->
            ~ In (err_label err) (collect_labels g)
            /\ exists e b, In e (sections g) /\ In b (blocks (snd e))
                           /\ err_section err = fst e
                           /\ In (err_label err) (checked_refs b))
  end.
Proof.
  unfold validateLabels.
  set (defined := collect_labels g).
  assert (Hall : forall e b l, In e (sections g) -> In b (blocks (snd e)) ->
                   In l (checked_refs b) -> ~ In l defined ->
                   exists err, In err (collect_errors g defined)
                               /\ err_section err = fst e /\ err_label err = l).
  { intros e b l He Hb Hl Hundef.
    destruct (block_errors_complete defined (fst e) b l Hl Hundef)
      as (err & Herr & Hs & Hlab).
    exists err. split; [|auto].
    unfold collect_errors. apply in_flat_map. exists e. split; [exact He|].
    apply in_flat_map. exists b. auto. }
  destruct (0 <? length (collect_errors g defined))%nat eqn:E.
  - apply Nat.ltb_lt in E. cbn [definedLabels errors].
    split; [reflexivity|]. split.
    { intros H. rewrite H in E. simpl in E. lia. }
    split; [exact Hall|].
    intros err Herr. unfold collect_errors in Herr.
    apply in_flat_map in Herr. destruct Herr as (e & He & Herr).
    apply in_flat_map in Herr. destruct Herr as (b & Hb & Herr).
    apply block_errors_spec in Herr. destruct Herr as (Hs & Hl & Hundef).
    split; [exact Hundef|]. exists e, b. auto.
  - apply Nat.ltb_ge in E.
    assert (Hnil : collect_errors g defined = [])
      by (apply length_zero_iff_nil; lia).
    intros e b l He Hb Hl.
    destruct (in_dec Z.eq_dec l defined) as [Hd|Hd]; [exact Hd|].
    destruct (Hall e b l He Hb Hl Hd) as (err & Herr & _).
    rewrite Hnil in Herr. destruct Herr.
Qed.

(** All violations are reported at once: two sections, three dangling
    references. *)
Example validateLabels_aggregates :
  validateLabels dangling_game
  = Some {| definedLabels := [8];
            errors := [ {| err_section := "a"; err_kind := ByJump;
                           err_label := 7 |};
                        {| err_section := "b"; err_kind := ByRandomJump;
                           err_label := 9 |};
                        {| err_section := "b"; err_kind := ByJumpIfVar;
                           err_label := 7 |} ] |}
  /\ exists ce, compile dangling_game tt = Throw ce.
Proof. split; [reflexivity | eexists; reflexivity]. Qed.

(** C2, where the code departs from it: step 2 of [_validateLabels] adds no
    violation for a jumpIfFader block, whatever label it names.  The only
    branch of [fader_game] is a jumpIfFader to label 7, which no label block
    defines; validation finds nothing and [compile] returns the stream with
    the dangling jump. *)
Theorem jumpIfFader_reference_unchecked :
  (forall defined sectionId op threshold labelId,
     branch_refs (JumpIfFader op threshold labelId) = [labelId]
     /\ block_errors defined sectionId (JumpIfFader op threshold labelId) = [])
  /\ hasBranchingCommands fader_game = true
  /\ flat_map (fun e => flat_map branch_refs (blocks (snd e)))
              (sections fader_game) = [7]
  /\ collect_labels fader_game = []
  /\ validateLabels fader_game = None
  /\ compile_frames fader_game tt
     = Return (tt, [PGP.programStart; PGP.setSpeed 10000;
                    PGP.jumpIfFader 4 2000 7; PGP.feed 10;
                    PGP.feed 16; PGP.stop; PGP.programEnd]).
Proof.
  split; [intros; split; reflexivity|].
  repeat split; vm_compute; reflexivity.
Qed.

(** ** Dynamic sections *)

Lemma rawLineRle_cmd row :
  frame_cmd (PGP.rawLineRle row) = PGP.CMD.RAW_LINE
  \/ frame_cmd (PGP.rawLineRle row) = PGP.CMD.RAW_LINE_RLE.
Proof.
  unfold PGP.rawLineRle, PGP.rawLine.
  destruct (PGP.rleEncode row) as [rle|].
  - destruct (length rle <? 64)%nat; rewrite frame_cmd_frame; auto.
  - rewrite frame_cmd_frame. auto.
Qed.

Lemma compileSectionFrames_header {Vars} (s : SectionT Vars) v :
  compileSectionFrames s v
  = match _onLine s with
    | Some onLine =>
        (fst (runDynamic s onLine v),
         section_header s ++ map PGP.rawLineRle (snd (runDynamic s onLine v)))
    | None => (v, section_header s ++ flat_map blockToPGP (blocks s))
    end.
Proof.
  unfold compileSectionFrames, section_header.
  destruct (_onLine s) as [onLine|].
  - destruct (runDynamic s onLine v) as [v' rows]. cbn [fst snd].
    destruct (negb (mode_is_zero (feed_mode_code (feedMode s))));
      destruct (String.eqb (feedMode s) "auto"
                || mode_is_zero (feed_mode_code (feedMode s)));
      cbn [app]; rewrite ?app_nil_r; reflexivity.
  - destruct (negb (mode_is_zero (feed_mode_code (feedMode s))));
      destruct (String.eqb (feedMode s) "auto"
                || mode_is_zero (feed_mode_code (feedMode s)));
      cbn [app]; rewrite ?app_nil_r; reflexivity.
Qed.

(** The frames of a dynamic section: the header, whose SET_SPEED carries the
    speed of the section, then one RAW_LINE or RAW_LINE_RLE frame per
    generated line.  [_speed] is read nowhere. *)
Lemma dynamic_section_frames {Vars} (s : SectionT Vars) onLine v :
  _onLine s = Some onLine ->
  exists v' rows,
    runDynamic s onLine v = (v', rows)
    /\ compileSectionFrames s v
       = (v', section_header s ++ map PGP.rawLineRle rows)
    /\ Forall (fun f => frame_cmd f = PGP.CMD.RAW_LINE
                        \/ frame_cmd f = PGP.CMD.RAW_LINE_RLE)
              (map PGP.rawLineRle rows).
Proof.
  intros H. rewrite compileSectionFrames_header, H.
  destruct (runDynamic s onLine v) as [v' rows]. exists v', rows.
  repeat split. apply Forall_forall. intros f Hf.
  apply in_map_iff in Hf. destruct Hf as (row & <- & _).
  apply rawLineRle_cmd.
Qed.

Lemma begin_line_forget i c :
  begin_line i (forget_speed c) = begin_line i c.
Proof. reflexivity. Qed.

Lemma begin_line_blind i c1 c2 :
  forget_speed c1 = forget_speed c2 -> begin_line i c1 = begin_line i c2.
Proof.
  intros H. rewrite <- (begin_line_forget i c1), <- (begin_line_forget i c2).
  now rewrite H.
Qed.

Lemma dyn_loop_speed_blind {Vars} (s : SectionT Vars) f pps n :
  _endCondition s = None ->
  forall i v c1 c2 rows,
    forget_speed c1 = forget_speed c2 ->
    let r1 := dyn_loop s (with_speed pps f) n i v c1 rows in
    let r2 := dyn_loop s f n i v c2 rows in
    fst (fst r1) = fst (fst r2) /\ snd r1 = snd r2.
Proof.
  intros Hend. induction n as [|n IH]; intros i v c1 c2 rows Hc; cbn zeta.
  - split; reflexivity.
  - cbn [dyn_loop]. rewrite (begin_line_blind i c1 c2 Hc).
    destruct (f v (begin_line i c2)) as [v' c'] eqn:Ef.
    assert (Hw : with_speed pps f v (begin_line i c2) = (v', setSpeed pps c'))
      by (unfold with_speed; now rewrite Ef).
    rewrite Hw. cbn [setSpeed _buf _done]. rewrite Hend.
    destruct (_done c').
    + split; reflexivity.
    + apply IH. reflexivity.
Qed.

(** Without an end condition and an exit hook, a generator that calls
    [setSpeed] at the end of every line yields the scanlines of the
    generator that does not. *)
Lemma runDynamic_speed_blind {Vars} (s : SectionT Vars) f pps v :
  _endCondition s = None -> _onExit s = None ->
  runDynamic s (with_speed pps f) v = runDynamic s f v.
Proof.
  intros Hend Hexit. unfold runDynamic. rewrite Hexit. cbn [run_hook].
  destruct (run_hook (_onEnter s) v (new_LineContext (maxLines s)))
    as [v0 c0].
  pose proof (dyn_loop_speed_blind s f pps (Z.to_nat (maxLines s)) Hend
                0 v0 c0 c0 [] eq_refl) as H.
  cbn zeta in H.
  destruct (dyn_loop s (with_speed pps f) (Z.to_nat (maxLines s)) 0 v0 c0 [])
    as [[v1 c1] rows1].
  destruct (dyn_loop s f (Z.to_nat (maxLines s)) 0 v0 c0 [])
    as [[v2 c2] rows2].
  cbn [fst snd] in H. destruct H as [-> ->]. reflexivity.
Qed.

(** C8, at the input where the code departs from it: a two-line dynamic
    section at 10000 pps whose generator calls [setSpeed(5000)] on every
    line compiles to the bytes of the same section without the calls: one
    SET_SPEED frame, carrying 10000, and no trace of 5000. *)
Theorem line_speed_override_ignored :
  compile (dynamic_game speedy_line) tt = compile (dynamic_game steady_line) tt
  /\ compile_frames (dynamic_game speedy_line) tt
     = Return (tt, [PGP.setSpeed 10000;
                    PGP.rawLineRle first_pixel_line;
                    PGP.rawLineRle first_pixel_line;
                    PGP.feed 16; PGP.stop])
  /\ PGP.setSpeed 10000 <> PGP.setSpeed 5000.
Proof.
  split; [|split].
  - vm_compute. reflexivity.
  - vm_compute. reflexivity.
  - vm_compute. discriminate.
Qed.

(** ** The program compiler *)

Lemma is_branching_kind b : is_branching b = control_flow_block b.
Proof. destruct b; reflexivity. Qed.

(** [_hasBranchingCommands] answers whether some section holds a block of
    the control-flow subset. *)
Lemma hasBranchingCommands_spec {Vars} (g : Game Vars) :
  hasBranchingCommands g = true
  <-> exists e b, In e (sections g) /\ In b (blocks (snd e))
                  /\ control_flow_block b = true.
Proof.
  unfold hasBranchingCommands. rewrite existsb_exists. split.
  - intros (e & He & H). apply existsb_exists in H.
    destruct H as (b & Hb & H). rewrite is_branching_kind in H.
    exists e, b. auto.
  - intros (e & b & He & Hb & H). exists e. split; [exact He|].
    apply existsb_exists. exists b. rewrite is_branching_kind. auto.
Qed.

Ltac content_frame :=
  unfold not_marker; rewrite frame_cmd_frame; split; vm_compute; discriminate.

Lemma rawLineRle_no_marker row : not_marker (PGP.rawLineRle row).
Proof.
  unfold not_marker.
  destruct (rawLineRle_cmd row) as [-> | ->]; split; vm_compute; discriminate.
Qed.

Lemma blockToPGP_no_marker b : Forall not_marker (blockToPGP b).
Proof.
  destruct b; cbn [blockToPGP].
  1: destruct (hasCJK str).
  all: try (apply Forall_forall; intros f Hf; apply in_map_iff in Hf;
            destruct Hf as (row & <- & _); apply rawLineRle_no_marker).
  all: apply Forall_cons; [|apply Forall_nil];
    unfold PGP.text, PGP.rect, PGP.fillLine, PGP.feed, PGP.waitButton,
      PGP.spriteDraw, PGP.label, PGP.jump, PGP.jumpIfBtn, PGP.randomJump,
      PGP.setVar, PGP.jumpIfVar, PGP.jumpIfFader, PGP.waitFader,
      PGP.setFeedMode;
    content_frame.
Qed.

Lemma section_header_no_marker {Vars} (s : SectionT Vars) :
  Forall not_marker (section_header s).
Proof.
  unfold section_header. apply Forall_app. split.
  - destruct (negb (mode_is_zero (feed_mode_code (feedMode s))));
      [apply Forall_cons; [|apply Forall_nil] | apply Forall_nil].
    unfold PGP.setMode. content_frame.
  - destruct (String.eqb (feedMode s) "auto"
              || mode_is_zero (feed_mode_code (feedMode s)));
      [apply Forall_cons; [|apply Forall_nil] | apply Forall_nil].
    unfold PGP.setSpeed. content_frame.
Qed.

(** The header by feed mode: SET_MODE and no SET_SPEED for elastic and
    precise; SET_SPEED alone for auto and for a name the lookup does not
    know; and for a name it answers with an inherited member, such as
    constructor, SET_MODE with byte 0 and no SET_SPEED. *)
Example section_header_by_mode :
  let header m :=
    section_header (Vars := unit)
      {| id := "s"; feedMode := m; speed := 10000; blocks := [];
         _onLine := None; _onEnter := None; _onExit := None;
         _endCondition := None; maxLines := 2000 |} in
  header "auto"%string = [PGP.setSpeed 10000]
  /\ header "elastic"%string = [PGP.setMode 1]
  /\ header "precise"%string = [PGP.setMode 2]
  /\ header "turbo"%string = [PGP.setSpeed 10000]
  /\ header "constructor"%string = [PGP.setMode 0].
Proof. cbv zeta. repeat split; vm_compute; reflexivity. Qed.

Lemma compileSectionFrames_no_marker {Vars} (s : SectionT Vars) v :
  Forall not_marker (snd (compileSectionFrames s v)).
Proof.
  rewrite compileSectionFrames_header.
  destruct (_onLine s) as [onLine|]; cbn [snd]; apply Forall_app; split;
    try apply section_header_no_marker.
  - apply Forall_forall. intros f Hf. apply in_map_iff in Hf.
    destruct Hf as (row & <- & _). apply rawLineRle_no_marker.
  - apply Forall_flat_map, Forall_forall. intros b _.
    apply blockToPGP_no_marker.
Qed.

Lemma emit_sections_cons {Vars} (s : SectionT Vars) ss v :
  emit_sections (s :: ss) v
  = (fst (emit_sections ss (fst (compileSectionFrames s v))),
     snd (compileSectionFrames s v)
       ++ snd (emit_sections ss (fst (compileSectionFrames s v)))).
Proof.
  cbn [emit_sections]. destruct (compileSectionFrames s v) as [v1 fs].
  cbn [fst snd]. destruct (emit_sections ss v1). reflexivity.
Qed.

Lemma emit_sections_app {Vars} (a b : list (SectionT Vars)) :
  forall v,
    emit_sections (a ++ b) v
    = (fst (emit_sections b (fst (emit_sections a v))),
       snd (emit_sections a v)
         ++ snd (emit_sections b (fst (emit_sections a v)))).
Proof.
  induction a as [|s a IH]; intros v.
  - cbn [app emit_sections fst snd]. now destruct (emit_sections b v).
  - cbn [app]. rewrite !emit_sections_cons, IH. cbn [fst snd].
    now rewrite app_assoc.
Qed.

Lemma emit_sections_no_marker {Vars} (ss : list (SectionT Vars)) :
  forall v, Forall not_marker (snd (emit_sections ss v)).
Proof.
  induction ss as [|s ss IH]; intros v.
  - constructor.
  - rewrite emit_sections_cons. cbn [snd]. apply Forall_app. split.
    + apply compileSectionFrames_no_marker.
    + apply IH.
Qed.

Lemma found_sections_cons {Vars} (g : Game Vars) i rest :
  found_sections g (i :: rest)
  = match map_get (sections g) i with
    | Some s => s :: found_sections g rest
    | None => found_sections g rest
    end.
Proof.
  unfold found_sections. cbn [flat_map].
  now destruct (map_get (sections g) i).
Qed.

(** The loop of the non-branching case compiles the sections the flow
    names, in flow order. *)
Lemma compile_flow_only_emit {Vars} (g : Game Vars) flow :
  forall v frames,
    compile_flow_only g flow v frames
    = (fst (emit_sections (found_sections g flow) v),
       frames ++ snd (emit_sections (found_sections g flow) v)).
Proof.
  induction flow as [|i rest IH]; intros v frames.
  - cbn. now rewrite app_nil_r.
  - cbn [compile_flow_only]. rewrite found_sections_cons.
    destruct (map_get (sections g) i) as [s|].
    + rewrite emit_sections_cons.
      destruct (compileSectionFrames s v) as [v1 fs]. cbn [fst snd].
      rewrite IH. now rewrite app_assoc.
    + apply IH.
Qed.

Lemma set_has_str_In s x : set_has String.eqb s x = true <-> In x s.
Proof.
  unfold set_has. rewrite existsb_exists. split.
  - intros (y & Hy & E). apply String.eqb_eq in E. now subst.
  - intros H. exists x. split; [exact H | apply String.eqb_refl].
Qed.

Lemma set_add_str_In x s k : In k (set_add String.eqb x s) <-> In k s \/ k = x.
Proof.
  unfold set_add. destruct (existsb (String.eqb x) s) eqn:E.
  - split; [now left|]. intros [H| -> ]; [exact H|].
    now apply set_has_str_In.
  - rewrite in_app_iff. simpl. intuition.
Qed.

(** The first loop of the branching case does the same and records the ids
    it compiled. *)
Lemma compile_flow_all_emit {Vars} (g : Game Vars) flow :
  forall v frames compiled,
  exists compiled',
    compile_flow_all g flow v frames compiled
    = (fst (emit_sections (found_sections g flow) v),
       frames ++ snd (emit_sections (found_sections g flow) v),
       compiled')
    /\ forall k, In k compiled'
                 <-> In k compiled
                     \/ (In k flow /\ map_get (sections g) k <> None).
Proof.
  induction flow as [|i rest IH]; intros v frames compiled.
  - exists compiled. cbn. rewrite app_nil_r. split; [reflexivity|].
    intuition.
  - cbn [compile_flow_all]. rewrite found_sections_cons.
    destruct (map_get (sections g) i) as [s|] eqn:Eget.
    + rewrite emit_sections_cons.
      destruct (compileSectionFrames s v) as [v1 fs]. cbn [fst snd].
      destruct (IH v1 (frames ++ fs) (set_add String.eqb i compiled))
        as (compiled' & Heq & Hin).
      exists compiled'. rewrite Heq, app_assoc. split; [reflexivity|].
      intros k. rewrite Hin, set_add_str_In. cbn [In]. split.
      * intros [[H| -> ]|[H1 H2]]; auto.
        right. split; [now left | congruence].
      * intros [H|[[ <- |H1] H2]]; auto.
    + destruct (IH v frames compiled) as (compiled' & Heq & Hin).
      exists compiled'. split; [exact Heq|].
      intros k. rewrite Hin. cbn [In]. split.
      * intros [H|[H1 H2]]; auto.
      * intros [H|[[ <- |H1] H2]]; auto. contradiction.
Qed.

(** The second loop compiles the entries whose id is not recorded, in
    table order. *)
Lemma compile_remaining_emit {Vars} (entries : list (string * SectionT Vars))
    compiled :
  forall v frames,
    let rest :=
      map snd (filter (fun e => negb (set_has String.eqb compiled (fst e)))
                      entries) in
    compile_remaining entries compiled v frames
    = (fst (emit_sections rest v), frames ++ snd (emit_sections rest v)).
Proof.
  induction entries as [|[i s] entries IH]; intros v frames; cbn zeta.
  - cbn. now rewrite app_nil_r.
  - cbn [compile_remaining filter fst].
    destruct (set_has String.eqb compiled i); cbn [negb].
    + apply IH.
    + cbn [map snd]. rewrite emit_sections_cons.
      destruct (compileSectionFrames s v) as [v1 fs]. cbn [fst snd].
      rewrite IH. now rewrite app_assoc.
Qed.

Lemma map_get_In {A} (m : list (string * A)) e :
  In e m -> map_get m (fst e) <> None.
Proof.
  induction m as [|[k a] m IH]; intros H; [destruct H|].
  cbn [map_get]. destruct (String.eqb (fst e) k) eqn:E; [discriminate|].
  destruct H as [ <- |H].
  - cbn [fst] in E. rewrite String.eqb_refl in E. discriminate.
  - now apply IH.
Qed.

Lemma map_get_NoDup {A} (m : list (string * A)) e :
  NoDup (map fst m) -> In e m -> map_get m (fst e) = Some (snd e).
Proof.
  induction m as [|[k a] m IH]; intros Hnd H; [destruct H|].
  cbn [map fst] in Hnd. inversion Hnd as [|? ? Hk Hnd']; subst.
  cbn [map_get]. destruct H as [ <- |H].
  - cbn [fst snd]. now rewrite String.eqb_refl.
  - destruct (String.eqb (fst e) k) eqn:E.
    + apply String.eqb_eq in E. subst k. exfalso. apply Hk.
      now apply in_map.
    + now apply IH.
Qed.

Lemma found_sections_In {Vars} (g : Game Vars) flow k s :
  In k flow -> map_get (sections g) k = Some s ->
  In s (found_sections g flow).
Proof.
  intros Hk Hget. unfold found_sections. apply in_flat_map.
  exists k. split; [exact Hk|]. rewrite Hget. now left.
Qed.

(** With the keys of the table distinct, every section of the table is in
    the flow part or in the remainder. *)
Lemma every_section_emitted {Vars} (g : Game Vars) e :
  NoDup (map fst (sections g)) -> In e (sections g) ->
  In (snd e) (flow_sections g ++ remaining_sections g).
Proof.
  intros Hnd He. apply in_or_app.
  destruct (set_has String.eqb (_flow g) (fst e)) eqn:E.
  - left. apply set_has_str_In in E.
    apply (found_sections_In g (_flow g) (fst e)); [exact E|].
    now apply map_get_NoDup.
  - right. unfold remaining_sections. apply in_map, filter_In.
    split; [exact He | now rewrite E].
Qed.

Lemma sprite_frames_no_marker {Vars} (g : Game Vars) :
  Forall not_marker (sprite_frames g).
Proof.
  unfold sprite_frames. apply Forall_forall. intros f Hf.
  apply in_map_iff in Hf. destruct Hf as (e & <- & _).
  unfold PGP.spriteDef. content_frame.
Qed.

Lemma remaining_filter {Vars} (g : Game Vars) compiled' :
  (forall k, In k compiled'
             <-> In k [] \/ (In k (_flow g) /\ map_get (sections g) k <> None)) ->
  map snd (filter (fun e => negb (set_has String.eqb compiled' (fst e)))
                  (sections g))
  = remaining_sections g.
Proof.
  intros Hin. unfold remaining_sections. f_equal.
  apply filter_ext_in. intros e He. f_equal.
  destruct (set_has String.eqb (_flow g) (fst e)) eqn:E.
  - apply set_has_str_In. apply Hin. right.
    split; [now apply set_has_str_In | now apply map_get_In].
  - destruct (set_has String.eqb compiled' (fst e)) eqn:E'; [|reflexivity].
    apply set_has_str_In, Hin in E'. destruct E' as [[]|[Hf _]].
    apply set_has_str_In in Hf. congruence.
Qed.


Lemma branching_game_keys : NoDup (map fst (sections branching_game)).
Proof.
  cbn. constructor.
  - intros [H|[]]. discriminate H.
  - constructor; [intros [] | constructor].
Qed.

Lemma plain_game_keys : NoDup (map fst (sections plain_game)).
Proof. exact branching_game_keys. Qed.


(** On [plain_game]: no marker, and the section outside the flow left
    out. *)
Example compile_plain_game :
  hasBranchingCommands plain_game = false
  /\ compile_frames plain_game tt
     = Return (tt, [PGP.setSpeed 10000; PGP.feed 10; PGP.feed 16; PGP.stop]).
Proof. split; vm_compute; reflexivity. Qed.

(** ** The section table has distinct keys *)

Lemma map_set_keys {A} k (a : A) m x :
  In x (map fst (map_set k a m)) <-> In x (map fst m) \/ x = k.
Proof.
  induction m as [|[k' a'] m IH]; cbn [map_set map fst In].
  - intuition.
  - destruct (String.eqb k k') eqn:E; cbn [map fst In].
    + apply String.eqb_eq in E. subst k'. intuition.
    + rewrite IH. intuition.
Qed.

Lemma map_set_NoDup {A} k (a : A) m :
  NoDup (map fst m) -> NoDup (map fst (map_set k a m)).
Proof.
  induction m as [|[k' a'] m IH]; intros H; cbn [map_set map fst].
  - repeat constructor. intros [].
  - cbn [map fst] in H. inversion H as [|? ? Hk Hnd]; subst.
    destruct (String.eqb k k') eqn:E; cbn [map fst].
    + apply String.eqb_eq in E. subst k'. now constructor.
    + constructor; [|now apply IH].
      rewrite map_set_keys. intros [Hin| -> ]; [contradiction|].
      rewrite String.eqb_refl in E. discriminate.
Qed.

(** [Game.section] and [Game.setFlow] keep the keys of the table distinct. *)
Lemma Game_section_keys {Vars} (s : SectionT Vars) g :
  NoDup (map fst (sections g)) ->
  NoDup (map fst (sections (Game_section s g))).
Proof. apply map_set_NoDup. Qed.

Lemma Game_setFlow_keys {Vars} ids (g : Game Vars) :
  NoDup (map fst (sections g)) ->
  NoDup (map fst (sections (Game_setFlow ids g))).
Proof. intros H. exact H. Qed.

(** ** Further properties of the frame codec *)

Lemma crc8_step_self c : PGP.crc8_step c c = 0.
Proof. unfold PGP.crc8_step. rewrite Z.lxor_nilpotent. reflexivity. Qed.

Lemma crc8_app data more :
  PGP.crc8 (data ++ more) = fold_left PGP.crc8_step more (PGP.crc8 data).
Proof. unfold PGP.crc8. apply fold_left_app. Qed.

(** X1. The checksum byte makes the CRC of everything after the sync byte
    zero: for any command and payload, [crc8] over the command byte, the
    length bytes, the payload and the checksum of the frame [frame] built is
    0, and the frame starts with the sync byte. *)
Theorem frame_crc_residue_zero (cmd : Z) (payload : list Z) :
  hd 0 (PGP.frame cmd payload) = 0xE0
  /\ PGP.crc8 (tl (PGP.frame cmd payload)) = 0.
Proof.
  rewrite frame_layout. cbn [app hd tl]. split; [reflexivity|].
  set (lo := Z.land (Z.of_nat (length payload)) 255).
  set (hi := Z.land (Z.shiftr (Z.of_nat (length payload)) 8) 255).
  change (U8.wrap cmd :: lo :: hi :: U8.of_array payload ++ ?t)
    with (([U8.wrap cmd; lo; hi] ++ U8.of_array payload) ++ t).
  rewrite crc8_app, wrap_byte by apply crc8_range.
  cbn [fold_left]. apply crc8_step_self.
Qed.

Lemma lxor_cancel_l a b b' : Z.lxor a b = Z.lxor a b' -> b = b'.
Proof.
  intros H. rewrite <- (Z.lxor_0_l b), <- (Z.lxor_0_l b').
  rewrite <- (Z.lxor_nilpotent a), !Z.lxor_assoc. now rewrite H.
Qed.

Lemma lxor_byte_table :
  forallb (fun c => forallb (fun b => (0 <=? Z.lxor c b) && (Z.lxor c b <? 256))
                            all_bytes) all_bytes = true.
Proof. vm_compute. reflexivity. Qed.

Lemma lxor_byte c b : 0 <= c < 256 -> 0 <= b < 256 -> 0 <= Z.lxor c b < 256.
Proof.
  intros Hc Hb. pose proof lxor_byte_table as T.
  rewrite forallb_forall in T. specialize (T c (in_all_bytes c Hc)).
  rewrite forallb_forall in T. specialize (T b (in_all_bytes b Hb)).
  apply andb_true_iff in T. lia.
Qed.

(** The table of the CRC, [x |-> crc8_step 0 x], takes 256 distinct values
    (by enumeration). *)
Lemma crc8_table_injective_table :
  forallb (fun x => forallb (fun y => negb (PGP.crc8_step 0 x =? PGP.crc8_step 0 y)
                                      || (x =? y))
                            all_bytes) all_bytes = true.
Proof. vm_compute. reflexivity. Qed.

Lemma crc8_table_injective x y :
  0 <= x < 256 -> 0 <= y < 256 ->
  PGP.crc8_step 0 x = PGP.crc8_step 0 y -> x = y.
Proof.
  intros Hx Hy E. pose proof crc8_table_injective_table as T.
  rewrite forallb_forall in T. specialize (T x (in_all_bytes x Hx)).
  rewrite forallb_forall in T. specialize (T y (in_all_bytes y Hy)).
  rewrite E, Z.eqb_refl in T. cbn in T. now apply Z.eqb_eq.
Qed.

Lemma crc8_step_via_table c b : PGP.crc8_step c b = PGP.crc8_step 0 (Z.lxor c b).
Proof. unfold PGP.crc8_step. now rewrite Z.lxor_0_l. Qed.

Lemma crc8_step_injective_byte c b b' :
  0 <= c < 256 -> 0 <= b < 256 -> 0 <= b' < 256 ->
  PGP.crc8_step c b = PGP.crc8_step c b' -> b = b'.
Proof.
  intros Hc Hb Hb' E. rewrite !(crc8_step_via_table c) in E.
  apply crc8_table_injective in E; try (apply lxor_byte; assumption).
  now apply lxor_cancel_l in E.
Qed.

Lemma crc8_step_injective_reg c c' b :
  0 <= c < 256 -> 0 <= c' < 256 -> 0 <= b < 256 ->
  PGP.crc8_step c b = PGP.crc8_step c' b -> c = c'.
Proof.
  intros Hc Hc' Hb E. rewrite (crc8_step_via_table c), (crc8_step_via_table c') in E.
  apply crc8_table_injective in E; try (apply lxor_byte; assumption).
  rewrite (Z.lxor_comm c), (Z.lxor_comm c') in E.
  now apply lxor_cancel_l in E.
Qed.

Lemma crc8_fold_injective post :
  U8.bytes post ->
  forall c c', 0 <= c < 256 -> 0 <= c' < 256 ->
    fold_left PGP.crc8_step post c = fold_left PGP.crc8_step post c' -> c = c'.
Proof.
  induction 1 as [|b post Hb _ IH]; intros c c' Hc Hc' E; cbn in E.
  - exact E.
  - apply IH in E; try apply crc8_step_range.
    now apply crc8_step_injective_reg in E.
Qed.

(** X2. [crc8] tells apart any two byte sequences that differ in exactly one
    byte: a corruption confined to one byte of a frame always changes the
    checksum. *)
Theorem crc8_detects_one_byte (pre post : list Z) (b b' : Z) :
  U8.bytes post -> 0 <= b < 256 -> 0 <= b' < 256 -> b <> b' ->
  PGP.crc8 (pre ++ b :: post) <> PGP.crc8 (pre ++ b' :: post).
Proof.
  intros Hpost Hb Hb' Hne E. rewrite !crc8_app in E. cbn [fold_left] in E.
  apply crc8_fold_injective in E;
    try assumption; try apply crc8_step_range.
  apply crc8_step_injective_byte in E; try assumption; [contradiction|].
  apply crc8_range.
Qed.

Lemma crc8_detects_one_byte_witness :
  PGP.crc8 ([0x20; 2; 0] ++ 16 :: [0]) <> PGP.crc8 ([0x20; 2; 0] ++ 17 :: [0]).
Proof.
  apply (crc8_detects_one_byte [0x20; 2; 0] [0] 16 17).
  - unfold U8.bytes. repeat constructor; lia.
  - lia.
  - lia.
  - discriminate.
Defined.

Lemma u16_split v :
  v mod 65536 = v mod 256 + 256 * ((v / 256) mod 256).
Proof. change 65536 with (256 * 256). apply Z.rem_mul_r; lia. Qed.

Lemma writeU16LE_mod v : PGP.writeU16LE v = [v mod 256; (v / 256) mod 256].
Proof.
  unfold PGP.writeU16LE. now rewrite length_field_hi, length_field_lo.
Qed.

Lemma writeU16BE_mod v : PGP.writeU16BE v = [(v / 256) mod 256; v mod 256].
Proof.
  unfold PGP.writeU16BE. now rewrite length_field_hi, length_field_lo.
Qed.

Lemma u16_mod_idem v :
  (v mod 65536) mod 256 = v mod 256
  /\ ((v mod 65536) / 256) mod 256 = (v / 256) mod 256.
Proof.
  pose proof (u16_split v) as H.
  pose proof (Z.mod_pos_bound v 256).
  pose proof (Z.mod_pos_bound (v / 256) 256).
  assert (Hr : (v mod 65536) mod 256 = v mod 256).
  { symmetry. apply (Z.mod_unique _ _ ((v / 256) mod 256)); lia. }
  assert (Hq : (v mod 65536) / 256 = (v / 256) mod 256).
  { symmetry. apply (Z.div_unique _ _ _ (v mod 256)); lia. }
  split; [exact Hr|]. rewrite Hq. apply Z.mod_mod. lia.
Qed.

(** X3. A 16-bit field holds its value modulo 65536, for every integer,
    negative or too large included: the two bytes written are those of
    [v mod 65536], low byte first in the general commands and high byte
    first in the branching ones, so a speed, a feed length, a label id or a
    variable value and its residue give the same frame. *)
Theorem u16_fields_wrap (v : Z) :
  (exists lo hi,
     PGP.writeU16LE v = [lo; hi] /\ PGP.writeU16BE v = [hi; lo]
     /\ 0 <= lo < 256 /\ 0 <= hi < 256 /\ lo + 256 * hi = v mod 65536)
  /\ PGP.setSpeed v = PGP.setSpeed (v mod 65536)
  /\ PGP.setHeat v = PGP.setHeat (v mod 65536)
  /\ PGP.feed v = PGP.feed (v mod 65536)
  /\ PGP.label v = PGP.label (v mod 65536)
  /\ PGP.jump v = PGP.jump (v mod 65536)
  /\ (forall varId, PGP.setVar varId v = PGP.setVar varId (v mod 65536)).
Proof.
  destruct (u16_mod_idem v) as [Hlo Hhi].
  assert (HLE : PGP.writeU16LE v = PGP.writeU16LE (v mod 65536))
    by (now rewrite !writeU16LE_mod, Hlo, Hhi).
  assert (HBE : PGP.writeU16BE v = PGP.writeU16BE (v mod 65536))
    by (now rewrite !writeU16BE_mod, Hlo, Hhi).
  destruct content_fields_little_endian as (Hspeed & Hheat & Hfeed & _).
  destruct branch_fields_big_endian as (Hlabel & Hjump & _ & _ & Hvar & _).
  split; [|repeat split].
  - exists (v mod 256), ((v / 256) mod 256).
    rewrite writeU16LE_mod, writeU16BE_mod.
    repeat split; try apply Z.mod_pos_bound; try lia.
    symmetry. apply u16_split.
  - now rewrite !Hspeed, HLE.
  - now rewrite !Hheat, HLE.
  - now rewrite !Hfeed, HLE.
  - unfold PGP.label. now rewrite !Hlabel, HBE.
  - unfold PGP.jump. now rewrite !Hjump, HBE.
  - intros varId. unfold PGP.setVar. now rewrite !Hvar, HBE.
Qed.

Lemma shifted_byte v k :
  0 <= k -> Z.land (Z.shiftr v k) 0xFF = (v / 2 ^ k) mod 256.
Proof.
  intros Hk. change 0xFF with (Z.ones 8). rewrite Z.land_ones by lia.
  now rewrite Z.shiftr_div_pow2 by lia.
Qed.

Lemma four_bytes_sum s :
  s mod 256 + 256 * ((s / 256) mod 256) + 65536 * ((s / 65536) mod 256)
  + 16777216 * ((s / 16777216) mod 256)
  = s mod 4294967296.
Proof.
  replace (s / 65536) with (s / 256 / 256)
    by (rewrite Z.div_div by lia; reflexivity).
  replace (s / 16777216) with (s / 256 / 256 / 256)
    by (rewrite !Z.div_div by lia; reflexivity).
  pose proof (Z.div_mod s 256).
  pose proof (Z.div_mod (s / 256) 256).
  pose proof (Z.div_mod (s / 256 / 256) 256).
  pose proof (Z.div_mod (s / 256 / 256 / 256) 256).
  pose proof (Z.mod_pos_bound s 256).
  pose proof (Z.mod_pos_bound (s / 256) 256).
  pose proof (Z.mod_pos_bound (s / 256 / 256) 256).
  pose proof (Z.mod_pos_bound (s / 256 / 256 / 256) 256).
  apply (Z.mod_unique _ _ (s / 256 / 256 / 256 / 256)); lia.
Qed.

(** X4. The payload of a SYNC frame is the sequence number modulo 2^32 in
    four bytes, least significant first. *)
Theorem sync_payload_little_endian (seq : Z) :
  exists b0 b1 b2 b3,
    sync_payload seq = [b0; b1; b2; b3]
    /\ U8.bytes [b0; b1; b2; b3]
    /\ b0 + 256 * b1 + 65536 * b2 + 16777216 * b3 = seq mod 4294967296
    /\ PGP_sync seq = PGP_sync (seq mod 4294967296).
Proof.
  assert (Hp : forall s, sync_payload s
                 = [s mod 256; (s / 256) mod 256; (s / 65536) mod 256;
                    (s / 16777216) mod 256]).
  { intros s. unfold sync_payload, U8.make. cbn [repeat U8.store].
    rewrite !wrap_land_255, length_field_lo.
    rewrite !shifted_byte by lia. reflexivity. }
  exists (seq mod 256), ((seq / 256) mod 256), ((seq / 65536) mod 256),
         ((seq / 16777216) mod 256).
  split; [apply Hp|]. split; [|split; [apply four_bytes_sum|]].
  - unfold U8.bytes. repeat constructor; apply Z.mod_pos_bound; lia.
  - unfold PGP_sync. f_equal. rewrite !Hp.
    set (m := seq mod 4294967296).
    pose proof (four_bytes_sum seq) as Hs. pose proof (four_bytes_sum m) as Hm.
    unfold m in Hm at 5. rewrite Z.mod_mod in Hm by lia.
    pose proof (Z.mod_pos_bound seq 256).
    pose proof (Z.mod_pos_bound (seq / 256) 256).
    pose proof (Z.mod_pos_bound (seq / 65536) 256).
    pose proof (Z.mod_pos_bound (seq / 16777216) 256).
    pose proof (Z.mod_pos_bound m 256).
    pose proof (Z.mod_pos_bound (m / 256) 256).
    pose proof (Z.mod_pos_bound (m / 65536) 256).
    pose proof (Z.mod_pos_bound (m / 16777216) 256).
    assert (E0 : seq mod 256 = m mod 256) by lia.
    assert (E1 : (seq / 256) mod 256 = (m / 256) mod 256) by lia.
    assert (E2 : (seq / 65536) mod 256 = (m / 65536) mod 256) by lia.
    assert (E3 : (seq / 16777216) mod 256 = (m / 16777216) mod 256) by lia.
    now rewrite E0, E1, E2, E3.
Qed.

(** A frame on a well-formed input, byte by byte. *)
Lemma frame_of_input cp :
  frame_input cp ->
  exists lo hi,
    0 <= lo < 256 /\ 0 <= hi < 256
    /\ lo + 256 * hi = Z.of_nat (length (snd cp))
    /\ frame_of cp
       = PGP.SYNC :: fst cp :: lo :: hi
           :: snd cp ++ [PGP.crc8 (fst cp :: lo :: hi :: snd cp)].
Proof.
  destruct cp as [c p]. unfold frame_input, frame_of. cbn [fst snd].
  intros (Hc & Hp & Hlen).
  set (len := Z.of_nat (length p)).
  assert (Hhi : 0 <= len / 256 < 256).
  { split; [apply Z.div_pos | apply Z.div_lt_upper_bound]; unfold len; lia. }
  exists (len mod 256), (len / 256).
  split; [apply Z.mod_pos_bound; lia|]. split; [exact Hhi|].
  split; [pose proof (Z.div_mod len 256); lia|].
  rewrite frame_layout, length_field_hi, length_field_lo. fold len.
  rewrite (Z.mod_small (len / 256)) by exact Hhi.
  rewrite (wrap_byte c Hc), (of_array_bytes p Hp).
  rewrite wrap_byte by apply crc8_range. reflexivity.
Qed.

(** X5. The byte stream is uniquely readable: concatenating the frames of
    any list of commands with byte payloads of at most 65535 bytes, and
    reading the stream back frame by frame (sync byte, command, length,
    payload, checksum checked with [crc8]), gives exactly that list. *)
Theorem read_frames_concat (cps : list (Z * list Z)) :
  Forall frame_input cps ->
  forall fuel, (length cps <= fuel)%nat ->
    read_frames fuel (concatFrames (map frame_of cps)) = Some cps.
Proof.
  unfold concatFrames.
  induction 1 as [|cp cps Hcp _ IH]; intros fuel Hfuel.
  - destruct fuel; reflexivity.
  - destruct fuel as [|fuel]; [cbn in Hfuel; lia|].
    cbn [map concat].
    destruct (frame_of_input cp Hcp) as (lo & hi & Hlo & Hhi & Hlen & ->).
    cbn [app read_frames]. rewrite Hlen, Nat2Z.id.
    change (PGP.SYNC =? PGP.SYNC) with true. cbn match.
    rewrite <- app_assoc. cbn [app].
    rewrite skipn_app, skipn_all, Nat.sub_diag. cbn [skipn app].
    rewrite firstn_app, firstn_all, Nat.sub_diag. cbn [firstn].
    rewrite app_nil_r, Z.eqb_refl.
    rewrite IH by (cbn in Hfuel; lia).
    destruct cp; reflexivity.
Qed.

(** The trailer of every program, read back. *)
Lemma read_frames_concat_witness :
  read_frames 2 (concatFrames (map frame_of [(0x20, [16; 0]); (0x23, [])]))
  = Some [(0x20, [16; 0]); (0x23, [])].
Proof.
  apply (read_frames_concat [(0x20, [16; 0]); (0x23, [])]).
  - repeat constructor; cbn; try lia.
  - cbn. lia.
Defined.

Lemma set_from_at src pre a :
  U8.set_from src (length pre) (pre ++ a) = pre ++ U8.overwrite src a.
Proof.
  induction pre as [|x pre IH]; cbn [length app U8.set_from].
  - destruct src; reflexivity.
  - now rewrite IH.
Qed.

Lemma total_length frames n :
  fold_left (fun s (f : list Z) => (s + length f)%nat) frames n
  = (n + length (concat frames))%nat.
Proof.
  revert n. induction frames as [|f frames IH]; intros n; cbn [fold_left concat].
  - cbn. lia.
  - rewrite IH, length_app. lia.
Qed.

Lemma concat_loop_fills frames :
  forall pre,
    concat_loop frames (length pre)
                (pre ++ repeat 0 (length (concat frames)))
    = pre ++ concat (map U8.of_array frames).
Proof.
  induction frames as [|f frames IH]; intros pre; cbn [concat_loop concat map].
  - reflexivity.
  - rewrite length_app, repeat_app, set_from_at, overwrite_exact.
    replace (length pre + length f)%nat with (length (pre ++ U8.of_array f))
      by (now rewrite length_app, of_array_length).
    rewrite app_assoc, IH. now rewrite <- app_assoc.
Qed.

(** X6. [_concatFrames], followed statement by statement (a total, a zeroed
    array of that size, then one [set] per frame at a running offset),
    returns the frames one after the other, nothing dropped and no gap; its
    length is the sum of theirs. *)
Theorem concatFrames_loop_is_concat (frames : list (list Z)) :
  concatFrames_loop frames = concatFrames (map U8.of_array frames)
  /\ (Forall U8.bytes frames -> concatFrames_loop frames = concatFrames frames)
  /\ length (concatFrames_loop frames)
     = fold_right (fun f n => (length f + n)%nat) 0%nat frames.
Proof.
  assert (H : concatFrames_loop frames = concat (map U8.of_array frames)).
  { unfold concatFrames_loop, U8.make. rewrite total_length. cbn [Nat.add].
    apply (concat_loop_fills frames []). }
  split; [exact H|]. split.
  - intros Hb. rewrite H. unfold concatFrames. f_equal. clear H.
    induction Hb as [|f fs Hf _ IH]; cbn [map]; [reflexivity|].
    now rewrite (of_array_bytes f Hf), IH.
  - rewrite H. clear H. induction frames as [|f frames IH]; cbn; [reflexivity|].
    now rewrite length_app, of_array_length, IH.
Qed.

(** ** Further properties of the line compressor *)

Lemma run_length_maximal rest val :
  forall c, (1 <= c <= 255)%nat ->
  exists k, PGP.run_length rest val c = (c + k)%nat
            /\ (k <= length rest)%nat /\ (c + k <= 255)%nat
            /\ (k = length rest \/ (c + k = 255)%nat \/ nth k rest 0 <> val).
Proof.
  induction rest as [|b rest IH]; intros c Hc; cbn [PGP.run_length length].
  - exists 0%nat. split; [lia|]. split; [lia|]. split; [lia|]. now left.
  - destruct (b =? val) eqn:Eb; cbn [andb].
    + destruct (c <? 255)%nat eqn:Ec.
      * apply Nat.ltb_lt in Ec.
        destruct (IH (S c)) as (k & Hk & Hlen & Hmax & Hend); [lia|].
        exists (S k). split; [lia|]. split; [lia|]. split; [lia|].
        cbn [nth]. destruct Hend as [H|[H|H]].
        -- left. lia.
        -- right. left. lia.
        -- right. right. exact H.
      * apply Nat.ltb_ge in Ec. exists 0%nat.
        split; [lia|]. split; [lia|]. split; [lia|]. right. left. lia.
    + apply Z.eqb_neq in Eb. exists 0%nat.
      split; [lia|]. split; [lia|]. split; [lia|]. right. right. exact Eb.
Qed.

Lemma nth_skipn (arr : list Z) i k : nth k (skipn i arr) 0 = nth (i + k) arr 0.
Proof.
  revert arr. induction i as [|i IH]; intros arr; [reflexivity|].
  destruct arr as [|a arr]; [now destruct k|]. apply IH.
Qed.

(** The outer loop again: the runs it writes are maximal, each count at
    most the number of bytes left, and the first run carries the byte under
    [i]. *)
Lemma rle_loop_maximal turns :
  forall arr i rle,
    U8.bytes arr -> (i <= length arr)%nat -> (length arr - i <= turns)%nat ->
    exists enc,
      PGP.rle_loop turns arr i rle = Some (rle ++ enc)
      /\ U8.bytes enc
      /\ runs_maximal enc
      /\ Forall (fun c => 1 <= c <= Z.of_nat (length arr)) (rle_counts enc)
      /\ length enc = (2 * length (rle_counts enc))%nat
      /\ ((i < length arr)%nat -> exists c rest, enc = c :: nth i arr 0 :: rest)
      /\ (i = length arr -> enc = []).
Proof.
  induction turns as [|turns IH]; intros arr i rle Harr Hi Hturns.
  - exists []. rewrite rle_loop_done by lia. rewrite app_nil_r.
    repeat split; try constructor; try lia.
  - destruct (Nat.eq_dec i (length arr)) as [E|E].
    + exists []. rewrite rle_loop_done by lia. rewrite app_nil_r.
      repeat split; try constructor; try lia.
    + assert (Hlt : (i < length arr)%nat) by lia.
      rewrite rle_loop_turn by exact Hlt.
      set (val := nth i arr 0).
      destruct (run_length_maximal (skipn (S i) arr) val 1%nat)
        as (k & Hk & Hklen & Hkmax & Hend); [lia|].
      rewrite Hk. rewrite length_skipn in Hklen, Hend.
      rewrite nth_skipn in Hend.
      destruct (IH arr (i + (1 + k))%nat (rle ++ [Z.of_nat (1 + k); val]))
        as (enc & Henc & Hbytes & Hmax & Hcounts & Hlen & Hhead & Hnil);
        [exact Harr | lia | lia |].
      exists ([Z.of_nat (1 + k); val] ++ enc).
      split; [|split; [|split; [|split; [|split; [|split]]]]].
      * rewrite Henc. now rewrite <- app_assoc.
      * unfold U8.bytes. cbn [app]. constructor; [lia|].
        constructor; [apply bytes_nth, Harr | exact Hbytes].
      * cbn [app runs_maximal].
        destruct (Nat.eq_dec (i + (1 + k)) (length arr)) as [Eend|Eend].
        { rewrite (Hnil Eend). exact I. }
        destruct Hhead as (c & rest & ->); [lia|].
        split; [|exact Hmax].
        destruct Hend as [H|[H|H]]; [lia | right; lia | left].
        intros Heq. apply H. rewrite Heq. f_equal. lia.
      * cbn [app rle_counts]. constructor; [lia | exact Hcounts].
      * cbn [app rle_counts length]. lia.
      * intros _. exists (Z.of_nat (1 + k)), enc. reflexivity.
      * intros Hcontra. lia.
Qed.

Lemma pairs_ind (P : list Z -> Prop) :
  P [] -> (forall a, P [a]) -> (forall a b l, P l -> P (a :: b :: l)) ->
  forall l, P l.
Proof.
  intros H0 H1 H2. fix IH 1. intros [|a [|b l]].
  - exact H0.
  - apply H1.
  - apply H2, IH.
Qed.

Lemma runs_maximal_differ enc :
  Forall (fun c => 1 <= c < 255) (rle_counts enc) ->
  runs_maximal enc -> runs_differ enc.
Proof.
  induction enc as [|a|c1 v1 rest IH] using pairs_ind; intros Hc Hm;
    try exact I.
  cbn [runs_maximal runs_differ rle_counts] in *.
  inversion Hc as [|? ? Hc1 Hc2]; subst.
  destruct rest as [|c2 [|v2 rest']]; try exact I.
  destruct Hm as [Hv Hm]. split.
  - destruct Hv as [Hv|Hv]; [exact Hv | lia].
  - apply IH; assumption.
Qed.

(** X7. In the run-length form of a 72-byte line no two neighbouring pairs
    carry the same value: every run is as long as it can be.  The form has
    between 1 and 72 pairs, an even number of bytes from 2 to 144. *)
Theorem rleEncode_runs_differ (L : list Z) :
  U8.bytes L -> length L = 72%nat ->
  exists rle,
    PGP.rleEncode L = Some rle
    /\ runs_differ rle
    /\ (2 <= length rle <= 144)%nat
    /\ Nat.even (length rle) = true.
Proof.
  intros HL Hlen. unfold PGP.rleEncode.
  rewrite (of_array_bytes L HL), Hlen. cbn [Nat.eqb negb]. rewrite <- Hlen.
  destruct (rle_loop_maximal (length L) L 0%nat [] HL)
    as (enc & Henc & Hbytes & Hmax & Hcounts & Hpairs & Hhead & _);
    [lia | lia |].
  rewrite Henc. cbn [app]. rewrite (of_array_bytes enc Hbytes).
  exists enc. split; [reflexivity|].
  assert (Hsum : sum_Z (rle_counts enc) = 72).
  { destruct (rle_loop_correct (length L) L 0%nat [] HL)
      as (enc' & Henc' & Hexp & Hc' & _ & Hp'); [lia | lia |].
    rewrite Henc in Henc'. cbn [app] in Henc'. injection Henc' as <-.
    rewrite <- (rle_expand_length enc Hc' Hp'), Hexp. cbn [skipn].
    now rewrite Hlen. }
  assert (Hn : Z.of_nat (length (rle_counts enc)) <= sum_Z (rle_counts enc)).
  { clear - Hcounts.
    induction Hcounts as [|c cs Hc _ IH]; cbn [length sum_Z fold_right] in *.
    - lia.
    - unfold sum_Z in IH. lia. }
  destruct Hhead as (c & rest & Hcons); [lia|].
  split; [|split].
  - apply runs_maximal_differ; [|exact Hmax].
    eapply Forall_impl; [|exact Hcounts]. cbn. intros a Ha. lia.
  - rewrite Hpairs. split; [|lia]. rewrite Hcons. cbn [rle_counts length]. lia.
  - rewrite Hpairs. clear. induction (length (rle_counts enc)) as [|n IH].
    + reflexivity.
    + replace (2 * S n)%nat with (S (S (2 * n))) by lia. exact IH.
Qed.

Lemma rleEncode_runs_differ_witness :
  exists rle,
    PGP.rleEncode striped_line = Some rle
    /\ runs_differ rle
    /\ (2 <= length rle <= 144)%nat
    /\ Nat.even (length rle) = true.
Proof.
  apply (rleEncode_runs_differ striped_line).
  - unfold U8.bytes, striped_line. simpl. repeat constructor; lia.
  - reflexivity.
Defined.

Lemma frame_length cmd payload :
  length (PGP.frame cmd payload) = (5 + length payload)%nat.
Proof.
  rewrite frame_layout. cbn [app length].
  rewrite length_app, of_array_length. cbn [length]. lia.
Qed.

Lemma rleEncode_of_array data :
  PGP.rleEncode (U8.of_array data) = PGP.rleEncode data.
Proof. unfold PGP.rleEncode. now rewrite of_array_idem. Qed.

(** X8. [rawLineRle] never sends more than the raw line: its frame has at
    most [5 + length] bytes, and when it is a RAW_LINE_RLE frame the input
    had 72 bytes and the frame has at most 67, ten fewer than the raw frame
    of 77.  An input of another width is not refused: it goes out as a
    RAW_LINE frame of its own length. *)
Theorem rawLineRle_never_longer (data : list Z) :
  (length (PGP.rawLineRle data) <= 5 + length data)%nat
  /\ (frame_cmd (PGP.rawLineRle data) = PGP.CMD.RAW_LINE_RLE ->
      length data = 72%nat /\ (length (PGP.rawLineRle data) <= 67)%nat)
  /\ (length data <> 72%nat ->
      PGP.rawLineRle data = PGP.frame PGP.CMD.RAW_LINE (U8.of_array data)).
Proof.
  assert (Hraw : length (PGP.rawLine data) = (5 + length data)%nat)
    by (unfold PGP.rawLine; now rewrite frame_length, of_array_length).
  assert (Hrawcmd : frame_cmd (PGP.rawLine data) <> PGP.CMD.RAW_LINE_RLE)
    by (unfold PGP.rawLine; rewrite frame_cmd_frame; discriminate).
  destruct (Nat.eq_dec (length data) 72) as [Hlen|Hlen].
  - destruct (rleEncode_line (U8.of_array data) (of_array_is_bytes data))
      as (rle & Henc & _ & _ & _ & Hpairs);
      [now rewrite of_array_length|].
    rewrite rleEncode_of_array in Henc.
    unfold PGP.rawLineRle. rewrite Henc.
    destruct (length rle <? 64)%nat eqn:E.
    + apply Nat.ltb_lt in E. rewrite frame_length.
      split; [lia|]. split; [intros _; lia | contradiction].
    + split; [lia|]. split; [contradiction | contradiction].
  - unfold PGP.rawLineRle. rewrite (rleEncode_wrong_width data Hlen).
    split; [lia|]. split; [contradiction | reflexivity].
Qed.

(** ** Further properties of the font resolver *)

Lemma font_byte_table :
  forallb (fun bf =>
     forallb (fun sc =>
        let b := encodeFontByte bf sc in
        (0 <=? b) && (b <? 256)
        && (fst (decodeFontByte b) =? bf) && (snd (decodeFontByte b) =? sc)
        && Bool.eqb (b <? 4) ((bf <=? 1) && (sc <=? 2)))
       (Z_range 1 63))
    (Z_range 0 4) = true.
Proof. vm_compute. reflexivity. Qed.

Lemma in_Z_range lo n v : lo <= v < lo + Z.of_nat n -> In v (Z_range lo n).
Proof.
  intros H. unfold Z_range. apply in_map_iff.
  exists (Z.to_nat (v - lo)). split; [lia|]. apply in_seq. lia.
Qed.

(** X9. A font byte can be read back: for a base font 0 to 3 and a scale 1
    to 63, [encodeFontByte] gives a byte from which the base font and the
    scale are recovered (legacy index below 4, base font in bits 0-1 and
    scale in bits 2-7 otherwise), and the byte is a legacy one exactly for
    base fonts 0 and 1 at scales 1 and 2. *)
Theorem encodeFontByte_roundtrip (baseFont scale : Z) :
  0 <= baseFont <= 3 -> 1 <= scale <= 63 ->
  decodeFontByte (encodeFontByte baseFont scale) = (baseFont, scale)
  /\ 0 <= encodeFontByte baseFont scale < 256
  /\ (encodeFontByte baseFont scale < 4 <-> baseFont <= 1 /\ scale <= 2).
Proof.
  intros Hb Hs. pose proof font_byte_table as T.
  rewrite forallb_forall in T.
  specialize (T baseFont (in_Z_range 0 4 baseFont ltac:(lia))).
  rewrite forallb_forall in T.
  specialize (T scale (in_Z_range 1 63 scale ltac:(lia))).
  cbv zeta in T. repeat rewrite andb_true_iff in T.
  destruct T as [[[[T1 T2] T3] T4] T5].
  apply Z.eqb_eq in T3, T4. apply Bool.eqb_prop in T5.
  split; [|split; [lia|]].
  - destruct (decodeFontByte (encodeFontByte baseFont scale)). cbn in *.
    congruence.
  - rewrite <- Z.ltb_lt, T5, andb_true_iff, !Z.leb_le. reflexivity.
Qed.

Lemma encodeFontByte_roundtrip_witness :
  decodeFontByte (encodeFontByte 2 15) = (2, 15)
  /\ 0 <= encodeFontByte 2 15 < 256
  /\ (encodeFontByte 2 15 < 4 <-> 2 <= 1 /\ 15 <= 2).
Proof. apply (encodeFontByte_roundtrip 2 15); lia. Defined.

Lemma size_scale_range q : 1 <= Z.max 1 (Z.min 15 q) <= 15.
Proof. lia. Qed.

Lemma font_byte_decodes bf sc :
  0 <= bf <= 3 -> 1 <= sc <= 63 ->
  decodeFontByte (encodeFontByte bf sc) = (bf, sc)
  /\ 0 <= encodeFontByte bf sc < 256.
Proof.
  intros Hb Hs. pose proof font_byte_table as T.
  rewrite forallb_forall in T.
  specialize (T bf (in_Z_range 0 4 bf ltac:(lia))).
  rewrite forallb_forall in T.
  specialize (T sc (in_Z_range 1 63 sc ltac:(lia))).
  cbv zeta in T. repeat rewrite andb_true_iff in T.
  destruct T as [[[[T1 T2] T3] T4] _].
  apply Z.eqb_eq in T3, T4. split; [|lia].
  destruct (decodeFontByte (encodeFontByte bf sc)). cbn in *. congruence.
Qed.


(** X11. A legacy font index 0 to 3 passes through unchanged: for a string
    without CJK characters, [Section.text] with [{ font: f }] compiles to a
    TEXT frame whose font byte is [f], and the height and the character
    width of the pair it stands for are the entries [FONT_HEIGHTS[f]] and
    [FONT_CHAR_W[f]] of the legacy tables. *)
Theorem legacy_font_passthrough (f x : Z) (str : Js.str) :
  0 <= f <= 3 -> hasCJK str = false ->
  blockToPGP (Section_text x str (font_opts f)) = [PGP.text x 0 f str]
  /\ decodeFontByte f = legacy_font f
  /\ getFontHeight (fst (legacy_font f)) (snd (legacy_font f))
     = array_get FONT_HEIGHTS f
  /\ getFontCharW (fst (legacy_font f)) (snd (legacy_font f))
     = array_get FONT_CHAR_W f.
Proof.
  intros Hf Hcjk.
  assert (E : f = 0 \/ f = 1 \/ f = 2 \/ f = 3) by lia.
  unfold Section_text, font_opts. cbn [size font blockToPGP]. rewrite Hcjk.
  destruct E as [ -> | [ -> | [ -> | -> ]]]; repeat split; reflexivity.
Qed.

Lemma legacy_font_passthrough_witness :
  blockToPGP (Section_text 0 str_OK (font_opts 3)) = [PGP.text 0 0 3 str_OK]
  /\ decodeFontByte 3 = legacy_font 3
  /\ getFontHeight (fst (legacy_font 3)) (snd (legacy_font 3))
     = array_get FONT_HEIGHTS 3
  /\ getFontCharW (fst (legacy_font 3)) (snd (legacy_font 3))
     = array_get FONT_CHAR_W 3.
Proof.
  apply (legacy_font_passthrough 3 0 str_OK).
  - lia.
  - reflexivity.
Defined.

(** ** Further properties of the line buffer *)

Lemma nth_store_same i v a :
  (i < length a)%nat -> nth i (U8.store i v a) 0 = U8.wrap v.
Proof.
  revert i. induction a as [|h t IH]; intros [|i] H; cbn in *; try lia.
  apply IH. lia.
Qed.

Lemma nth_store_other i j v a :
  i <> j -> nth j (U8.store i v a) 0 = nth j a 0.
Proof.
  revert i j. induction a as [|h t IH]; intros [|i] [|j] H; cbn; try reflexivity.
  - contradiction.
  - apply IH. congruence.
Qed.

Lemma store_bytes i v a : U8.bytes a -> U8.bytes (U8.store i v a).
Proof.
  unfold U8.bytes. intros H. revert i.
  induction H as [|h t Hh Ht IH]; intros [|i]; cbn; constructor; auto.
  apply wrap_range.
Qed.

Lemma modify_bytes op a : U8.bytes a -> U8.bytes (U8.modify op a).
Proof.
  intros H. destruct op as [i f]. unfold U8.modify.
  destruct ((0 <=? i) && (i <? Z.of_nat (length a))); [|exact H].
  now apply store_bytes.
Qed.

(** Setting or clearing one bit of a byte, seen through the pixel test (by
    enumeration of the bytes and the bit offsets). *)
Lemma bit_table :
  forallb (fun v => forallb (fun k => forallb (fun j =>
     let old := Z.land (Z.shiftr v (7 - j)) 1 in
     (Z.land (Z.shiftr (U8.wrap (Z.lor v (Z.shiftl 1 (7 - k)))) (7 - j)) 1
        =? (if j =? k then 1 else old))
     && (Z.land (Z.shiftr (U8.wrap (Z.land v (Z.lnot (Z.shiftl 1 (7 - k)))))
                          (7 - j)) 1
           =? (if j =? k then 0 else old)))
     bit_offsets) bit_offsets) all_bytes = true.
Proof. vm_compute. reflexivity. Qed.

Lemma bit_set_clear v k j :
  0 <= v < 256 -> 0 <= k < 8 -> 0 <= j < 8 ->
  Z.land (Z.shiftr (U8.wrap (Z.lor v (Z.shiftl 1 (7 - k)))) (7 - j)) 1
  = (if j =? k then 1 else Z.land (Z.shiftr v (7 - j)) 1)
  /\ Z.land (Z.shiftr (U8.wrap (Z.land v (Z.lnot (Z.shiftl 1 (7 - k)))))
                      (7 - j)) 1
     = (if j =? k then 0 else Z.land (Z.shiftr v (7 - j)) 1).
Proof.
  intros Hv Hk Hj. pose proof bit_table as T.
  rewrite forallb_forall in T. specialize (T v (in_all_bytes v Hv)).
  rewrite forallb_forall in T.
  specialize (T k (in_Z_range 0 8 k ltac:(lia))).
  rewrite forallb_forall in T.
  specialize (T j (in_Z_range 0 8 j ltac:(lia))).
  cbv zeta in T. apply andb_true_iff in T. destruct T as [T1 T2].
  apply Z.eqb_eq in T1, T2. auto.
Qed.

Lemma column_split x :
  0 <= x -> Z.shiftr x 3 = x / 8 /\ Z.land x 7 = x mod 8.
Proof.
  intros H. split.
  - now rewrite Z.shiftr_div_pow2 by lia.
  - change 7 with (Z.ones 3). now rewrite Z.land_ones by lia.
Qed.

(** One store of a drawing operation, seen through the pixel test. *)
Lemma row_bit_modify (on : bool) x a y :
  length a = BPL -> U8.bytes a -> 0 <= x < WIDTH -> 0 <= y < WIDTH ->
  row_bit (U8.modify (if on then set_bit x else clear_bit x) a) y
  = if y =? x then Z.b2z on else row_bit a y.
Proof.
  unfold BPL, WIDTH. intros Hlen Ha Hx Hy.
  destruct (column_split x) as [Hxi Hxo]; [lia|].
  destruct (column_split y) as [Hyi Hyo]; [lia|].
  assert (Hidx : 0 <= x / 8 < 72)
    by (split; [apply Z.div_pos | apply Z.div_lt_upper_bound]; lia).
  assert (Hidy : 0 <= y / 8 < 72)
    by (split; [apply Z.div_pos | apply Z.div_lt_upper_bound]; lia).
  pose proof (Z.mod_pos_bound x 8 ltac:(lia)) as Hxm.
  pose proof (Z.mod_pos_bound y 8 ltac:(lia)) as Hym.
  pose proof (Z.div_mod x 8 ltac:(lia)) as Hxd.
  pose proof (Z.div_mod y 8 ltac:(lia)) as Hyd.
  assert (Hguard : (0 <=? x / 8) && (x / 8 <? Z.of_nat (length a)) = true).
  { rewrite Hlen. apply andb_true_iff. split; [apply Z.leb_le | apply Z.ltb_lt];
      lia. }
  unfold row_bit. rewrite Hyi, Hyo.
  pose proof (bytes_nth a (Z.to_nat (x / 8)) Ha) as Hv.
  destruct (Z.eq_dec (y / 8) (x / 8)) as [Ei|Ei].
  - assert (Hsame : forall f,
              nth (Z.to_nat (y / 8))
                  (U8.modify (Z.shiftr x 3, f) a) 0
              = U8.wrap (f (nth (Z.to_nat (x / 8)) a 0))).
    { intros f. unfold U8.modify. rewrite Hxi, Hguard, Ei.
      apply nth_store_same. lia. }
    destruct (bit_set_clear (nth (Z.to_nat (x / 8)) a 0) (x mod 8) (y mod 8)
                Hv Hxm Hym) as [Hset Hclear].
    assert (Hcase : (y =? x) = (y mod 8 =? x mod 8)).
    { destruct (Z.eqb_spec y x), (Z.eqb_spec (y mod 8) (x mod 8));
        try reflexivity; try congruence; lia. }
    rewrite Hcase.
    destruct on; unfold set_bit, clear_bit; rewrite Hsame, Hxo;
      [rewrite Hset | rewrite Hclear];
      destruct (y mod 8 =? x mod 8); rewrite ?Ei; reflexivity.
  - assert (Hother : forall f,
              nth (Z.to_nat (y / 8)) (U8.modify (Z.shiftr x 3, f) a) 0
              = nth (Z.to_nat (y / 8)) a 0).
    { intros f. unfold U8.modify. rewrite Hxi, Hguard.
      apply nth_store_other. lia. }
    assert (Hne : (y =? x) = false) by (apply Z.eqb_neq; congruence).
    rewrite Hne.
    destruct on; unfold set_bit, clear_bit; now rewrite Hother.
Qed.

Lemma pixel_ops_inside_line x on :
  (0 <= x)%Q -> (x < inject_Z WIDTH)%Q ->
  pixel_ops x on = [if on then set_bit (Qfloor x) else clear_bit (Qfloor x)]
  /\ 0 <= Qfloor x < WIDTH.
Proof.
  intros H0 Hw.
  assert (G : Js.ltb x 0 || Js.geb x (inject_Z WIDTH) = false).
  { apply orb_false_iff. split.
    - destruct (Js.ltb x 0) eqn:E; [|reflexivity].
      apply js_ltb_lt in E. exfalso. exact (Qlt_not_le _ _ E H0).
    - destruct (Js.geb x (inject_Z WIDTH)) eqn:E; [|reflexivity].
      apply js_geb_le in E. exfalso. exact (Qlt_not_le _ _ Hw E). }
  split; [|now apply pixel_guard_passed].
  unfold pixel_ops. rewrite G. now destruct on.
Qed.

(** X12. Drawing a pixel and testing it: on a line buffer of 72 bytes,
    after [pixel(x, on)] with [0 <= x < 576] the pixel test of the preview
    gives [on] at column [floor x] and what it gave before at every other
    column. *)
Theorem pixel_then_test (x : Q) (on : bool) (c : LineContext) (y : Z) :
  length (_buf c) = 72%nat -> U8.bytes (_buf c) ->
  (0 <= x)%Q -> (x < inject_Z WIDTH)%Q -> 0 <= y < WIDTH ->
  row_bit (_buf (pixel x on c)) y
  = if y =? Qfloor x then Z.b2z on else row_bit (_buf c) y.
Proof.
  intros Hlen Hb H0 Hw Hy.
  destruct (pixel_ops_inside_line x on H0 Hw) as [Hops Hx].
  unfold pixel, with_buf. cbn [_buf]. rewrite Hops.
  cbn [U8.modify_all fold_left]. now apply row_bit_modify.
Qed.

Lemma pixel_then_test_witness :
  row_bit (_buf (pixel (21 # 2) true (new_LineContext 4))) 10
  = if 10 =? Qfloor (21 # 2) then Z.b2z true
    else row_bit (_buf (new_LineContext 4)) 10.
Proof.
  apply (pixel_then_test (21 # 2) true (new_LineContext 4) 10).
  - reflexivity.
  - unfold U8.bytes. cbn. repeat constructor; lia.
  - discriminate.
  - reflexivity.
  - unfold WIDTH. lia.
Defined.

Lemma set_bits_then_test xs :
  forall a,
    length a = BPL -> U8.bytes a -> Forall (fun x => 0 <= x < WIDTH) xs ->
    forall y, 0 <= y < WIDTH ->
      row_bit (U8.modify_all (map set_bit xs) a) y
      = if existsb (Z.eqb y) xs then 1 else row_bit a y.
Proof.
  induction xs as [|x xs IH]; intros a Hlen Ha Hxs y Hy.
  - reflexivity.
  - inversion Hxs as [|? ? Hx Hxs']; subst.
    cbn [map U8.modify_all fold_left existsb].
    change (fold_left (fun a0 op => U8.modify op a0) (map set_bit xs)
                      (U8.modify (set_bit x) a))
      with (U8.modify_all (map set_bit xs) (U8.modify (set_bit x) a)).
    rewrite IH; try assumption.
    + rewrite (row_bit_modify true x a y Hlen Ha Hx Hy). cbn [Z.b2z].
      destruct (existsb (Z.eqb y) xs); [now rewrite orb_true_r|].
      rewrite orb_false_r. reflexivity.
    + now rewrite modify_length.
    + now apply modify_bytes.
Qed.

Lemma existsb_Z_range y lo n :
  existsb (Z.eqb y) (Z_range lo n) = (lo <=? y) && (y <? lo + Z.of_nat n).
Proof.
  destruct (existsb (Z.eqb y) (Z_range lo n)) eqn:E.
  - apply existsb_exists in E. destruct E as (x & Hx & Heq).
    apply Z.eqb_eq in Heq. subst x. unfold Z_range in Hx.
    apply in_map_iff in Hx. destruct Hx as (k & Hk & Hin).
    apply in_seq in Hin. symmetry. apply andb_true_iff.
    split; [apply Z.leb_le | apply Z.ltb_lt]; lia.
  - symmetry. apply andb_false_iff.
    destruct (Z_le_gt_dec lo y) as [H1|H1];
      [|left; apply Z.leb_gt; lia].
    destruct (Z_lt_le_dec y (lo + Z.of_nat n)) as [H2|H2];
      [|right; apply Z.ltb_ge; lia].
    exfalso. assert (Hin : In y (Z_range lo n)) by (apply in_Z_range; lia).
    assert (Ht : existsb (Z.eqb y) (Z_range lo n) = true).
    { apply existsb_exists. exists y. split; [exact Hin | apply Z.eqb_refl]. }
    congruence.
Qed.

Lemma range_ops_columns_list x1 x2 :
  range_ops x1 x2
  = map set_bit (Z_range (Z.max 0 (Qfloor x1))
                         (Z.to_nat (Z.min WIDTH (Qfloor x2)
                                    - Z.max 0 (Qfloor x1)))).
Proof. unfold range_ops, Z_range. now rewrite map_map. Qed.

(** X13. Drawing a span and testing it: on a line buffer of 72 bytes, after
    [range(x1, x2)] the pixel test gives 1 at every column from
    [max(0, floor x1)] up to but not including [min(576, floor x2)], and
    what it gave before at every other column; with [x2 <= x1] nothing
    changes. *)
Theorem range_then_test (x1 x2 : Q) (c : LineContext) (y : Z) :
  length (_buf c) = 72%nat -> U8.bytes (_buf c) -> 0 <= y < WIDTH ->
  row_bit (_buf (range x1 x2 c)) y
  = if (Z.max 0 (Qfloor x1) <=? y) && (y <? Z.min WIDTH (Qfloor x2))
    then 1 else row_bit (_buf c) y.
Proof.
  intros Hlen Hb Hy. unfold range, with_buf. cbn [_buf].
  rewrite range_ops_columns_list.
  set (lo := Z.max 0 (Qfloor x1)). set (hi := Z.min WIDTH (Qfloor x2)).
  rewrite set_bits_then_test; try assumption.
  - rewrite existsb_Z_range.
    destruct (Z_le_gt_dec lo hi) as [H|H].
    + now rewrite Z2Nat.id, Zplus_minus by lia.
    + replace (Z.to_nat (hi - lo)) with 0%nat by lia. rewrite Z.add_0_r.
      destruct (lo <=? y) eqn:E1, (y <? lo) eqn:E2, (y <? hi) eqn:E3;
        try reflexivity; lia.
  - apply Forall_forall. intros x Hx. unfold Z_range in Hx.
    apply in_map_iff in Hx. destruct Hx as (k & <- & Hk).
    apply in_seq in Hk. unfold lo, hi in *. lia.
Qed.

Lemma range_then_test_witness :
  row_bit (_buf (range (-3 # 1) (9 # 2) (new_LineContext 4))) 3
  = if (Z.max 0 (Qfloor (-3 # 1)) <=? 3) && (3 <? Z.min WIDTH (Qfloor (9 # 2)))
    then 1 else row_bit (_buf (new_LineContext 4)) 3.
Proof.
  apply (range_then_test (-3 # 1) (9 # 2) (new_LineContext 4) 3).
  - reflexivity.
  - unfold U8.bytes. cbn. repeat constructor; lia.
  - unfold WIDTH. lia.
Defined.

Lemma emit_ops_overwrite src :
  forall pre old,
    U8.bytes src -> (length src <= length old)%nat ->
    U8.modify_all
      (map (fun kv => (Z.of_nat (fst kv), fun _ : Z => snd kv))
           (combine (seq (length pre) (length src)) src))
      (pre ++ old)
    = pre ++ src ++ skipn (length src) old.
Proof.
  induction src as [|s src IH]; intros pre old Hsrc Hlen.
  - reflexivity.
  - destruct old as [|o old]; [cbn in Hlen; lia|].
    inversion Hsrc as [|? ? Hs Hsrc']; subst.
    cbn [length seq combine map U8.modify_all fold_left fst snd U8.modify].
    assert (G : (0 <=? Z.of_nat (length pre))
                && (Z.of_nat (length pre) <? Z.of_nat (length (pre ++ o :: old)))
                = true).
    { apply andb_true_iff. split; [apply Z.leb_le | apply Z.ltb_lt].
      - lia.
      - rewrite length_app. cbn [length]. lia. }
    rewrite G, Nat2Z.id, store_at_end, (wrap_byte s Hs).
    change (fold_left (fun a op => U8.modify op a) ?ops ?a)
      with (U8.modify_all ops a).
    replace (S (length pre)) with (length (pre ++ [s]))
      by (rewrite length_app; cbn [length]; lia).
    replace (pre ++ s :: old) with ((pre ++ [s]) ++ old)
      by (now rewrite <- app_assoc).
    rewrite IH by (try assumption; cbn [length] in Hlen; lia).
    cbn [skipn app]. now rewrite <- app_assoc.
Qed.

(** X14. [emit(data)] copies the first 72 bytes of [data], each taken
    modulo 256, over the front of the line buffer and keeps the rest of the
    buffer; so a full 72-byte line replaces the buffer, and what a later
    [emit] covers of an earlier one is lost. *)
Theorem emit_replaces_front (data : list Z) (c : LineContext) :
  length (_buf c) = 72%nat ->
  _buf (emit data c)
  = firstn 72 (U8.of_array data) ++ skipn (Nat.min 72 (length data)) (_buf c)
  /\ ((72 <= length data)%nat ->
      _buf (emit data c) = firstn 72 (U8.of_array data))
  /\ forall data', (length data <= length data')%nat ->
       _buf (emit data' (emit data c)) = _buf (emit data' c).
Proof.
  intros Hlen.
  assert (H : forall d b, length b = 72%nat ->
            U8.modify_all (emit_ops d) b
            = firstn 72 (U8.of_array d) ++ skipn (Nat.min 72 (length d)) b).
  { intros d b Hb. unfold emit_ops, BPL.
    set (src := firstn 72 (U8.of_array d)).
    assert (Hsrc : length src = Nat.min 72 (length d))
      by (unfold src; now rewrite length_firstn, of_array_length).
    rewrite <- Hsrc.
    apply (emit_ops_overwrite src [] b).
    - pose proof (of_array_is_bytes d) as Hd. unfold U8.bytes in *.
      rewrite <- (firstn_skipn 72 (U8.of_array d)) in Hd.
      apply Forall_app in Hd. exact (proj1 Hd).
    - lia. }
  assert (Hl : forall d b, length b = 72%nat ->
            length (U8.modify_all (emit_ops d) b) = 72%nat)
    by (intros; now rewrite modify_all_length).
  unfold emit, with_buf. cbn [_buf]. split; [now apply H|]. split.
  - intros Hd. rewrite H by exact Hlen.
    rewrite Nat.min_l by lia. rewrite <- Hlen, skipn_all. apply app_nil_r.
  - intros data' Hd. rewrite !H; auto.
    f_equal. rewrite skipn_app.
    rewrite length_firstn, of_array_length.
    rewrite skipn_skipn.
    replace (skipn (Nat.min 72 (length data'))
                   (firstn 72 (U8.of_array data)))
      with (@nil Z).
    + cbn [app]. f_equal. lia.
    + symmetry. apply skipn_all2.
      rewrite length_firstn, of_array_length. lia.
Qed.

Lemma emit_replaces_front_witness :
  _buf (emit [1; 2; 3] (new_LineContext 4))
  = firstn 72 (U8.of_array [1; 2; 3])
      ++ skipn (Nat.min 72 (length [1; 2; 3])) (_buf (new_LineContext 4))
  /\ ((72 <= length [1; 2; 3])%nat ->
      _buf (emit [1; 2; 3] (new_LineContext 4))
      = firstn 72 (U8.of_array [1; 2; 3]))
  /\ forall data', (length [1; 2; 3] <= length data')%nat ->
       _buf (emit data' (emit [1; 2; 3] (new_LineContext 4)))
       = _buf (emit data' (new_LineContext 4)).
Proof.
  apply (emit_replaces_front [1; 2; 3] (new_LineContext 4)). reflexivity.
Defined.

Lemma row_bit_blank x : row_bit (U8.make BPL) x = 0.
Proof.
  unfold row_bit, U8.make. rewrite nth_repeat.
  now rewrite Z.shiftr_0_l.
Qed.

Lemma nth_Z_range {A} (f : Z -> A) d n y :
  0 <= y < Z.of_nat n ->
  nth (Z.to_nat y) (map f (Z_range 0 n)) d = f y.
Proof.
  intros H. unfold Z_range. rewrite map_map.
  rewrite (nth_indep _ d (f (0 + Z.of_nat 0)))
    by (rewrite length_map, length_seq; lia).
  rewrite (map_nth (fun k => f (0 + Z.of_nat k)) (seq 0 n) 0%nat).
  rewrite seq_nth by lia. f_equal. lia.
Qed.

Lemma existsb_filter_Z y p l :
  existsb (Z.eqb y) (filter p l) = p y && existsb (Z.eqb y) l.
Proof.
  induction l as [|x l IH]; cbn [filter existsb].
  - now rewrite andb_false_r.
  - destruct (p x) eqn:Ep; cbn [existsb]; rewrite IH.
    + destruct (Z.eqb_spec y x) as [->|Hne]; cbn [orb].
      * now rewrite Ep.
      * reflexivity.
    + destruct (Z.eqb_spec y x) as [->|Hne]; cbn [orb].
      * now rewrite Ep.
      * reflexivity.
Qed.

(** X15. [packToRows] packs one row of 72 bytes per image row; in row [y]
    the pixel test gives 1 at column [x] exactly when [x] is inside the
    image width and [dithered[y * width + x]] is below 128; columns past
    the width or past 576, and elements past the end of the array, stay
    white. *)
Theorem packToRows_pixels (dithered : list Q) (width height : Z) :
  length (packToRows dithered width height) = Z.to_nat height
  /\ Forall (fun row => length row = 72%nat /\ U8.bytes row)
            (packToRows dithered width height)
  /\ forall y x, 0 <= y < height -> 0 <= x < WIDTH ->
       row_bit (nth (Z.to_nat y) (packToRows dithered width height) []) x
       = if (x <? width) && below_128 dithered (y * width + x)
         then 1 else 0.
Proof.
  assert (Hcols : forall y,
            Forall (fun x => 0 <= x < WIDTH)
              (filter (fun x => below_128 dithered (y * width + x))
                      (Z_range 0 (Z.to_nat (Z.min width WIDTH))))).
  { intros y. apply Forall_forall. intros x Hx. apply filter_In in Hx.
    destruct Hx as [Hx _]. unfold Z_range in Hx.
    apply in_map_iff in Hx. destruct Hx as (k & <- & Hk).
    apply in_seq in Hk. lia. }
  split; [|split].
  - unfold packToRows, Z_range. now rewrite !length_map, length_seq.
  - unfold packToRows. apply Forall_forall. intros row Hrow.
    apply in_map_iff in Hrow. destruct Hrow as (y & <- & _).
    unfold packRow. split.
    + now rewrite modify_all_length.
    + generalize (map set_bit
                    (filter (fun x => below_128 dithered (y * width + x))
                            (Z_range 0 (Z.to_nat (Z.min width WIDTH))))).
      intros ops.
      assert (Hz : U8.bytes (U8.make BPL))
        by (unfold U8.bytes, U8.make; apply Forall_forall; intros v Hv;
            apply repeat_spec in Hv; lia).
      revert Hz. generalize (U8.make BPL). unfold U8.modify_all.
      induction ops as [|op ops IH]; intros a Ha; cbn [fold_left].
      * exact Ha.
      * apply IH. now apply modify_bytes.
  - intros y x Hy Hx. unfold packToRows.
    rewrite nth_Z_range by lia. unfold packRow.
    assert (Hzl : length (U8.make BPL) = BPL) by apply repeat_length.
    assert (Hzb : U8.bytes (U8.make BPL)).
    { unfold U8.bytes, U8.make. apply Forall_forall. intros v Hv.
      apply repeat_spec in Hv. lia. }
    rewrite (set_bits_then_test _ _ Hzl Hzb (Hcols y) x Hx).
    rewrite row_bit_blank, existsb_filter_Z, existsb_Z_range.
    destruct (below_128 dithered (y * width + x));
      [|now rewrite andb_false_r].
    cbn [andb]. rewrite andb_true_r.
    destruct (x <? width) eqn:E1.
    + apply Z.ltb_lt in E1.
      replace ((0 <=? x) && (x <? 0 + Z.of_nat (Z.to_nat (Z.min width WIDTH))))
        with true; [reflexivity|].
      symmetry. apply andb_true_iff.
      split; [apply Z.leb_le | apply Z.ltb_lt]; lia.
    + apply Z.ltb_ge in E1.
      replace ((0 <=? x) && (x <? 0 + Z.of_nat (Z.to_nat (Z.min width WIDTH))))
        with false; [reflexivity|].
      symmetry. apply andb_false_iff. right. apply Z.ltb_ge. lia.
Qed.

(** ** Further properties of dynamic sections *)

Lemma dyn_loop_lines {Vars} (s : SectionT Vars) f n :
  forall i v c rows,
  exists m more,
    snd (dyn_loop s f n i v c rows) = rows ++ more
    /\ length more = m /\ (m <= n)%nat /\ ((1 <= n)%nat -> (1 <= m)%nat)
    /\ Forall U8.bytes more.
Proof.
  induction n as [|n IH]; intros i v c rows.
  - exists 0%nat, []. cbn. rewrite app_nil_r. repeat split; auto; lia.
  - cbn [dyn_loop].
    destruct (f v (begin_line i c)) as [v1 c1].
    set (row := U8.of_array (_buf c1)).
    assert (Hstop : forall (st : Vars * LineContext),
              exists m more,
                snd (st, rows ++ [row]) = rows ++ more
                /\ length more = m /\ (m <= S n)%nat
                /\ ((1 <= S n)%nat -> (1 <= m)%nat)
                /\ Forall U8.bytes more).
    { intros st. exists 1%nat, [row]. cbn [snd length].
      repeat split; try lia. constructor; [apply of_array_is_bytes|constructor]. }
    assert (Hgo : forall v' c',
              exists m more,
                snd (dyn_loop s f n (i + 1) v' c' (rows ++ [row]))
                = rows ++ more
                /\ length more = m /\ (m <= S n)%nat
                /\ ((1 <= S n)%nat -> (1 <= m)%nat)
                /\ Forall U8.bytes more).
    { intros v' c'.
      destruct (IH (i + 1) v' c' (rows ++ [row]))
        as (m & more & Heq & Hm & Hle & _ & Hb).
      exists (S m), (row :: more). rewrite Heq, <- app_assoc.
      cbn [app length]. repeat split; try lia.
      constructor; [apply of_array_is_bytes | exact Hb]. }
    destruct (_done c1).
    + apply (Hstop (v1, c1)).
    + destruct (_endCondition s) as [cond|].
      * destruct (cond v1 c1) as [[v2 c2] stop]. destruct stop.
        -- apply (Hstop (v2, c2)).
        -- apply Hgo.
      * apply Hgo.
Qed.

(** X16. [_runDynamic] returns at most [maxLines] scanlines, at least one
    when [maxLines >= 1] (the stop signals are looked at only after a line
    was produced), none when [maxLines <= 0]; every scanline is an array of
    bytes. *)
Theorem runDynamic_line_count {Vars} (s : SectionT Vars) (f : callback Vars)
    (v : Vars) :
  let rows := snd (runDynamic s f v) in
  Z.of_nat (length rows) <= Z.max 0 (maxLines s)
  /\ (1 <= maxLines s -> (1 <= length rows)%nat)
  /\ (maxLines s <= 0 -> rows = [])
  /\ Forall U8.bytes rows.
Proof.
  cbn zeta. unfold runDynamic.
  destruct (run_hook (_onEnter s) v (new_LineContext (maxLines s)))
    as [v0 c0].
  destruct (dyn_loop_lines s f (Z.to_nat (maxLines s)) 0 v0 c0 [])
    as (m & more & Heq & Hm & Hle & Hone & Hb).
  destruct (dyn_loop s f (Z.to_nat (maxLines s)) 0 v0 c0 [])
    as [[v1 c1] rows].
  cbn [snd app] in Heq. subst rows.
  destruct (run_hook (_onExit s) v1 c1) as [v2 c2]. cbn [snd].
  repeat split; try assumption; try lia.
  intros Hz. replace (Z.to_nat (maxLines s)) with 0%nat in Hle by lia.
  destruct more; [reflexivity | cbn in Hm; lia].
Qed.

Lemma fill_zero a : U8.fill 0 a = repeat 0 (length a).
Proof.
  unfold U8.fill. induction a as [|h t IH]; cbn [map length repeat].
  - reflexivity.
  - now rewrite IH.
Qed.

Lemma painter_loop {Vars} (s : SectionT Vars) paint n :
  _endCondition s = None ->
  (forall i a, length (paint i a) = length a) ->
  forall i (v : Vars) c rows,
    _done c = false -> length (_buf c) = BPL ->
    exists c',
      dyn_loop s (painter paint) n i v c rows
      = (v, c',
         rows ++ map (fun j => U8.of_array (paint j (U8.make BPL)))
                     (Z_range i n)).
Proof.
  intros Hend Hpaint. induction n as [|n IH]; intros i v c rows Hd Hlen.
  - exists c. cbn. now rewrite app_nil_r.
  - cbn [dyn_loop].
    change (painter paint v (begin_line i c))
      with (v, with_buf (paint i (U8.fill 0 (_buf c))) (begin_line i c)).
    cbn [with_buf begin_line _done _buf]. rewrite Hd, Hend, fill_zero, Hlen.
    match goal with
    | |- context [dyn_loop s (painter paint) n (i + 1) v ?c1 ?r] =>
        destruct (IH (i + 1) v c1 r) as (c' & Heq)
    end.
    + cbn [with_buf begin_line _done]. exact Hd.
    + cbn [with_buf _buf]. rewrite Hpaint. apply repeat_length.
    + exists c'. rewrite Heq. f_equal. rewrite <- app_assoc. f_equal.
      cbn [app]. unfold Z_range. cbn [seq map]. rewrite Z.add_0_r.
      unfold U8.make. f_equal.
      rewrite <- seq_shift, !map_map. apply map_ext. intros k.
      do 2 f_equal. lia.
Qed.

(** X17. Every line starts blank: for a generator that only draws, with a
    paint function that keeps the buffer length, and no hooks, the
    scanlines are the paint of each line index from 0 to [maxLines - 1] on
    a zeroed 72-byte buffer, one per index; nothing drawn on a line carries
    into the next, and the variables are untouched. *)
Theorem runDynamic_painter {Vars} (s : SectionT Vars)
    (paint : Z -> list Z -> list Z) (v : Vars) :
  _onEnter s = None -> _onExit s = None -> _endCondition s = None ->
  (forall i a, length (paint i a) = length a) ->
  runDynamic s (painter paint) v
  = (v, map (fun i => U8.of_array (paint i (U8.make BPL)))
            (Z_range 0 (Z.to_nat (maxLines s)))).
Proof.
  intros Henter Hexit Hend Hpaint. unfold runDynamic.
  rewrite Henter, Hexit. cbn [run_hook].
  destruct (painter_loop s paint (Z.to_nat (maxLines s)) Hend Hpaint 0 v
              (new_LineContext (maxLines s)) [] eq_refl eq_refl)
    as (c' & ->).
  reflexivity.
Qed.

Lemma diagonal_length i a : length (diagonal i a) = length a.
Proof. unfold diagonal. apply modify_all_length. Qed.

Lemma runDynamic_painter_witness :
  runDynamic (generator_section "diag" 3 (painter diagonal))
             (painter diagonal) tt
  = (tt, map (fun i => U8.of_array (diagonal i (U8.make BPL)))
             (Z_range 0 (Z.to_nat 3))).
Proof.
  apply (runDynamic_painter (generator_section "diag" 3 (painter diagonal))
                            diagonal tt); try reflexivity.
  exact diagonal_length.
Defined.

Lemma painter_until_loop {Vars} (s : SectionT Vars) k paint n :
  _endCondition s = None ->
  forall i (v : Vars) c rows,
    _done c = false -> i <= k < i + Z.of_nat n ->
    length (snd (dyn_loop s (painter_until k paint) n i v c rows))
    = (length rows + Z.to_nat (k - i + 1))%nat.
Proof.
  intros Hend. induction n as [|n IH]; intros i v c rows Hd Hk.
  - lia.
  - cbn [dyn_loop].
    set (c1 := with_buf (paint i (U8.fill 0 (_buf c))) (begin_line i c)).
    change (painter_until k paint v (begin_line i c))
      with (v, if i =? k then done c1 else c1).
    assert (Hd1 : _done c1 = false) by exact Hd.
    destruct (i =? k) eqn:E.
    + apply Z.eqb_eq in E. subst k. cbn [done _done snd].
      rewrite length_app. cbn [length].
      replace (i - i + 1) with 1 by lia. reflexivity.
    + apply Z.eqb_neq in E. rewrite Hd1, Hend.
      rewrite IH by (try exact Hd1; lia).
      rewrite length_app. cbn [length]. lia.
Qed.

(** X18. A generator that calls [done()] on line [k], on a section of more
    than [k] lines without enter hook and end condition, yields exactly
    [k + 1] scanlines: the lines 0 to [k], the line of the call included. *)
Theorem runDynamic_done_on_line {Vars} (s : SectionT Vars) (k : Z)
    (paint : Z -> list Z -> list Z) (v : Vars) :
  _onEnter s = None -> _endCondition s = None -> 0 <= k < maxLines s ->
  Z.of_nat (length (snd (runDynamic s (painter_until k paint) v))) = k + 1.
Proof.
  intros Henter Hend Hk. unfold runDynamic. rewrite Henter. cbn [run_hook].
  pose proof (painter_until_loop s k paint (Z.to_nat (maxLines s)) Hend 0 v
                (new_LineContext (maxLines s)) [] eq_refl ltac:(lia)) as H.
  destruct (dyn_loop s (painter_until k paint) (Z.to_nat (maxLines s)) 0 v
                     (new_LineContext (maxLines s)) [])
    as [[v1 c1] rows].
  destruct (run_hook (_onExit s) v1 c1). cbn [snd length] in *. lia.
Qed.

(** [done()] on line index 3 of a section of 100 lines: four scanlines. *)
Lemma runDynamic_done_on_line_witness :
  Z.of_nat (length (snd (runDynamic
                           (generator_section "wave" 100
                              (painter_until 3 diagonal))
                           (painter_until 3 diagonal) tt))) = 3 + 1.
Proof.
  apply (runDynamic_done_on_line
           (generator_section "wave" 100 (painter_until 3 diagonal))
           3 diagonal tt); try reflexivity.
  cbn. lia.
Defined.

(** ** Further properties of the program compiler *)

Lemma compile_frames_outcome {Vars} (g : Game Vars) v :
  match (if hasBranchingCommands g then validateLabels g else None) with
  | Some e => compile_frames g v = Throw e
  | None => exists r, compile_frames g v = Return r
  end.
Proof.
  unfold compile_frames.
  destruct (if hasBranchingCommands g then validateLabels g else None).
  - reflexivity.
  - destruct (hasBranchingCommands g).
    + destruct (compile_flow_all g (_flow g) v _ []) as [[v1 fr] compiled].
      destruct (compile_remaining (sections g) compiled v1 fr) as [v2 fr2].
      eexists. reflexivity.
    + destruct (compile_flow_only g (_flow g) v _) as [v1 fr].
      eexists. reflexivity.
Qed.

Lemma compile_throw_cases {Vars} (g : Game Vars) v e :
  compile g v = Throw e
  <-> hasBranchingCommands g = true /\ validateLabels g = Some e.
Proof.
  unfold compile. pose proof (compile_frames_outcome g v) as H.
  destruct (hasBranchingCommands g).
  - destruct (validateLabels g) as [e'|].
    + rewrite H. split.
      * intros E. injection E as ->. auto.
      * intros [_ E]. injection E as ->. reflexivity.
    + destruct H as [[v' fr] ->]. split; [discriminate|].
      intros [_ E]. discriminate.
  - destruct H as [[v' fr] ->]. split; [discriminate|].
    intros [E _]. discriminate.
Qed.

Lemma checked_refs_control_flow b l :
  In l (checked_refs b) -> control_flow_block b = true.
Proof. destruct b; cbn; intros H; try contradiction; reflexivity. Qed.

(** X19. [compile] throws the CompileError of label validation exactly
    when some jump, jumpIfBtn, jumpIfVar or randomJump block, in any
    section, names a label that no label block of any section defines,
    whether the sections are in the flow or not; the error then carries the
    defined labels, which are the ids of the label blocks of all sections,
    and one entry for every such reference, with its section.  Validation
    runs before any section is compiled, so no callback has run by then;
    callbacks are taken to return normally, and what [compile] does when one
    throws is not part of this statement. *)
Theorem compile_fails_on_undefined_label {Vars} (g : Game Vars) (v : Vars) :
  ((exists e : CompileError, compile g v = Throw e)
   <-> exists entry b l,
         In entry (sections g) /\ In b (blocks (snd entry))
         /\ In l (checked_refs b) /\ ~ In l (collect_labels g))
  /\ (forall e, compile g v = Throw e ->
       definedLabels e = collect_labels g
       /\ forall entry b l,
            In entry (sections g) -> In b (blocks (snd entry)) ->
            In l (checked_refs b) -> ~ In l (collect_labels g) ->
            exists err, In err (errors e)
                        /\ err_section err = fst entry /\ err_label err = l)
  /\ (forall l, In l (collect_labels g)
                <-> exists d, In d (sections g)
                              /\ In (Label l) (blocks (snd d))).
Proof.
  pose proof (validateLabels_checked_types g) as Hval.
  split; [split|split; [|intros l; apply collect_labels_spec]].
  - intros [e He]. apply compile_throw_cases in He. destruct He as [_ He].
    rewrite He in Hval. destruct Hval as (_ & Hne & _ & Hsound).
    destruct (errors e) as [|err errs] eqn:Ee; [contradiction|].
    destruct (Hsound err (or_introl eq_refl))
      as (Hundef & entry & b & Hentry & Hb & _ & Hl).
    exists entry, b, (err_label err). auto.
  - intros (entry & b & l & Hentry & Hb & Hl & Hundef).
    assert (Hbr : hasBranchingCommands g = true).
    { apply hasBranchingCommands_spec. exists entry, b.
      repeat split; try assumption. now apply checked_refs_control_flow in Hl. }
    destruct (validateLabels g) as [e|] eqn:Ev.
    + exists e. apply compile_throw_cases. auto.
    + exfalso. apply Hundef. now apply (Hval entry b l).
  - intros e He. apply compile_throw_cases in He. destruct He as [_ He].
    rewrite He in Hval. destruct Hval as (Hdef & _ & Hall & _).
    split; [exact Hdef | exact Hall].
Qed.

(** X20. A label block inside a generator section counts as a definition
    for validation and makes the program a branching one, but the section
    compiles to its header and raster lines only: no LABEL frame is emitted
    for it. *)
Theorem generator_section_label_not_emitted {Vars} (g : Game Vars)
    (entry : string * SectionT Vars) (f : callback Vars) (l : Z) (v : Vars) :
  In entry (sections g) -> _onLine (snd entry) = Some f ->
  In (Label l) (blocks (snd entry)) ->
  In l (collect_labels g)
  /\ hasBranchingCommands g = true
  /\ Forall (fun fr => frame_cmd fr = PGP.CMD.SET_MODE
                       \/ frame_cmd fr = PGP.CMD.SET_SPEED
                       \/ frame_cmd fr = PGP.CMD.RAW_LINE
                       \/ frame_cmd fr = PGP.CMD.RAW_LINE_RLE)
            (snd (compileSectionFrames (snd entry) v)).
Proof.
  intros Hentry Hline Hlabel. split; [|split].
  - apply collect_labels_spec. exists entry. auto.
  - apply hasBranchingCommands_spec. exists entry, (Label l). auto.
  - destruct (dynamic_section_frames (snd entry) f v Hline)
      as (v' & rows & _ & -> & Hrows).
    cbn [snd]. apply Forall_app. split.
    + unfold section_header. apply Forall_app. split.
      * destruct (negb _); constructor; [|constructor].
        left. unfold PGP.setMode. now rewrite frame_cmd_frame.
      * destruct (_ || _); constructor; [|constructor].
        right. left. unfold PGP.setSpeed. now rewrite frame_cmd_frame.
    + eapply Forall_impl; [|exact Hrows]. cbn. tauto.
Qed.

(** A jump to the label of a generator section compiles, and the stream has
    a JUMP frame but no LABEL frame. *)
Lemma generator_section_label_not_emitted_witness :
  (In 1 (collect_labels label_in_generator_game)
   /\ hasBranchingCommands label_in_generator_game = true
   /\ Forall (fun fr => frame_cmd fr = PGP.CMD.SET_MODE
                        \/ frame_cmd fr = PGP.CMD.SET_SPEED
                        \/ frame_cmd fr = PGP.CMD.RAW_LINE
                        \/ frame_cmd fr = PGP.CMD.RAW_LINE_RLE)
             (snd (compileSectionFrames
                     (dynamic_section "wave" 1 steady_line) tt)))
  /\ compile_frames label_in_generator_game tt
     = Return (tt, [PGP.programStart; PGP.setSpeed 10000; PGP.jump 1;
                    PGP.setSpeed 10000; PGP.rawLineRle first_pixel_line;
                    PGP.feed 16; PGP.stop; PGP.programEnd]).
Proof.
  split; [|vm_compute; reflexivity].
  pose proof (generator_section_label_not_emitted label_in_generator_game
                (nth 1 (sections label_in_generator_game)
                     ("wave"%string, dynamic_section "wave" 1 steady_line))
                steady_line 1 tt) as H.
  cbn [nth sections label_in_generator_game snd _onLine blocks] in H.
  destruct H as (H1 & H2 & H3).
  - right. left. reflexivity.
  - reflexivity.
  - left. reflexivity.
  - split; [exact H1|]. split; [exact H2|].
    vm_compute in H3 |- *. exact H3.
Defined.

(** ** The serial connection *)

Lemma chunk_loop_done turns data i written :
  Z.of_nat (length data) <= i -> chunk_loop turns data i written = Some written.
Proof.
  intros H. apply Z.leb_le in H. destruct turns; cbn [chunk_loop]; now rewrite H.
Qed.

Lemma chunk_loop_turn turns data i written :
  i < Z.of_nat (length data) ->
  chunk_loop (S turns) data i written
  = chunk_loop turns data (i + CHUNK)
      (written ++ [U8.slice (Z.to_nat i)
                     (Z.to_nat (Z.min (i + CHUNK) (Z.of_nat (length data))))
                     data]).
Proof.
  intros H. apply Z.leb_gt in H. cbn [chunk_loop]. now rewrite H.
Qed.

Lemma chunk_count_step r :
  0 < r ->
  (Z.max 0 r + 4095) / 4096 = 1 + (Z.max 0 (r - 4096) + 4095) / 4096.
Proof.
  intros Hr. destruct (Z_le_gt_dec r 4096) as [H|H].
  - rewrite (Z.max_r 0 r), (Z.max_l 0 (r - 4096)) by lia.
    change ((0 + 4095) / 4096) with 0. rewrite Z.add_0_r.
    symmetry. apply (Z.div_unique _ _ 1 (r - 1)); lia.
  - rewrite !Z.max_r by lia.
    replace (r + 4095) with ((r - 4096 + 4095) + 1 * 4096) by lia.
    rewrite Z.div_add by lia. lia.
Qed.

Lemma chunk_loop_spec turns :
  forall data i written,
    0 <= i -> Z.of_nat (length data) - i <= Z.of_nat turns ->
    exists chunks,
      chunk_loop turns data i written = Some (written ++ chunks)
      /\ concat chunks = skipn (Z.to_nat i) data
      /\ Forall (fun ch => 1 <= Z.of_nat (length ch) <= CHUNK) chunks
      /\ full_but_last chunks
      /\ Z.of_nat (length chunks)
         = (Z.max 0 (Z.of_nat (length data) - i) + 4095) / 4096.
Proof.
  unfold CHUNK.
  induction turns as [|turns IH]; intros data i written Hi Hturns.
  - exists []. rewrite chunk_loop_done by lia. rewrite app_nil_r.
    rewrite skipn_all2 by lia. rewrite Z.max_l by lia.
    repeat split; constructor.
  - destruct (Z_le_gt_dec (Z.of_nat (length data)) i) as [Hend|Hmore].
    + exists []. rewrite chunk_loop_done by lia. rewrite app_nil_r.
      rewrite skipn_all2 by lia. rewrite Z.max_l by lia.
      repeat split; constructor.
    + rewrite chunk_loop_turn by lia. unfold CHUNK.
      set (len := Z.of_nat (length data)) in *.
      set (e := Z.min (i + 4096) len).
      set (ch := U8.slice (Z.to_nat i) (Z.to_nat e) data).
      assert (Hch : Z.of_nat (length ch) = e - i).
      { unfold ch, U8.slice. rewrite length_firstn, length_skipn.
        unfold e, len in *. lia. }
      destruct (IH data (i + 4096) (written ++ [ch]))
        as (chunks & Heq & Hcat & Hsizes & Hfull & Hcount); [lia | lia |].
      fold len in Hcount.
      exists (ch :: chunks).
      split; [|split; [|split; [|split]]].
      * rewrite Heq. now rewrite <- app_assoc.
      * cbn [concat]. rewrite Hcat. unfold ch, U8.slice.
        destruct (Z_le_gt_dec (i + 4096) len) as [Hfit|Hlast].
        -- replace (Z.to_nat e - Z.to_nat i)%nat with (Z.to_nat 4096)
             by (unfold e; lia).
           replace (Z.to_nat (i + 4096))
             with (Z.to_nat 4096 + Z.to_nat i)%nat by lia.
           rewrite <- skipn_skipn. apply firstn_skipn.
        -- rewrite (skipn_all2 data (n := Z.to_nat (i + 4096)))
             by (unfold len in *; lia).
           rewrite app_nil_r. apply firstn_all2.
           rewrite length_skipn. unfold e, len in *. lia.
      * constructor; [|exact Hsizes]. unfold e in Hch. lia.
      * cbn [full_but_last]. destruct chunks as [|ch2 chunks']; [exact I|].
        split; [|exact Hfull]. cbn [length] in Hcount.
        destruct (Z_le_gt_dec (i + 4096) len) as [Hfit|Hlast].
        -- unfold CHUNK, e in *. lia.
        -- exfalso. rewrite Z.max_l in Hcount by lia.
           change ((0 + 4095) / 4096) with 0 in Hcount. lia.
      * cbn [length]. rewrite Nat2Z.inj_succ, Hcount.
        rewrite (chunk_count_step (len - i)) by lia.
        replace (len - (i + 4096)) with (len - i - 4096) by lia. lia.
Qed.

(** X21. [sendChunked] on a connected printer hands the writer the data in
    order, cut into chunks of 4096 bytes with a shorter last chunk when the
    length is no multiple: the chunks put together are the data, none is
    empty, and there are [ceil(length / 4096)] of them, none for empty data.
    On a printer that is not connected, [send] and [sendChunked] throw
    before writing, and a printer is not connected after [disconnect]. *)
Theorem sendChunked_chunks (data : list Z) :
  (forall written,
     exists chunks,
       sendChunked data {| _writer := Some written |}
       = Some (Sent {| _writer := Some (written ++ chunks) |})
       /\ concat chunks = data
       /\ Forall (fun ch => 1 <= Z.of_nat (length ch) <= CHUNK) chunks
       /\ full_but_last chunks
       /\ Z.of_nat (length chunks) = (Z.of_nat (length data) + 4095) / 4096)
  /\ (forall p, connected p = false ->
        sendChunked data p = Some ConnectionErrorThrown
        /\ send data p = ConnectionErrorThrown)
  /\ (forall p, connected (disconnect p) = false).
Proof.
  split; [|split].
  - intros written. unfold sendChunked. cbn [_writer].
    destruct (chunk_loop_spec (length data) data 0 written)
      as (chunks & Heq & Hcat & Hsizes & Hfull & Hcount); [lia | lia |].
    exists chunks. rewrite Heq. cbn [option_map].
    repeat split; try assumption.
    rewrite Hcount, Z.sub_0_r, Z.max_r by lia. reflexivity.
  - intros [[w|]] H; [discriminate|]. split; reflexivity.
  - reflexivity.
Qed.

(** ** Section and Game builders *)

(** X22. The two call forms of [Section.jumpIfBtn] agree: the one-argument
    form [jumpIfBtn(labelId)], the form with the any-button mask and the
    form with mask 0 compile to the same frame; and the mask byte of the
    frame is the given mask for every byte mask other than 0, and 0x3F
    for 0. *)
Theorem jumpIfBtn_call_forms (labelId : Z) :
  blockToPGP (Section_jumpIfBtn labelId None)
  = blockToPGP (Section_jumpIfBtn BTN.ANY (Some labelId))
  /\ blockToPGP (Section_jumpIfBtn 0 (Some labelId))
     = blockToPGP (Section_jumpIfBtn BTN.ANY (Some labelId))
  /\ forall mask, 0 <= mask < 256 ->
       blockToPGP (Section_jumpIfBtn mask (Some labelId))
       = [PGP.frame PGP.CMD.JUMP_IF_BTN
            ((if mask =? 0 then 0x3F else mask) :: PGP.writeU16BE labelId)].
Proof.
  split; [reflexivity|]. split; [reflexivity|].
  intros mask Hm. cbn [Section_jumpIfBtn blockToPGP]. unfold PGP.jumpIfBtn.
  destruct branch_fields_big_endian as (_ & _ & Hbtn & _).
  rewrite Hbtn. do 3 f_equal. apply wrap_byte.
  destruct (mask =? 0); [unfold BTN.ANY|]; lia.
Qed.

Lemma map_get_set_same {A} k (a : A) m : map_get (map_set k a m) k = Some a.
Proof.
  induction m as [|[k' a'] m IH]; cbn [map_set map_get].
  - now rewrite String.eqb_refl.
  - destruct (String.eqb k k') eqn:E; cbn [map_get].
    + now rewrite String.eqb_refl.
    + now rewrite E.
Qed.

Lemma map_get_set_other {A} k (a : A) m k' :
  k' <> k -> map_get (map_set k a m) k' = map_get m k'.
Proof.
  intros Hne. induction m as [|[k0 a0] m IH]; cbn [map_set map_get].
  - destruct (String.eqb k' k) eqn:E; [|reflexivity].
    apply String.eqb_eq in E. contradiction.
  - destruct (String.eqb k k0) eqn:E; cbn [map_get].
    + apply String.eqb_eq in E. subst k0.
      destruct (String.eqb k' k) eqn:E'; [|reflexivity].
      apply String.eqb_eq in E'. contradiction.
    + destruct (String.eqb k' k0); [reflexivity | exact IH].
Qed.

(** X23. [Game.section(id, opts)] puts a fresh section without blocks or
    callbacks under [id]: looking [id] up afterwards gives that section, so
    the blocks of an earlier section of the same id are gone; every other id
    still gives what it gave; the table keeps distinct keys.  The speed of
    the section is the speed of [opts], the default speed of the game when
    [opts] has none, and 10000 when that value is 0; its line limit is the
    one of [opts], and 2000 when [opts] has none or has 0; its feed mode is
    the one of [opts], the default of the game when [opts] has none, and
    auto when that value is the empty string.  [id] is appended to the end
    of the flow when it is not in it and the flow is left as it is
    otherwise, so a flow without repetition stays one. *)
Theorem Game_section_lookup {Vars} (defaultFeedMode : string)
    (defaultSpeed : Z) (name : string) (opts : SectionOpts) (g : Game Vars) :
  let g' := Game_section_new defaultFeedMode defaultSpeed name opts g in
  (exists s, map_get (sections g') name = Some s
             /\ id s = name /\ blocks s = [] /\ _onLine s = None
             /\ speed s <> 0 /\ maxLines s <> 0 /\ feedMode s <> ""%string
             /\ _onEnter s = None /\ _onExit s = None
             /\ _endCondition s = None
             /\ speed s
                = match opt_speed opts with
                  | Some sp => if sp =? 0 then 10000 else sp
                  | None => if defaultSpeed =? 0 then 10000 else defaultSpeed
                  end
             /\ maxLines s
                = match opt_maxLines opts with
                  | Some n => if n =? 0 then 2000 else n
                  | None => 2000
                  end
             /\ feedMode s
                = match opt_feedMode opts with
                  | Some m => if String.eqb m "" then "auto"%string else m
                  | None => if String.eqb defaultFeedMode ""
                            then "auto"%string else defaultFeedMode
                  end)
  /\ (forall k, k <> name -> map_get (sections g') k = map_get (sections g) k)
  /\ (NoDup (map fst (sections g)) -> NoDup (map fst (sections g')))
  /\ In name (_flow g')
  /\ (In name (_flow g) -> _flow g' = _flow g)
  /\ (NoDup (_flow g) -> NoDup (_flow g'))
  /\ sprites g' = sprites g
  /\ (~ In name (_flow g) -> _flow g' = _flow g ++ [name]).
Proof.
  cbn zeta. unfold Game_section_new, Game_section.
  set (s := new_Section name (merge_defaults defaultFeedMode defaultSpeed opts)).
  cbn [sections _flow sprites id].
  change (@id Vars s) with name.
  split; [|split; [|split; [|split; [|split; [|split; [|split]]]]]].
  - exists s. split; [apply map_get_set_same|].
    unfold s, new_Section.
    cbn [id blocks _onLine _onEnter _onExit _endCondition speed maxLines
         feedMode].
    split; [reflexivity|]. split; [reflexivity|]. split; [reflexivity|].
    split; [|split; [|split]].
    + unfold or_number. destruct (opt_speed _) as [n|]; [|discriminate].
      destruct (n =? 0) eqn:E; [discriminate|]. now apply Z.eqb_neq.
    + unfold or_number. destruct (opt_maxLines _) as [n|]; [|discriminate].
      destruct (n =? 0) eqn:E; [discriminate|]. now apply Z.eqb_neq.
    + unfold or_string. destruct (opt_feedMode _) as [m|]; [|discriminate].
      destruct (String.eqb m "") eqn:E; [discriminate|].
      now apply String.eqb_neq.
    + split; [reflexivity|]. split; [reflexivity|]. split; [reflexivity|].
      unfold merge_defaults, or_number, or_string.
      cbn [opt_speed opt_maxLines opt_feedMode].
      split; [|split].
      * destruct (opt_speed opts); reflexivity.
      * reflexivity.
      * destruct (opt_feedMode opts); reflexivity.
  - intros k Hk. now apply map_get_set_other.
  - apply map_set_NoDup.
  - destruct (set_has String.eqb (_flow g) name) eqn:E.
    + now apply set_has_str_In.
    + apply in_or_app. right. now left.
  - intros Hin. apply set_has_str_In in Hin. now rewrite Hin.
  - intros Hnd. destruct (set_has String.eqb (_flow g) name) eqn:E.
    + exact Hnd.
    + apply NoDup_app; [exact Hnd | repeat constructor; intros [] |].
      intros x Hx [ <- | []]. apply set_has_str_In in Hx. congruence.
  - reflexivity.
  - intros Hnot. destruct (set_has String.eqb (_flow g) name) eqn:E.
    + apply set_has_str_In in E. contradiction.
    + reflexivity.
Qed.
